(** * jots: a three-level task list (Epic, Task, Subtask)

    A shallow embedding of the core of the jots repository
    (src/core/schema.ts, validation.ts, queries.ts, operations.ts) and the
    properties its specification states about it.

    Conventions of the embedding:
    - a JS object with optional keys is a record whose optional keys have
      type [option]; [None] stands for an absent key (or [undefined]);
    - the attributes shared by Epic, Task and Subtask are the record
      [Fields]; an entity is its [Fields] plus its children, and the generic
      record spread [{...item, k: v}] of the source is an update of [Fields]
      that keeps the children;
    - [timestamp()] reads a clock; the operations thread the number of
      clock reads so far (a state monad over [nat]);
    - arrays are lists; [findIndex] returns [option nat], [None] for -1. *)

From Stdlib Require Import ZArith String Ascii List Lia Bool.
From stdpp Require Import base option list gmap strings pretty.

Open Scope string_scope.
Open Scope list_scope.

(** ** Data model (schema.ts) *)

Inductive Status := pending | in_progress | completed | blocked.

#[global] Instance Status_eq_dec : EqDecision Status.
Proof. solve_decision. Defined.


Inductive ItemType := epic | task | subtask.

#[global] Instance ItemType_eq_dec : EqDecision ItemType.
Proof. solve_decision. Defined.

(** The attributes every entity carries.  [implementation_description] and
    [deps] are not keys of the schemas of schema.ts, but operations.ts,
    queries.ts and validation.ts read and write them on every entity. *)
Record Fields := mkFields {
  id : string;
  content : string;
  priority : Z;
  status : Status;
  created_at : string;
  updated_at : option string;
  completed_at : option string;
  implementation_description : option string;
  notes : option (list string);
  deps : option (list string)
}.

Record Subtask := mkSubtask { subtask_fields : Fields }.

Record Task := mkTask { task_fields : Fields; subtasks : list Subtask }.

Record Epic := mkEpic { epic_fields : Fields; tasks : list Task }.

(** [standalone] is the key [tasks] of the State object: the tasks that
    belong to no epic.  The code reads it as [state.tasks ?? []]. *)
Record State := mkState {
  version : Z;
  epics : list Epic;
  standalone : option (list Task)
}.

(** An entity type: something with the shared attributes.  [with_fields]
    is the spread [{...item, <attributes>}], which keeps the children. *)
Class Entity (T : Type) := {
  fields : T -> Fields;
  with_fields : T -> Fields -> T
}.

#[global] Instance Subtask_entity : Entity Subtask :=
  {| fields := subtask_fields; with_fields := fun _ f => mkSubtask f |}.
#[global] Instance Task_entity : Entity Task :=
  {| fields := task_fields; with_fields := fun t f => mkTask f (subtasks t) |}.
#[global] Instance Epic_entity : Entity Epic :=
  {| fields := epic_fields; with_fields := fun e f => mkEpic f (tasks e) |}.

Definition isCompleted {T} `{Entity T} (x : T) : bool :=
  bool_decide (status (fields x) = completed).

(** ** Raw documents and the zod schemas (schema.ts)

    A raw document is a JSON value, as [JSON.parse] returns it.  A number is
    the fraction [n/d].  An object is the list of its own properties. *)

#[local] Unset Elimination Schemes.
Inductive json :=
  | JNull
  | JBool (b : bool)
  | JNum (n : Z) (d : positive)
  | JStr (s : string)
  | JArr (l : list json)
  | JObj (o : list (string * json)).
#[local] Set Elimination Schemes.

(** [o[k]]: [None] is [undefined]. *)
Fixpoint prop (k : string) (o : list (string * json)) : option json :=
  match o with
  | [] => None
  | (k', v) :: o' => if String.eqb k k' then Some v else prop k o'
  end.

Inductive PathSeg := Key (k : string) | Index (i : nat).

Record ZodIssue := mkIssue { path : list PathSeg; message : string }.

(** The result of a zod parse: the typed value, or all the issues found. *)
Inductive ParseResult (A : Type) :=
  | Ok (a : A)
  | Issues (l : list ZodIssue).
Arguments Ok {A} a.
Arguments Issues {A} l.

Definition both {A B} (a : ParseResult A) (b : ParseResult B) : ParseResult (A * B) :=
  match a, b with
  | Ok x, Ok y => Ok (x, y)
  | Ok _, Issues l => Issues l
  | Issues l, Ok _ => Issues l
  | Issues l1, Issues l2 => Issues (l1 ++ l2)
  end.

Definition pmap {A B} (f : A -> B) (a : ParseResult A) : ParseResult B :=
  match a with
  | Ok x => Ok (f x)
  | Issues l => Issues l
  end.

(** The issues of a value parsed at key or index [seg] of its parent. *)
Definition under {A} (seg : PathSeg) (a : ParseResult A) : ParseResult A :=
  match a with
  | Ok x => Ok x
  | Issues l => Issues (map (fun i => mkIssue (seg :: path i) (message i)) l)
  end.

Definition typeName (j : json) : string :=
  match j with
  | JNull => "null"
  | JBool _ => "boolean"
  | JNum _ _ => "number"
  | JStr _ => "string"
  | JArr _ => "array"
  | JObj _ => "object"
  end.

Definition issue {A} (msg : string) : ParseResult A := Issues [mkIssue [] msg].

Definition invalidType {A} (expected : string) (j : option json) : ParseResult A :=
  match j with
  | None => issue "Required"
  | Some v => issue ("Expected " ++ expected ++ ", received " ++ typeName v)
  end.

(** [z.string()] *)
Definition zString (j : option json) : ParseResult string :=
  match j with
  | Some (JStr s) => Ok s
  | _ => invalidType "string" j
  end.

(** [z.string().min(n, {message})] *)
Definition zStringMin (n : nat) (msg : string) (j : option json) : ParseResult string :=
  match zString j with
  | Ok s => if (n <=? String.length s)%nat then Ok s else issue msg
  | Issues l => Issues l
  end.

Definition isDigit (c : ascii) : bool :=
  ((48 <=? nat_of_ascii c) && (nat_of_ascii c <=? 57))%nat.

Definition isChar (c : ascii) (x : ascii) : bool := bool_decide (c = x).

(** The fraction and the zone of a datetime: [(\.\d+)?Z]. *)
Definition datetimeTail (l : list ascii) : bool :=
  match l with
  | [z] => isChar "Z" z
  | dot :: d :: rest =>
      isChar "." dot && isDigit d &&
      match rev rest with
      | z :: ds => isChar "Z" z && forallb isDigit ds
      | [] => false
      end
  | _ => false
  end.

(** [z.string().datetime()] with zod's default options: an ISO 8601 instant
    in UTC, [YYYY-MM-DDTHH:MM:SS(.s+)Z], no offset. *)
Definition isDatetime (s : string) : bool :=
  match list_ascii_of_string s with
  | y1 :: y2 :: y3 :: y4 :: h1 :: m1 :: m2 :: h2 :: d1 :: d2 :: t ::
    hh1 :: hh2 :: c1 :: mi1 :: mi2 :: c2 :: s1 :: s2 :: rest =>
      forallb isDigit [y1; y2; y3; y4; m1; m2; d1; d2; hh1; hh2; mi1; mi2; s1; s2] &&
      isChar "-" h1 && isChar "-" h2 && isChar "T" t &&
      isChar ":" c1 && isChar ":" c2 && datetimeTail rest
  | _ => false
  end.

Definition zDatetime (j : option json) : ParseResult string :=
  match zString j with
  | Ok s => if isDatetime s then Ok s else issue "Invalid datetime"
  | Issues l => Issues l
  end.

(** [schema.optional()]: an absent key is accepted and stays absent. *)
Definition zOptional {A} (p : option json -> ParseResult A) (j : option json)
  : ParseResult (option A) :=
  match j with
  | None => Ok None
  | Some _ => pmap Some (p j)
  end.

(** [schema.default(v)]: an absent key is parsed as [v]. *)
Definition zDefault {A} (v : A) (p : option json -> ParseResult A) (j : option json)
  : ParseResult A :=
  match j with
  | None => Ok v
  | Some _ => p j
  end.

Fixpoint zElements {A} (p : option json -> ParseResult A) (i : nat) (l : list json)
  : ParseResult (list A) :=
  match l with
  | [] => Ok []
  | x :: l' =>
      pmap (fun '(a, r) => a :: r)
           (both (under (Index i) (p (Some x))) (zElements p (S i) l'))
  end.

(** [z.array(schema)] *)
Definition zArray {A} (p : option json -> ParseResult A) (j : option json)
  : ParseResult (list A) :=
  match j with
  | Some (JArr l) => zElements p 0 l
  | _ => invalidType "array" j
  end.

Definition check (b : bool) (msg : string) : ParseResult unit :=
  if b then Ok tt else issue msg.

(** [PrioritySchema = z.number().int().min(1).max(5)] *)
Definition PrioritySchema (j : option json) : ParseResult Z :=
  match j with
  | Some (JNum n d) =>
      pmap (fun _ => (n / Z.pos d)%Z)
        (both (check (n mod Z.pos d =? 0)%Z "Expected integer, received float")
           (both (check (Z.pos d <=? n)%Z "Number must be greater than or equal to 1")
                 (check (n <=? 5 * Z.pos d)%Z "Number must be less than or equal to 5")))
  | _ => invalidType "number" j
  end.

(** [StatusSchema = z.enum(['pending', 'in_progress', 'completed', 'blocked'])] *)
Definition StatusSchema (j : option json) : ParseResult Status :=
  match j with
  | Some (JStr s) =>
      if String.eqb s "pending" then Ok pending
      else if String.eqb s "in_progress" then Ok in_progress
      else if String.eqb s "completed" then Ok completed
      else if String.eqb s "blocked" then Ok blocked
      else issue ("Invalid enum value. Expected 'pending' | 'in_progress' | 'completed' | 'blocked', received '" ++ s ++ "'")
  | _ => invalidType "'pending' | 'in_progress' | 'completed' | 'blocked'" j
  end.

Definition MIN_DESCRIPTION_LENGTH : nat := 10.

(** The eight keys that SubtaskSchema, TaskSchema and EpicSchema share.
    [kind] is the word of the message of the content check.  A [z.object]
    strips the keys its shape does not name, so the parsed object carries
    neither [deps] nor [implementation_description]. *)
Definition FieldsSchema (kind : string) (o : list (string * json)) : ParseResult Fields :=
  pmap (fun '(i, (c, (p, (s, (cr, (u, (co, n))))))) =>
          mkFields i c p s cr u co None n None)
    (both (under (Key "id")
             (zStringMin 1 "String must contain at least 1 character(s)" (prop "id" o)))
    (both (under (Key "content")
             (zStringMin MIN_DESCRIPTION_LENGTH
                (kind ++ " content must be at least 10 characters") (prop "content" o)))
    (both (under (Key "priority") (PrioritySchema (prop "priority" o)))
    (both (under (Key "status") (zDefault pending StatusSchema (prop "status" o)))
    (both (under (Key "created_at") (zDatetime (prop "created_at" o)))
    (both (under (Key "updated_at") (zOptional zDatetime (prop "updated_at" o)))
    (both (under (Key "completed_at") (zOptional zDatetime (prop "completed_at" o)))
          (under (Key "notes") (zOptional (zArray zString) (prop "notes" o)))))))))).

Definition SubtaskSchema (j : option json) : ParseResult Subtask :=
  match j with
  | Some (JObj o) => pmap mkSubtask (FieldsSchema "Subtask" o)
  | _ => invalidType "object" j
  end.

Definition TaskSchema (j : option json) : ParseResult Task :=
  match j with
  | Some (JObj o) =>
      pmap (fun '(f, l) => mkTask f l)
        (both (FieldsSchema "Task" o)
              (under (Key "subtasks") (zDefault [] (zArray SubtaskSchema) (prop "subtasks" o))))
  | _ => invalidType "object" j
  end.

Definition EpicSchema (j : option json) : ParseResult Epic :=
  match j with
  | Some (JObj o) =>
      pmap (fun '(f, l) => mkEpic f l)
        (both (FieldsSchema "Epic" o)
              (under (Key "tasks") (zDefault [] (zArray TaskSchema) (prop "tasks" o))))
  | _ => invalidType "object" j
  end.

(** [z.literal(1)] *)
Definition zLiteral1 (j : option json) : ParseResult Z :=
  match j with
  | Some (JNum n d) => if (n =? Z.pos d)%Z then Ok 1%Z else issue "Invalid literal value, expected 1"
  | _ => issue "Invalid literal value, expected 1"
  end.

(** [StateSchema = z.object({version: z.literal(1), epics: ...})]: the shape
    has no key [tasks], so the parsed state has none. *)
Definition StateSchema (j : option json) : ParseResult State :=
  match j with
  | Some (JObj o) =>
      pmap (fun '(v, es) => mkState v es None)
        (both (under (Key "version") (zLiteral1 (prop "version" o)))
              (under (Key "epics") (zDefault [] (zArray EpicSchema) (prop "epics" o))))
  | _ => invalidType "object" j
  end.

(** ** validateState (validation.ts) *)

Inductive ValidationResult :=
  | Valid (state : State)
  | Invalid (errors : list string).

Definition segString (s : PathSeg) : string :=
  match s with
  | Key k => k
  | Index i => pretty i
  end.

(** [issue.path.join('.')] *)
Fixpoint joinDot (l : list string) : string :=
  match l with
  | [] => EmptyString
  | [x] => x
  | x :: l' => x ++ "." ++ joinDot l'
  end.

Definition issueString (i : ZodIssue) : string :=
  (match path i with
   | [] => "(root)"
   | p => joinDot (map segString p)
   end) ++ ": " ++ message i.

Definition validateState (raw : json) : ValidationResult :=
  match StateSchema (Some raw) with
  | Ok s => Valid s
  | Issues l => Invalid (map issueString l)
  end.

(** ** flattenState (queries.ts) *)

Record FlatItem := mkFlatItem {
  type : ItemType;
  flat : Fields;
  epicId : option string;
  epicContent : option string;
  taskId : option string;
  taskContent : option string;
  depth : Z;
  hasChildren : bool;
  childrenCount : nat;
  completedChildrenCount : nat;
  isStandalone : option bool
}.

Definition flattenEpic (e : Epic) : FlatItem :=
  let epicTasksCount := length (tasks e) in
  let epicCompletedTasks := length (List.filter isCompleted (tasks e)) in
  {| type := epic;
     flat := fields e;
     epicId := None; epicContent := None; taskId := None; taskContent := None;
     depth := 0;
     hasChildren := (0 <? epicTasksCount)%nat;
     childrenCount := epicTasksCount;
     completedChildrenCount := epicCompletedTasks;
     isStandalone := None |}.

(** [e] is the parent epic, [None] for a standalone task ([epic === null]). *)
Definition flattenTask (e : option Epic) (t : Task) : FlatItem :=
  let taskSubtasksCount := length (subtasks t) in
  let taskCompletedSubtasks := length (List.filter isCompleted (subtasks t)) in
  {| type := task;
     flat := fields t;
     epicId := (fun x => id (fields x)) <$> e;
     epicContent := (fun x => content (fields x)) <$> e;
     taskId := None; taskContent := None;
     depth := match e with None => 0 | Some _ => 1 end;
     hasChildren := (0 <? taskSubtasksCount)%nat;
     childrenCount := taskSubtasksCount;
     completedChildrenCount := taskCompletedSubtasks;
     isStandalone := Some (match e with None => true | Some _ => false end) |}.

Definition flattenSubtask (e : option Epic) (t : Task) (s : Subtask) : FlatItem :=
  {| type := subtask;
     flat := fields s;
     epicId := (fun x => id (fields x)) <$> e;
     epicContent := (fun x => content (fields x)) <$> e;
     taskId := Some (id (fields t));
     taskContent := Some (content (fields t));
     depth := match e with None => 1 | Some _ => 2 end;
     hasChildren := false;
     childrenCount := 0;
     completedChildrenCount := 0;
     isStandalone := Some (match e with None => true | Some _ => false end) |}.

(** The items a task pushes: itself, then its subtasks in array order. *)
Definition flattenTaskTree (e : option Epic) (t : Task) : list FlatItem :=
  flattenTask e t :: map (flattenSubtask e t) (subtasks t).

Definition flattenEpicTree (e : Epic) : list FlatItem :=
  flattenEpic e :: concat (map (flattenTaskTree (Some e)) (tasks e)).

Definition flattenState (s : State) : list FlatItem :=
  concat (map flattenEpicTree (epics s))
  ++ concat (map (flattenTaskTree None) (default [] (standalone s))).

(** ** getNext (queries.ts) *)

Inductive Level := LEpic | LTask | LSubtask | LAny.

#[global] Instance Level_eq_dec : EqDecision Level.
Proof. solve_decision. Defined.

Record GetNextResult := mkGetNextResult {
  item : option FlatItem;
  queueDepth : nat;
  blockedByDeps : nat
}.

(** [allItems.find((i) => i.id === depId)] *)
Definition findFlat (depId : string) (allItems : list FlatItem) : option FlatItem :=
  List.find (fun i => String.eqb (id (flat i)) depId) allItems.

Definition areDepsComplete (it : FlatItem) (allItems : list FlatItem) : bool :=
  match deps (flat it) with
  | None => true
  | Some ds =>
      if (length ds =? 0)%nat then true
      else forallb (fun depId =>
             match findFlat depId allItems with
             | Some dep => bool_decide (status (flat dep) = completed)
             | None => false
             end) ds
  end.

(** [item.type === level], for a level other than ['any']. *)
Definition typeIsLevel (t : ItemType) (level : Level) : bool :=
  match t, level with
  | epic, LEpic | task, LTask | subtask, LSubtask => true
  | _, _ => false
  end.

(** [Array.prototype.sort(compare)]: a stable sort; [compare a b] is
    negative when [a] goes first.  [insertSorted] puts [x], which came
    before every element of [l], in front of the first element that does
    not go strictly before it. *)
Fixpoint insertSorted {A} (compare : A -> A -> Z) (x : A) (l : list A) : list A :=
  match l with
  | [] => [x]
  | y :: l' =>
      if (0 <? compare x y)%Z then y :: insertSorted compare x l'
      else x :: y :: l'
  end.

Fixpoint sort {A} (compare : A -> A -> Z) (l : list A) : list A :=
  match l with
  | [] => []
  | x :: l' => insertSorted compare x (sort compare l')
  end.

(** The comparator of getNext. *)
Definition compareNext (level : Level) (a b : FlatItem) : Z :=
  if negb (priority (flat a) =? priority (flat b))%Z
  then (priority (flat a) - priority (flat b))%Z
  else if bool_decide (level = LAny) then (depth b - depth a)%Z else 0%Z.

Definition isActionable (it : FlatItem) : bool :=
  bool_decide (status (flat it) = pending) || bool_decide (status (flat it) = in_progress).

(** [level] is [args.level]; an absent level is ['any']. *)
Definition getNext (state : State) (level_arg : option Level) : GetNextResult :=
  let level := default LAny level_arg in
  let flat := flattenState state in
  let actionable := List.filter isActionable flat in
  let filtered :=
    if bool_decide (level = LAny) then actionable
    else List.filter (fun it => typeIsLevel (type it) level) actionable in
  let ready := List.filter (fun it => areDepsComplete it flat) filtered in
  let blockedByDeps := (length filtered - length ready)%nat in
  let sorted := sort (compareNext level) ready in
  {| item := head sorted; queueDepth := length ready; blockedByDeps := blockedByDeps |}.

(** ** Operations (operations.ts) *)

Inductive OperationResult (A : Type) :=
  | Success (data : A)
  | Failure (error : string).
Arguments Success {A} data.
Arguments Failure {A} error.

Record UpdateItemInput := mkInput {
  in_content : option string;
  in_priority : option Z;
  in_status : option Status;
  in_implementation_description : option string;
  in_notes : option (list string);
  in_deps : option (list string)
}.

(** The input [{ status: 'completed' }]. *)
Definition completedInput : UpdateItemInput :=
  mkInput None None (Some completed) None None None.

(** A computation that may read the clock: from the number of reads so far
    to the result and the number of reads after it. *)
Definition M (A : Type) : Type := nat -> A * nat.

Definition ret {A} (a : A) : M A := fun n => (a, n).

Definition bindM {A B} (c : M A) (k : A -> M B) : M B :=
  fun n => let '(a, n') := c n in k a n'.

Notation "'let!' x ':=' c 'in' k" := (bindM c (fun x => k))
  (at level 10, x name, c at level 200, k at level 200, only parsing).

(** [array.findIndex(p)]; [None] is -1. *)
Fixpoint findIndex {A} (p : A -> bool) (l : list A) : option nat :=
  match l with
  | [] => None
  | x :: l' => if p x then Some 0%nat else S <$> findIndex p l'
  end.

Definition hasId {T} `{Entity T} (i : string) (x : T) : bool :=
  String.eqb (id (fields x)) i.

Record EpicLookup := mkEpicLookup { el_epic : Epic; el_index : nat }.

Record TaskLookup := mkTaskLookup {
  tl_epic : Epic; tl_epicIndex : nat; tl_task : Task; tl_taskIndex : nat
}.

Record SubtaskLookup := mkSubtaskLookup {
  sl_task : TaskLookup; sl_subtask : Subtask; sl_subtaskIndex : nat
}.

Record StandaloneTaskLookup := mkStandaloneTaskLookup { stl_task : Task; stl_index : nat }.

Definition findEpic (state : State) (epicId : string) : option EpicLookup :=
  index ← findIndex (hasId epicId) (epics state);
  e ← epics state !! index;
  Some (mkEpicLookup e index).

Definition findTask (state : State) (epicId taskId : string) : option TaskLookup :=
  epicLookup ← findEpic state epicId;
  taskIndex ← findIndex (hasId taskId) (tasks (el_epic epicLookup));
  t ← tasks (el_epic epicLookup) !! taskIndex;
  Some (mkTaskLookup (el_epic epicLookup) (el_index epicLookup) t taskIndex).

Definition findSubtask (state : State) (epicId taskId subtaskId : string)
  : option SubtaskLookup :=
  taskLookup ← findTask state epicId taskId;
  subtaskIndex ← findIndex (hasId subtaskId) (subtasks (tl_task taskLookup));
  s ← subtasks (tl_task taskLookup) !! subtaskIndex;
  Some (mkSubtaskLookup taskLookup s subtaskIndex).

Definition findStandaloneTask (state : State) (taskId : string)
  : option StandaloneTaskLookup :=
  let tasks := default [] (standalone state) in
  index ← findIndex (hasId taskId) tasks;
  t ← tasks !! index;
  Some (mkStandaloneTaskLookup t index).

(** [{...f, updated_at: now}] *)
Definition setUpdatedAt (f : Fields) (now : string) : Fields :=
  mkFields (id f) (content f) (priority f) (status f) (created_at f) (Some now)
    (completed_at f) (implementation_description f) (notes f) (deps f).

(** In the four helpers below the index comes from a lookup in the same
    array, so the assignment [copy[index] = x] is always in range. *)
Definition updateStandaloneTaskInState (state : State) (index : nat) (t : Task) : State :=
  let newTasks := <[index := t]> (default [] (standalone state)) in
  mkState (version state) (epics state) (Some newTasks).

Definition updateEpicInState (state : State) (index : nat) (e : Epic) : State :=
  let newEpics := <[index := e]> (epics state) in
  mkState (version state) newEpics (standalone state).

Definition updateTaskInEpic (e : Epic) (taskIndex : nat) (t : Task) (now : string) : Epic :=
  let updatedTasks := <[taskIndex := t]> (tasks e) in
  mkEpic (setUpdatedAt (fields e) now) updatedTasks.

Definition updateSubtaskInTask (t : Task) (subtaskIndex : nat) (s : Subtask) (now : string)
  : Task :=
  let updatedSubtasks := <[subtaskIndex := s]> (subtasks t) in
  mkTask (setUpdatedAt (fields t) now) updatedSubtasks.

(** The attributes of [applyUpdate]'s result: each key of the input that is
    present replaces the item's, [updated_at] is [now], and [completed_at]
    is [now] when the input's status is ['completed']. *)
Definition applyUpdateFields (f : Fields) (input : UpdateItemInput) (now : string) : Fields :=
  {| id := id f;
     content := default (content f) (in_content input);
     priority := default (priority f) (in_priority input);
     status := default (status f) (in_status input);
     created_at := created_at f;
     updated_at := Some now;
     completed_at :=
       if bool_decide (in_status input = Some completed) then Some now else completed_at f;
     implementation_description :=
       match in_implementation_description input with
       | Some d => Some d
       | None => implementation_description f
       end;
     notes := match in_notes input with Some n => Some n | None => notes f end;
     deps := match in_deps input with Some d => Some d | None => deps f end |}.

Definition applyUpdate {T} `{Entity T} (x : T) (input : UpdateItemInput) (now : string) : T :=
  with_fields x (applyUpdateFields (fields x) input now).

Definition createEmptyState : State := mkState 1 [] (Some []).

Section Operations.

(** [clock n] is what the [n]-th call of [timestamp()] returns. *)
Variable clock : nat -> string.

Definition timestamp : M string := fun n => (clock n, S n).

Definition updateEpic (state : State) (epicId : string) (input : UpdateItemInput)
  : M (OperationResult State) :=
  match findEpic state epicId with
  | None => ret (Failure ("Epic not found: " ++ epicId))
  | Some lookup =>
      let! now := timestamp in
      let updatedEpic := applyUpdate (el_epic lookup) input now in
      ret (Success (updateEpicInState state (el_index lookup) updatedEpic))
  end.

Definition updateTask (state : State) (epicId taskId : string) (input : UpdateItemInput)
  : M (OperationResult State) :=
  match findTask state epicId taskId with
  | None => ret (Failure ("Task not found: " ++ taskId))
  | Some lookup =>
      let! now := timestamp in
      let updatedTask := applyUpdate (tl_task lookup) input now in
      let updatedEpic := updateTaskInEpic (tl_epic lookup) (tl_taskIndex lookup) updatedTask now in
      ret (Success (updateEpicInState state (tl_epicIndex lookup) updatedEpic))
  end.

Definition updateSubtask (state : State) (epicId taskId subtaskId : string)
  (input : UpdateItemInput) : M (OperationResult State) :=
  match findSubtask state epicId taskId subtaskId with
  | None => ret (Failure ("Subtask not found: " ++ subtaskId))
  | Some lookup =>
      let! now := timestamp in
      let tl := sl_task lookup in
      let updatedSubtask := applyUpdate (sl_subtask lookup) input now in
      let updatedTask :=
        updateSubtaskInTask (tl_task tl) (sl_subtaskIndex lookup) updatedSubtask now in
      let updatedEpic := updateTaskInEpic (tl_epic tl) (tl_taskIndex tl) updatedTask now in
      ret (Success (updateEpicInState state (tl_epicIndex tl) updatedEpic))
  end.

Definition updateStandaloneTask (state : State) (taskId : string) (input : UpdateItemInput)
  : M (OperationResult State) :=
  match findStandaloneTask state taskId with
  | None => ret (Failure ("Standalone task not found: " ++ taskId))
  | Some lookup =>
      let! now := timestamp in
      let updatedTask := applyUpdate (stl_task lookup) input now in
      ret (Success (updateStandaloneTaskInState state (stl_index lookup) updatedTask))
  end.

(** The subtask update of a standalone task; updateStandaloneSubtask and
    completeStandaloneSubtaskAndCascade both start with it.  The element at
    [subtaskIndex] exists because [findIndex] found it. *)
Definition standaloneSubtaskUpdate (state : State) (taskId subtaskId : string)
  (input : UpdateItemInput) : M (OperationResult State) :=
  match findStandaloneTask state taskId with
  | None => ret (Failure ("Standalone task not found: " ++ taskId))
  | Some lookup =>
      match findIndex (hasId subtaskId) (subtasks (stl_task lookup)) with
      | None => ret (Failure ("Subtask not found: " ++ subtaskId))
      | Some subtaskIndex =>
          match subtasks (stl_task lookup) !! subtaskIndex with
          | None => ret (Failure ("Subtask not found: " ++ subtaskId))
          | Some s =>
              let! now := timestamp in
              let updatedSubtask := applyUpdate s input now in
              let updatedSubtasks := <[subtaskIndex := updatedSubtask]> (subtasks (stl_task lookup)) in
              let updatedTask := mkTask (setUpdatedAt (fields (stl_task lookup)) now) updatedSubtasks in
              ret (Success (updateStandaloneTaskInState state (stl_index lookup) updatedTask))
          end
      end
  end.

Definition updateStandaloneSubtask (state : State) (taskId subtaskId : string)
  (input : UpdateItemInput) : M (OperationResult State) :=
  standaloneSubtaskUpdate state taskId subtaskId input.

(** *** markComplete *)

Definition markEpicComplete (state : State) (epicId : string) : M (OperationResult State) :=
  updateEpic state epicId completedInput.

Definition maybeCompleteEpic (state : State) (epicId : string) : M (OperationResult State) :=
  match List.find (hasId epicId) (epics state) with
  | None => ret (Success state)
  | Some e =>
      if (length (tasks e) =? 0)%nat then ret (Success state)
      else
        let allComplete := forallb isCompleted (tasks e) in
        if negb allComplete then ret (Success state)
        else updateEpic state epicId completedInput
  end.

Definition maybeCompleteTaskAndEpic (state : State) (epicId taskId : string)
  : M (OperationResult State) :=
  let e := List.find (hasId epicId) (epics state) in
  let t := e ≫= (fun e => List.find (hasId taskId) (tasks e)) in
  match t with
  | None => ret (Success state)
  | Some t =>
      if (length (subtasks t) =? 0)%nat then ret (Success state)
      else
        let allComplete := forallb isCompleted (subtasks t) in
        if negb allComplete || isCompleted t then ret (Success state)
        else
          let! result := updateTask state epicId taskId completedInput in
          match result with
          | Failure err => ret (Failure err)
          | Success data => maybeCompleteEpic data epicId
          end
  end.

Definition completeTaskAndCascade (state : State) (epicId taskId : string)
  : M (OperationResult State) :=
  let! result := updateTask state epicId taskId completedInput in
  match result with
  | Failure err => ret (Failure err)
  | Success data => maybeCompleteEpic data epicId
  end.

Definition completeSubtaskAndCascade (state : State) (epicId taskId subtaskId : string)
  : M (OperationResult State) :=
  let! result := updateSubtask state epicId taskId subtaskId completedInput in
  match result with
  | Failure err => ret (Failure err)
  | Success data => maybeCompleteTaskAndEpic data epicId taskId
  end.

(** A search that returns [None] ([null]) found nothing and read no clock. *)
Definition findAndCompleteSubtask (state : State) (e : Epic) (t : Task) (i : string)
  : M (option (OperationResult State)) :=
  match List.find (hasId i) (subtasks t) with
  | None => ret None
  | Some _ =>
      let! r := completeSubtaskAndCascade state (id (fields e)) (id (fields t)) i in
      ret (Some r)
  end.

(** The loop [for (const task of epic.tasks)] of findAndCompleteTask, on
    the tasks still to visit. *)
Fixpoint findAndCompleteTaskFrom (state : State) (e : Epic) (i : string) (ts : list Task)
  : M (option (OperationResult State)) :=
  match ts with
  | [] => ret None
  | t :: ts' =>
      if hasId i t then
        let! r := completeTaskAndCascade state (id (fields e)) i in
        ret (Some r)
      else
        let! subtaskResult := findAndCompleteSubtask state e t i in
        match subtaskResult with
        | Some r => ret (Some r)
        | None => findAndCompleteTaskFrom state e i ts'
        end
  end.

Definition findAndCompleteTask (state : State) (e : Epic) (i : string)
  : M (option (OperationResult State)) :=
  findAndCompleteTaskFrom state e i (tasks e).

Definition completeStandaloneTask (state : State) (taskId : string)
  : M (OperationResult State) :=
  updateStandaloneTask state taskId completedInput.

Definition maybeCompleteStandaloneTask (state : State) (taskId : string)
  : M (OperationResult State) :=
  match List.find (hasId taskId) (default [] (standalone state)) with
  | None => ret (Success state)
  | Some t =>
      if (length (subtasks t) =? 0)%nat then ret (Success state)
      else
        let allComplete := forallb isCompleted (subtasks t) in
        if negb allComplete || isCompleted t then ret (Success state)
        else updateStandaloneTask state taskId completedInput
  end.

Definition completeStandaloneSubtaskAndCascade (state : State) (taskId subtaskId : string)
  : M (OperationResult State) :=
  let! result := standaloneSubtaskUpdate state taskId subtaskId completedInput in
  match result with
  | Failure err => ret (Failure err)
  | Success newState => maybeCompleteStandaloneTask newState taskId
  end.

Definition findAndCompleteStandaloneSubtask (state : State) (t : Task) (i : string)
  : M (option (OperationResult State)) :=
  match List.find (hasId i) (subtasks t) with
  | None => ret None
  | Some _ =>
      let! r := completeStandaloneSubtaskAndCascade state (id (fields t)) i in
      ret (Some r)
  end.

(** The loop over the standalone tasks of markComplete. *)
Fixpoint markCompleteStandaloneFrom (state : State) (i : string) (ts : list Task)
  : M (OperationResult State) :=
  match ts with
  | [] => ret (Failure ("Item not found: " ++ i))
  | t :: ts' =>
      if hasId i t then completeStandaloneTask state i
      else
        let! subtaskResult := findAndCompleteStandaloneSubtask state t i in
        match subtaskResult with
        | Some r => ret r
        | None => markCompleteStandaloneFrom state i ts'
        end
  end.

(** The loop over the epics of markComplete; when it ends, the standalone
    tasks are searched. *)
Fixpoint markCompleteFrom (state : State) (i : string) (es : list Epic)
  : M (OperationResult State) :=
  match es with
  | [] => markCompleteStandaloneFrom state i (default [] (standalone state))
  | e :: es' =>
      if hasId i e then markEpicComplete state i
      else
        let! taskResult := findAndCompleteTask state e i in
        match taskResult with
        | Some r => ret r
        | None => markCompleteFrom state i es'
        end
  end.

Definition markComplete (state : State) (i : string) : M (OperationResult State) :=
  markCompleteFrom state i (epics state).

(** *** removeItem

    [copy.splice(i, 1)] is [delete i copy]. *)

Definition removeEpic (state : State) (epicIndex : nat) : M (OperationResult State) :=
  let newEpics := delete epicIndex (epics state) in
  ret (Success (mkState (version state) newEpics (standalone state))).

Definition removeTask (state : State) (epicIndex : nat) (e : Epic) (taskIndex : nat)
  : M (OperationResult State) :=
  let newTasks := delete taskIndex (tasks e) in
  let! now := timestamp in
  let updatedEpic := mkEpic (setUpdatedAt (fields e) now) newTasks in
  ret (Success (updateEpicInState state epicIndex updatedEpic)).

Definition removeSubtask (state : State) (epicIndex : nat) (e : Epic) (taskIndex : nat)
  (t : Task) (subtaskIndex : nat) : M (OperationResult State) :=
  let! now := timestamp in
  let newSubtasks := delete subtaskIndex (subtasks t) in
  let updatedTask := mkTask (setUpdatedAt (fields t) now) newSubtasks in
  let updatedEpic := updateTaskInEpic e taskIndex updatedTask now in
  ret (Success (updateEpicInState state epicIndex updatedEpic)).

Definition findAndRemoveSubtask (state : State) (epicIndex : nat) (e : Epic)
  (taskIndex : nat) (t : Task) (i : string) : M (option (OperationResult State)) :=
  match findIndex (hasId i) (subtasks t) with
  | None => ret None
  | Some subtaskIndex =>
      let! r := removeSubtask state epicIndex e taskIndex t subtaskIndex in
      ret (Some r)
  end.

(** The loop [for (let i = 0; i < epic.tasks.length; i++)] of
    findAndRemoveTask, from index [k] on: [ts] is [epic.tasks.slice(k)]. *)
Fixpoint findAndRemoveTaskFrom (state : State) (e : Epic) (epicIndex : nat) (i : string)
  (k : nat) (ts : list Task) : M (option (OperationResult State)) :=
  match ts with
  | [] => ret None
  | t :: ts' =>
      if hasId i t then
        let! r := removeTask state epicIndex e k in
        ret (Some r)
      else
        let! subtaskResult := findAndRemoveSubtask state epicIndex e k t i in
        match subtaskResult with
        | Some r => ret (Some r)
        | None => findAndRemoveTaskFrom state e epicIndex i (S k) ts'
        end
  end.

Definition findAndRemoveTask (state : State) (e : Epic) (epicIndex : nat) (i : string)
  : M (option (OperationResult State)) :=
  findAndRemoveTaskFrom state e epicIndex i 0 (tasks e).

Definition removeStandaloneTask (state : State) (taskIndex : nat) : M (OperationResult State) :=
  let newTasks := delete taskIndex (default [] (standalone state)) in
  ret (Success (mkState (version state) (epics state) (Some newTasks))).

Definition removeStandaloneSubtask (state : State) (taskIndex : nat) (t : Task)
  (subtaskIndex : nat) : M (OperationResult State) :=
  let! now := timestamp in
  let newSubtasks := delete subtaskIndex (subtasks t) in
  let updatedTask := mkTask (setUpdatedAt (fields t) now) newSubtasks in
  ret (Success (updateStandaloneTaskInState state taskIndex updatedTask)).

Definition findAndRemoveStandaloneSubtask (state : State) (taskIndex : nat) (t : Task)
  (i : string) : M (option (OperationResult State)) :=
  match findIndex (hasId i) (subtasks t) with
  | None => ret None
  | Some subtaskIndex =>
      let! r := removeStandaloneSubtask state taskIndex t subtaskIndex in
      ret (Some r)
  end.

Fixpoint removeItemStandaloneFrom (state : State) (i : string) (k : nat) (ts : list Task)
  : M (OperationResult State) :=
  match ts with
  | [] => ret (Failure ("Item not found: " ++ i))
  | t :: ts' =>
      if hasId i t then removeStandaloneTask state k
      else
        let! subtaskResult := findAndRemoveStandaloneSubtask state k t i in
        match subtaskResult with
        | Some r => ret r
        | None => removeItemStandaloneFrom state i (S k) ts'
        end
  end.

(** The loop over the epics of removeItem, from index [k] on. *)
Fixpoint removeItemFrom (state : State) (i : string) (k : nat) (es : list Epic)
  : M (OperationResult State) :=
  match es with
  | [] => removeItemStandaloneFrom state i 0 (default [] (standalone state))
  | e :: es' =>
      if hasId i e then removeEpic state k
      else
        let! taskResult := findAndRemoveTask state e k i in
        match taskResult with
        | Some r => ret r
        | None => removeItemFrom state i (S k) es'
        end
  end.

Definition removeItem (state : State) (i : string) : M (OperationResult State) :=
  removeItemFrom state i 0 (epics state).

End Operations.

(** ** lintState (validation.ts) *)

Record LintResult := mkLintResult {
  warnings : list string;
  suggestions : list string
}.

(** The double quote of the messages. *)
Definition dq : string := String (ascii_of_nat 34) EmptyString.

(** [s.slice(0, n)] *)
Definition slice0 (n : nat) (s : string) : string := substring 0 n s.

(** [array.filter(p).length]'s decimal rendering in a template string. *)
Definition countString (n : nat) : string := pretty n.

Definition checkEpicCompletion (e : Epic) : option string :=
  if negb (isCompleted e) then None
  else
    let incompleteTasks := List.filter (fun t => negb (isCompleted t)) (tasks e) in
    if (length incompleteTasks =? 0)%nat then None
    else Some ("Epic " +:+ dq +:+ slice0 30 (content (fields e)) +:+ "..." +:+ dq +:+ " is completed but has "
               +:+ countString (length incompleteTasks) +:+ " incomplete task(s)").

Definition checkTaskCompletion (t : Task) : option string :=
  if negb (isCompleted t) then None
  else
    let incompleteSubtasks := List.filter (fun s => negb (isCompleted s)) (subtasks t) in
    if (length incompleteSubtasks =? 0)%nat then None
    else Some ("Task " +:+ dq +:+ slice0 30 (content (fields t)) +:+ "..." +:+ dq +:+ " is completed but has "
               +:+ countString (length incompleteSubtasks) +:+ " incomplete subtask(s)").

Definition suggestTaskCompletion (t : Task) : option string :=
  if isCompleted t || (length (subtasks t) =? 0)%nat then None
  else
    let allComplete := forallb isCompleted (subtasks t) in
    if negb allComplete then None
    else Some ("Task " +:+ dq +:+ slice0 30 (content (fields t))
               +:+ "..." +:+ dq +:+ " has all subtasks complete - consider marking it complete").

Definition suggestEpicCompletion (e : Epic) : option string :=
  if isCompleted e || (length (tasks e) =? 0)%nat then None
  else
    let allComplete := forallb isCompleted (tasks e) in
    if negb allComplete then None
    else Some ("Epic " +:+ dq +:+ slice0 30 (content (fields e))
               +:+ "..." +:+ dq +:+ " has all tasks complete - consider marking it complete").

(** The loop [for (const depId of item.deps)] that checkEpicDeps,
    checkTaskDeps and checkSubtaskDeps share: [self] and [invalid] build
    the two messages. *)
Definition checkDeps (f : Fields) (scopeIds : gset string)
  (self : string) (invalid : string -> string) : list string :=
  match deps f with
  | None => []
  | Some ds =>
      concat (map (fun depId =>
                if String.eqb depId (id f) then [self]
                else if bool_decide (depId ∉ scopeIds) then [invalid depId]
                else []) ds)
  end.

Definition checkEpicDeps (e : Epic) (allEpicIds : gset string) : list string :=
  let c := slice0 20 (content (fields e)) in
  checkDeps (fields e) allEpicIds
    ("Epic " +:+ dq +:+ c +:+ "..." +:+ dq +:+ " depends on itself")
    (fun depId => "Epic " +:+ dq +:+ c +:+ "..." +:+ dq +:+ " has invalid dep: " +:+ depId).

Definition checkTaskDeps (t : Task) (epicTaskIds : gset string) (epicContent : string)
  : list string :=
  let c := slice0 20 (content (fields t)) in
  checkDeps (fields t) epicTaskIds
    ("Task " +:+ dq +:+ c +:+ "..." +:+ dq +:+ " depends on itself")
    (fun depId => "Task " +:+ dq +:+ c +:+ "..." +:+ dq +:+ " in " +:+ dq +:+ slice0 15 epicContent
                  +:+ "..." +:+ dq +:+ " has invalid dep: " +:+ depId).

Definition checkSubtaskDeps (s : Subtask) (taskSubtaskIds : gset string) (taskContent : string)
  : list string :=
  let c := slice0 20 (content (fields s)) in
  checkDeps (fields s) taskSubtaskIds
    ("Subtask " +:+ dq +:+ c +:+ "..." +:+ dq +:+ " depends on itself")
    (fun depId => "Subtask " +:+ dq +:+ c +:+ "..." +:+ dq +:+ " in " +:+ dq +:+ slice0 15 taskContent
                  +:+ "..." +:+ dq +:+ " has invalid dep: " +:+ depId).

(** detectCycle mutates the set [visited] it is given, so the set is
    threaded: the result is the answer and the set as the call leaves it.

    [visitDeps] is the loop [for (const depId of deps)] of detectCycle
    followed by [visited.delete(id); return false]; [recur] is the
    recursive call. *)
Definition visitDeps (recur : string -> list string -> gset string -> option (bool * gset string))
  (depsMap : gmap string (list string)) (i : string)
  : list string -> gset string -> option (bool * gset string) :=
  fix loop (ds : list string) (visited : gset string) :=
    match ds with
    | [] => Some (false, visited ∖ {[i]})
    | depId :: ds' =>
        let depDeps := default [] (depsMap !! depId) in
        match recur depId depDeps visited with
        | None => None
        | Some (true, visited') => Some (true, visited')
        | Some (false, visited') => loop ds' visited'
        end
    end.

(** [fuel] bounds the depth of the recursion; [None] is a call that ran out
    of it. *)
Fixpoint detectCycle (fuel : nat) (i : string) (ds : list string)
  (depsMap : gmap string (list string)) (visited : gset string)
  : option (bool * gset string) :=
  match fuel with
  | O => None
  | S fuel' =>
      if bool_decide (i ∈ visited) then Some (true, visited)
      else visitDeps (fun d dd v => detectCycle fuel' d dd depsMap v) depsMap i ds
             ({[i]} ∪ visited)
  end.

(** [for (const item of items) depsMap.set(item.id, item.deps ?? [])] *)
Definition setDeps {T} `{Entity T} (m : gmap string (list string)) (x : T)
  : gmap string (list string) :=
  <[id (fields x) := default [] (deps (fields x))]> m.

Definition buildDepsMap {T} `{Entity T} (items : list T) : gmap string (list string) :=
  foldl setDeps ∅ items.

Definition cycleWarning {T} `{Entity T} (typeLabel : string) (x : T) : string :=
  typeLabel +:+ " " +:+ dq +:+ slice0 20 (content (fields x)) +:+ "..." +:+ dq +:+ " has circular dependency".

(** The recursion of detectCycle is never deeper than the number of items
    plus one, the fuel given here. *)
Definition checkCycles {T} `{Entity T} (items : list T) (typeLabel : string) : list string :=
  let depsMap := buildDepsMap items in
  concat (map (fun x =>
    match deps (fields x) with
    | None => []
    | Some ds =>
        if (length ds =? 0)%nat then []
        else match detectCycle (S (length items)) (id (fields x)) ds depsMap ∅ with
             | Some (true, _) => [cycleWarning typeLabel x]
             | _ => []
             end
    end) items).

Definition idSet {T} `{Entity T} (items : list T) : gset string :=
  list_to_set (map (fun x => id (fields x)) items).

(** What one task adds to the warnings and to the suggestions of lintEpic. *)
Definition lintTask (e : Epic) (taskIds : gset string) (t : Task) : LintResult :=
  let subtaskIds := idSet (subtasks t) in
  {| warnings :=
       option_list (checkTaskCompletion t)
       ++ checkTaskDeps t taskIds (content (fields e))
       ++ concat (map (fun s => checkSubtaskDeps s subtaskIds (content (fields t))) (subtasks t))
       ++ checkCycles (subtasks t) "Subtask";
     suggestions := option_list (suggestTaskCompletion t) |}.

Definition lintEpic (e : Epic) : LintResult :=
  let taskIds := idSet (tasks e) in
  let perTask := map (lintTask e taskIds) (tasks e) in
  {| warnings :=
       option_list (checkEpicCompletion e)
       ++ concat (map warnings perTask)
       ++ checkCycles (tasks e) "Task";
     suggestions :=
       concat (map suggestions perTask) ++ option_list (suggestEpicCompletion e) |}.

Definition lintState (state : State) : LintResult :=
  let epicIds := idSet (epics state) in
  let perEpic :=
    map (fun e =>
      let result := lintEpic e in
      mkLintResult (checkEpicDeps e epicIds ++ warnings result) (suggestions result))
      (epics state) in
  {| warnings := concat (map warnings perEpic) ++ checkCycles (epics state) "Epic";
     suggestions := concat (map suggestions perEpic) |}.

(** ** Concrete documents and states used as inputs below *)

Definition str (s : string) : json := JStr s.

(** The keys every entity of a document needs. *)
Definition rawFields (i c : string) : list (string * json) :=
  [("id", str i); ("content", str c); ("priority", JNum 2 1);
   ("status", str "pending"); ("created_at", str "2024-01-01T00:00:00.000Z")].

(** [{version: 1, epics: [], tasks: [<one standalone task>]}] *)
Definition docStandalone : json :=
  JObj [("version", JNum 1 1);
        ("epics", JArr []);
        ("tasks", JArr [JObj (rawFields "t1" "Standalone task" ++ [("subtasks", JArr [])])])].

(** Two epics; the second lists the first in its [deps]. *)
Definition docDeps : json :=
  JObj [("version", JNum 1 1);
        ("epics", JArr [
           JObj (rawFields "e1" "First epic content" ++ [("tasks", JArr [])]);
           JObj (rawFields "e2" "Second epic content"
                 ++ [("deps", JArr [str "e1"]); ("tasks", JArr [])])])].

(** The number of entities a raw document holds: the elements of the
    arrays at the keys the data model gives them ([epics], [tasks] of an
    epic, [subtasks] of a task, and the top-level [tasks]). *)
Definition rawArray (k : string) (j : json) : list json :=
  match j with
  | JObj o => match prop k o with Some (JArr l) => l | _ => [] end
  | _ => []
  end.

Definition rawTaskCount (t : json) : nat := 1 + length (rawArray "subtasks" t).

Definition rawEpicCount (e : json) : nat :=
  1 + list_sum (map rawTaskCount (rawArray "tasks" e)).

Definition rawItemCount (raw : json) : nat :=
  list_sum (map rawEpicCount (rawArray "epics" raw))
  + list_sum (map rawTaskCount (rawArray "tasks" raw)).

(** The [deps] of the epic at index [i] of a raw document. *)
Definition rawEpicDeps (raw : json) (i : nat) : option json :=
  match rawArray "epics" raw !! i with
  | Some (JObj o) => prop "deps" o
  | _ => None
  end.

(** The number of items of each type in a flat list. *)
Definition countType (t : ItemType) (l : list FlatItem) : nat :=
  length (List.filter (fun it => bool_decide (type it = t)) l).

Definition taskTreeSize (t : Task) : nat := 1 + length (subtasks t).
Definition epicTreeSize (e : Epic) : nat := 1 + list_sum (map taskTreeSize (tasks e)).

(** ** The words of the specification about getNext *)

(** [Keep P l l']: [l'] holds the elements of [l] that satisfy [P], in the
    order of [l]. *)
Inductive Keep {A} (P : A -> Prop) : list A -> list A -> Prop :=
  | Keep_nil : Keep P [] []
  | Keep_yes x l l' : P x -> Keep P l l' -> Keep P (x :: l) (x :: l')
  | Keep_no x l l' : ~ P x -> Keep P l l' -> Keep P (x :: l) l'.

(** An id resolves to the first item, in document order, that carries it. *)
Definition resolvesTo (allItems : list FlatItem) (d : string) (dep : FlatItem) : Prop :=
  exists l1 l2, allItems = l1 ++ dep :: l2 /\ id (flat dep) = d /\
                Forall (fun x => id (flat x) <> d) l1.

Definition actionableP (it : FlatItem) : Prop :=
  status (flat it) = pending \/ status (flat it) = in_progress.

Definition levelP (level : option Level) (it : FlatItem) : Prop :=
  match level with
  | None | Some LAny => True
  | Some LEpic => type it = epic
  | Some LTask => type it = task
  | Some LSubtask => type it = subtask
  end.

(** Every id of the item's [deps] resolves to a completed item. *)
Definition depsSatisfiedP (allItems : list FlatItem) (it : FlatItem) : Prop :=
  forall ds d, deps (flat it) = Some ds -> In d ds ->
    exists dep, resolvesTo allItems d dep /\ status (flat dep) = completed.

Definition readyP (level : option Level) (allItems : list FlatItem) (it : FlatItem) : Prop :=
  actionableP it /\ levelP level it /\ depsSatisfiedP allItems it.

Definition blockedP (level : option Level) (allItems : list FlatItem) (it : FlatItem) : Prop :=
  actionableP it /\ levelP level it /\ ~ depsSatisfiedP allItems it.

(** [goesBefore level a b]: the order of the queue puts [a] strictly before
    [b]: a smaller priority number, or the same priority and, when no level
    is asked for, a greater depth. *)
Definition noLevel (level : option Level) : Prop := level = None \/ level = Some LAny.

Definition goesBefore (level : option Level) (a b : FlatItem) : Prop :=
  (priority (flat a) < priority (flat b))%Z \/
  (priority (flat a) = priority (flat b) /\ noLevel level /\ (depth b < depth a)%Z).

(** The level filter of getNext as one test: no level asked for, or an
    item of that level. *)
Definition isLevel (level : option Level) (it : FlatItem) : bool :=
  let lv := default LAny level in
  bool_decide (lv = LAny) || typeIsLevel (type it) lv.

(** ** The ids of a state, in document order *)

Definition taskIds (t : Task) : list string :=
  id (fields t) :: map (fun s : Subtask => id (fields s)) (subtasks t).

Definition epicIds (e : Epic) : list string :=
  id (fields e) :: concat (map taskIds (tasks e)).

Definition allIds (s : State) : list string :=
  concat (map epicIds (epics s)) ++ concat (map taskIds (default [] (standalone s))).

Arguments taskIds : simpl never.
Arguments epicIds : simpl never.

(** The invariant of the data model: no id occurs twice in a state. *)
Definition uniqueIds (s : State) : Prop := NoDup (allIds s).

(** The attributes of an item that markComplete has just completed at
    [now]. *)
Definition completedAt (f : Fields) (now : string) : Fields :=
  mkFields (id f) (content f) (priority f) completed (created_at f) (Some now) (Some now)
    (implementation_description f) (notes f) (deps f).

(** What an update with [input] at [now] does to the timestamps of an item
    whose attributes were [old] and are [new]. *)
Definition refreshed (old new : Fields) (input : UpdateItemInput) (now : string) : Prop :=
  updated_at new = Some now /\
  (in_status input = Some completed -> completed_at new = Some now) /\
  (in_status input <> Some completed -> completed_at new = completed_at old).

(** No element of [l] carries the id [i]. *)
Definition absent {T} `{Entity T} (i : string) (l : list T) : Prop :=
  Forall (fun y => id (fields y) <> i) l.

(** ** The update operations as one family *)

(** Which update operation is called, with the ids it is given. *)
Inductive UpdateOp :=
  | OpEpic (epicId : string)
  | OpTask (epicId taskId : string)
  | OpSubtask (epicId taskId subtaskId : string)
  | OpStandaloneTask (taskId : string)
  | OpStandaloneSubtask (taskId subtaskId : string).

Definition runUpdate (clock : nat -> string) (op : UpdateOp) (s : State)
  (input : UpdateItemInput) : M (OperationResult State) :=
  match op with
  | OpEpic e => updateEpic clock s e input
  | OpTask e t => updateTask clock s e t input
  | OpSubtask e t u => updateSubtask clock s e t u input
  | OpStandaloneTask t => updateStandaloneTask clock s t input
  | OpStandaloneSubtask t u => updateStandaloneSubtask clock s t u input
  end.

(** The attributes of the item that the ids of [op] address in [s]. *)
Definition itemOf (op : UpdateOp) (s : State) : option Fields :=
  match op with
  | OpEpic e => (fun l => fields (el_epic l)) <$> findEpic s e
  | OpTask e t => (fun l => fields (tl_task l)) <$> findTask s e t
  | OpSubtask e t u => (fun l => fields (sl_subtask l)) <$> findSubtask s e t u
  | OpStandaloneTask t => (fun l => fields (stl_task l)) <$> findStandaloneTask s t
  | OpStandaloneSubtask t u =>
      l ← findStandaloneTask s t;
      k ← findIndex (hasId u) (subtasks (stl_task l));
      fields <$> subtasks (stl_task l) !! k
  end.

(** [ItemAt s f]: some epic, task or subtask of [s], nested or standalone,
    has the attributes [f]. *)
Inductive ItemAt (s : State) : Fields -> Prop :=
  | ItemAt_epic l1 E l2 :
      epics s = l1 ++ E :: l2 -> ItemAt s (fields E)
  | ItemAt_task l1 E l2 t1 T t2 :
      epics s = l1 ++ E :: l2 -> tasks E = t1 ++ T :: t2 -> ItemAt s (fields T)
  | ItemAt_subtask l1 E l2 t1 T t2 u1 (X : Subtask) u2 :
      epics s = l1 ++ E :: l2 -> tasks E = t1 ++ T :: t2 ->
      subtasks T = u1 ++ X :: u2 -> ItemAt s (fields X)
  | ItemAt_standalone_task t1 T t2 :
      standalone s = Some (t1 ++ T :: t2) -> ItemAt s (fields T)
  | ItemAt_standalone_subtask t1 T t2 u1 (X : Subtask) u2 :
      standalone s = Some (t1 ++ T :: t2) -> subtasks T = u1 ++ X :: u2 ->
      ItemAt s (fields X).

(** ** Concrete states used as inputs below *)

(** The clock of the examples: the first calls of [timestamp()] return
    three successive instants. *)
Definition demoClock (n : nat) : string :=
  match n with
  | 0%nat => "2024-02-01T00:00:00.000Z"
  | 1%nat => "2024-02-01T00:00:01.000Z"
  | 2%nat => "2024-02-01T00:00:02.000Z"
  | _ => "2024-02-01T00:00:09.000Z"
  end.

Definition demoFields (i c : string) (st : Status) : Fields :=
  mkFields i c 2 st "2024-01-01T00:00:00.000Z" None None None None None.

(** Epic e1 with the one task t1 with the one subtask s1, all pending. *)
Definition subPending : Subtask := mkSubtask (demoFields "s1" "Subtask content" pending).
Definition taskPending : Task := mkTask (demoFields "t1" "Task content one" pending) [subPending].
Definition epicPending : Epic := mkEpic (demoFields "e1" "Epic content one" pending) [taskPending].
Definition statePending : State := mkState 1 [epicPending] (Some []).

(** The same tree where the task t1 is completed already (as updateTask
    with the status completed leaves it) and the epic is not. *)
Definition taskDone : Task :=
  mkTask (mkFields "t1" "Task content one" 2 completed "2024-01-01T00:00:00.000Z"
            (Some "2024-01-02T00:00:00.000Z") (Some "2024-01-02T00:00:00.000Z")
            None None None) [subPending].
Definition epicOfTaskDone : Epic :=
  mkEpic (demoFields "e1" "Epic content one" pending) [taskDone].
Definition stateTaskDone : State := mkState 1 [epicOfTaskDone] (Some []).

(** Epic e1 with the tasks t1 (one pending subtask s1) and t2 (pending). *)
Definition taskOther : Task := mkTask (demoFields "t2" "Task content two" pending) [].
Definition epicTwoTasks : Epic :=
  mkEpic (demoFields "e1" "Epic content one" pending) [taskPending; taskOther].
Definition stateTwoTasks : State := mkState 1 [epicTwoTasks] (Some []).

(** An epic that is completed already. *)
Definition epicDone : Epic :=
  mkEpic (mkFields "e1" "Epic content one" 2 completed "2024-01-01T00:00:00.000Z"
            (Some "2024-01-02T00:00:00.000Z") (Some "2024-01-02T00:00:00.000Z")
            None None None) [taskPending].
Definition stateEpicDone : State := mkState 1 [epicDone] (Some []).

(** The input [{ status: 'in_progress' }]: an item is moved away from
    completed. *)
Definition inputReopen : UpdateItemInput :=
  mkInput None None (Some in_progress) None None None.

(** ** The words of the specification about cycles *)

(** [Revisits depsMap stack i ds]: the depth-first traversal that enters
    the id [i], whose deps are [ds], while the ids of [stack] are on the
    active stack, comes to an id that is still on the active stack. *)
Inductive Revisits (depsMap : gmap string (list string))
  : gset string -> string -> list string -> Prop :=
  | Revisits_here stack i ds :
      i ∈ stack -> Revisits depsMap stack i ds
  | Revisits_below stack i ds d :
      i ∉ stack -> In d ds ->
      Revisits depsMap ({[i]} ∪ stack) d (default [] (depsMap !! d)) ->
      Revisits depsMap stack i ds.

(** Two epics whose deps name each other. *)
Definition epicCycleA : Epic :=
  mkEpic (mkFields "a1" "Epic A circular" 2 pending "2024-01-01T00:00:00.000Z"
            None None None None (Some ["b1"])) [].
Definition epicCycleB : Epic :=
  mkEpic (mkFields "b1" "Epic B circular" 2 pending "2024-01-01T00:00:00.000Z"
            None None None None (Some ["a1"])) [].
Definition stateCycle : State := mkState 1 [epicCycleA; epicCycleB] (Some []).

(** What a call of detectCycle owes its caller: an answer, and the set as
    it was when the answer is [false]. *)
Definition Restores (r : option (bool * gset string)) (visited : gset string) : Prop :=
  exists b v, r = Some (b, v) /\ (b = false -> v = visited).

(** The number of ids of the map that a traversal may still enter. *)
Definition room (depsMap : gmap string (list string)) (visited : gset string) : nat :=
  size (dom depsMap ∖ visited).

(** ** Add operations (operations.ts)

    The add operations read the clock and the id generator.  [World] counts
    the reads of each; [ids n] is what the [n]-th call of [generateId()]
    returns. *)

Record World := mkWorld { clockReads : nat; idReads : nat }.

Definition MW (A : Type) : Type := World -> A * World.

Definition retW {A} (a : A) : MW A := fun w => (a, w).

Definition bindW {A B} (c : MW A) (k : A -> MW B) : MW B :=
  fun w => let '(a, w') := c w in k a w'.

Notation "'let*' x ':=' c 'in' k" := (bindW c (fun x => k))
  (at level 10, x name, c at level 200, k at level 200, only parsing).

Record CreateEpicInput := mkCreateEpicInput {
  ce_content : string;
  ce_priority : Z;
  ce_notes : option (list string);
  ce_deps : option (list string)
}.

(** [epicId] is declared a string, but addTask tests [!input.epicId]:
    [None] is an absent key. *)
Record CreateTaskInput := mkCreateTaskInput {
  ct_content : string;
  ct_priority : Z;
  ct_epicId : option string;
  ct_notes : option (list string);
  ct_deps : option (list string)
}.

Record CreateSubtaskInput := mkCreateSubtaskInput {
  cs_content : string;
  cs_priority : Z;
  cs_epicId : string;
  cs_taskId : string;
  cs_notes : option (list string);
  cs_deps : option (list string)
}.

Record AddStandaloneSubtaskInput := mkAddStandaloneSubtaskInput {
  as_content : string;
  as_priority : Z;
  as_taskId : string;
  as_notes : option (list string);
  as_deps : option (list string)
}.

(** [!s] for an optional string: absent or empty. *)
Definition falsy (s : option string) : bool :=
  match s with
  | None => true
  | Some x => String.eqb x EmptyString
  end.

(** The attributes of a new item: pending, created at [now], never updated
    or completed. *)
Definition newFields (i c : string) (p : Z) (now : string)
  (n d : option (list string)) : Fields :=
  mkFields i c p pending now None None None n d.

Section AddOperations.

Variable clock : nat -> string.
Variable ids : nat -> string.

Definition timestampW : MW string :=
  fun w => (clock (clockReads w), mkWorld (S (clockReads w)) (idReads w)).

Definition generateId : MW string :=
  fun w => (ids (idReads w), mkWorld (clockReads w) (S (idReads w))).

Definition addEpic (state : State) (input : CreateEpicInput)
  : MW (OperationResult (State * Epic)) :=
  let* now := timestampW in
  let* i := generateId in
  let e := mkEpic (newFields i (ce_content input) (ce_priority input) now
                     (ce_notes input) (ce_deps input)) [] in
  let newState := mkState (version state) (epics state ++ [e]) (standalone state) in
  retW (Success (newState, e)).

Definition addTask (state : State) (input : CreateTaskInput)
  : MW (OperationResult (State * Task)) :=
  let* now := timestampW in
  let* i := generateId in
  let t := mkTask (newFields i (ct_content input) (ct_priority input) now
                     (ct_notes input) (ct_deps input)) [] in
  if falsy (ct_epicId input) then
    let newTasks := default [] (standalone state) ++ [t] in
    retW (Success (mkState (version state) (epics state) (Some newTasks), t))
  else
    let epicId := default EmptyString (ct_epicId input) in
    match findEpic state epicId with
    | None => retW (Failure ("Epic not found: " ++ epicId))
    | Some lookup =>
        let updatedEpic :=
          mkEpic (setUpdatedAt (fields (el_epic lookup)) now)
                 (tasks (el_epic lookup) ++ [t]) in
        retW (Success (updateEpicInState state (el_index lookup) updatedEpic, t))
    end.

Definition addSubtask (state : State) (input : CreateSubtaskInput)
  : MW (OperationResult (State * Subtask)) :=
  match findTask state (cs_epicId input) (cs_taskId input) with
  | None => retW (Failure ("Task not found: " ++ cs_taskId input))
  | Some lookup =>
      let* now := timestampW in
      let* i := generateId in
      let u := mkSubtask (newFields i (cs_content input) (cs_priority input) now
                            (cs_notes input) (cs_deps input)) in
      let updatedTask :=
        mkTask (setUpdatedAt (fields (tl_task lookup)) now)
               (subtasks (tl_task lookup) ++ [u]) in
      let updatedEpic :=
        updateTaskInEpic (tl_epic lookup) (tl_taskIndex lookup) updatedTask now in
      retW (Success (updateEpicInState state (tl_epicIndex lookup) updatedEpic, u))
  end.

Definition addStandaloneSubtask (state : State) (input : AddStandaloneSubtaskInput)
  : MW (OperationResult (State * Subtask)) :=
  match findStandaloneTask state (as_taskId input) with
  | None => retW (Failure ("Standalone task not found: " ++ as_taskId input))
  | Some lookup =>
      let* now := timestampW in
      let* i := generateId in
      let u := mkSubtask (newFields i (as_content input) (as_priority input) now
                            (as_notes input) (as_deps input)) in
      let updatedTask :=
        mkTask (setUpdatedAt (fields (stl_task lookup)) now)
               (subtasks (stl_task lookup) ++ [u]) in
      retW (Success (updateStandaloneTaskInState state (stl_index lookup) updatedTask, u))
  end.

End AddOperations.

(** ** The other queries (queries.ts) *)

Record ContextSummary := mkContextSummary {
  totalEpics : nat;
  completedEpics : nat;
  totalTasks : nat;
  completedTasks : nat;
  totalSubtasks : nat;
  completedSubtasks : nat;
  inProgressItems : list FlatItem;
  blockedItems : list FlatItem;
  nextItem : option FlatItem
}.

Definition hasType (t : ItemType) (it : FlatItem) : bool := bool_decide (type it = t).
Definition hasStatus (st : Status) (it : FlatItem) : bool :=
  bool_decide (status (flat it) = st).

Definition getContext (state : State) : ContextSummary :=
  let flat := flattenState state in
  let epics := List.filter (hasType epic) flat in
  let tasks := List.filter (hasType task) flat in
  let subtasks := List.filter (hasType subtask) flat in
  {| totalEpics := length epics;
     completedEpics := length (List.filter (hasStatus completed) epics);
     totalTasks := length tasks;
     completedTasks := length (List.filter (hasStatus completed) tasks);
     totalSubtasks := length subtasks;
     completedSubtasks := length (List.filter (hasStatus completed) subtasks);
     inProgressItems := List.filter (hasStatus in_progress) flat;
     blockedItems := List.filter (hasStatus blocked) flat;
     nextItem := item (getNext state None) |}.

(** A filter argument of type [X | X[]]. *)
Inductive OneOrMany (A : Type) :=
  | One (a : A)
  | Many (l : list A).
Arguments One {A} a.
Arguments Many {A} l.

(** [Array.isArray(x) ? x : [x]] *)
Definition asArray {A} (x : OneOrMany A) : list A :=
  match x with
  | One a => [a]
  | Many l => l
  end.

Record FilterArgs := mkFilterArgs {
  fa_status : option (OneOrMany Status);
  fa_priority : option (OneOrMany Z);
  fa_type : option (OneOrMany ItemType);
  fa_epicId : option string;
  fa_taskId : option string;
  fa_search : option string
}.

(** [list.includes(x)] *)
Definition inArray {A} `{EqDecision A} (x : A) (l : list A) : bool :=
  bool_decide (x ∈ l).

Definition applyStatusFilter (items : list FlatItem) (st : OneOrMany Status) : list FlatItem :=
  let statuses := asArray st in
  List.filter (fun i => inArray (status (flat i)) statuses) items.

Definition applyPriorityFilter (items : list FlatItem) (p : OneOrMany Z) : list FlatItem :=
  let priorities := asArray p in
  List.filter (fun i => inArray (priority (flat i)) priorities) items.

Definition applyTypeFilter (items : list FlatItem) (t : OneOrMany ItemType) : list FlatItem :=
  let types := asArray t in
  List.filter (fun i => inArray (type i) types) items.

(** [s.includes(sub)]: [sub] occurs in [s]. *)
Fixpoint includes (s sub : string) : bool :=
  String.prefix sub s ||
  match s with
  | EmptyString => false
  | String _ s' => includes s' sub
  end.

(** [i.epicId === x], where the left side may be undefined. *)
Definition isString (o : option string) (x : string) : bool :=
  match o with
  | Some y => String.eqb y x
  | None => false
  end.

Section Queries.

(** [String.prototype.toLowerCase], as the engine provides it. *)
Variable toLowerCase : string -> string.

Definition contentIncludes (queryLower : string) (it : FlatItem) : bool :=
  includes (toLowerCase (content (flat it))) queryLower.

(** resolveEpicId and resolveTaskId differ by the type they look at. *)
Definition resolveId (t : ItemType) (items : list FlatItem) (query : string) : option string :=
  let candidates := List.filter (hasType t) items in
  match List.find (fun e => String.eqb (id (flat e)) query) candidates with
  | Some exactMatch => Some (id (flat exactMatch))
  | None =>
      let queryLower := toLowerCase query in
      (fun e => id (flat e)) <$> List.find (contentIncludes queryLower) candidates
  end.

Definition resolveEpicId := resolveId epic.
Definition resolveTaskId := resolveId task.

Definition applyEpicFilter (allItems items : list FlatItem) (epicQuery : string)
  : list FlatItem :=
  let resolvedEpicId := resolveEpicId allItems epicQuery in
  if falsy resolvedEpicId then []
  else
    let r := default EmptyString resolvedEpicId in
    List.filter (fun i => isString (epicId i) r || String.eqb (id (flat i)) r) items.

Definition applyTaskFilter (allItems items : list FlatItem) (taskQuery : string)
  : list FlatItem :=
  let resolvedTaskId := resolveTaskId allItems taskQuery in
  if falsy resolvedTaskId then []
  else
    let r := default EmptyString resolvedTaskId in
    List.filter (fun i => isString (taskId i) r || String.eqb (id (flat i)) r) items.

Definition applySearchFilter (items : list FlatItem) (search : string) : list FlatItem :=
  let searchLower := toLowerCase search in
  List.filter (contentIncludes searchLower) items.

(** [if (x !== undefined) items = f(items, x)] *)
Definition whenGiven {A} (x : option A) (f : list FlatItem -> A -> list FlatItem)
  (items : list FlatItem) : list FlatItem :=
  match x with
  | Some a => f items a
  | None => items
  end.

Definition filterItems (state : State) (args : FilterArgs) : list FlatItem :=
  let allItems := flattenState state in
  let items := allItems in
  let items := whenGiven (fa_epicId args) (applyEpicFilter allItems) items in
  let items := whenGiven (fa_taskId args) (applyTaskFilter allItems) items in
  let items := whenGiven (fa_status args) applyStatusFilter items in
  let items := whenGiven (fa_priority args) applyPriorityFilter items in
  let items := whenGiven (fa_type args) applyTypeFilter items in
  let items := whenGiven (fa_search args) applySearchFilter items in
  items.

Definition noFilter : FilterArgs := mkFilterArgs None None None None None None.

(** [...(x && { key: x })]: the key is given when [x] is a non-empty
    string. *)
Definition whenTruthy (x : option string) : option string :=
  if falsy x then None else x.

Definition listEpics (state : State) : list FlatItem :=
  filterItems state (mkFilterArgs None None (Some (One epic)) None None None).

Definition listTasks (state : State) (epicId : option string) : list FlatItem :=
  filterItems state (mkFilterArgs None None (Some (One task)) (whenTruthy epicId) None None).

Definition listSubtasks (state : State) (taskId : option string) : list FlatItem :=
  filterItems state (mkFilterArgs None None (Some (One subtask)) None (whenTruthy taskId) None).

(** findById returns [{ item }]; the embedding returns the item, [None] for
    [null]. *)
Definition findById (state : State) (i : string) : option FlatItem :=
  let flat := flattenState state in
  findFlat i flat.

Definition fuzzyFind (state : State) (query : string) : list FlatItem :=
  let flat := flattenState state in
  match findFlat query flat with
  | Some exactId => [exactId]
  | None =>
      let queryLower := toLowerCase query in
      List.filter (contentIncludes queryLower) flat
  end.

End Queries.

(** ** A state as a stored document (storage/file.ts)

    writeState stores [JSON.stringify(state)] and readState validates
    [JSON.parse] of the stored text.  [encodeState s] is the JSON value that
    readState parses after writeState has stored [s]: every key that is
    present, none for an absent one. *)















(** ** The first item of a state that carries an id

    [Located s i]: the id [i] occurs in [s]; each case gives the position of
    its first occurrence in document order, the one that markComplete and
    removeItem reach. *)
Inductive Located (s : State) (i : string) : Prop :=
  | Located_epic l1 E l2 :
      epics s = l1 ++ E :: l2 -> i ∉ concat (map epicIds l1) ->
      id (fields E) = i -> Located s i
  | Located_task l1 E l2 t1 T t2 :
      epics s = l1 ++ E :: l2 -> i ∉ concat (map epicIds l1) ->
      id (fields E) <> i ->
      tasks E = t1 ++ T :: t2 -> i ∉ concat (map taskIds t1) ->
      id (fields T) = i -> Located s i
  | Located_subtask l1 E l2 t1 T t2 u1 (X : Subtask) u2 :
      epics s = l1 ++ E :: l2 -> i ∉ concat (map epicIds l1) ->
      id (fields E) <> i ->
      tasks E = t1 ++ T :: t2 -> i ∉ concat (map taskIds t1) ->
      id (fields T) <> i ->
      subtasks T = u1 ++ X :: u2 -> absent i u1 ->
      id (fields X) = i -> Located s i
  | Located_standalone_task t1 T t2 :
      i ∉ concat (map epicIds (epics s)) ->
      standalone s = Some (t1 ++ T :: t2) -> i ∉ concat (map taskIds t1) ->
      id (fields T) = i -> Located s i
  | Located_standalone_subtask t1 T t2 u1 (X : Subtask) u2 :
      i ∉ concat (map epicIds (epics s)) ->
      standalone s = Some (t1 ++ T :: t2) -> i ∉ concat (map taskIds t1) ->
      id (fields T) <> i ->
      subtasks T = u1 ++ X :: u2 -> absent i u1 ->
      id (fields X) = i -> Located s i.


(** An issue seen from the parent of the value it was found in. *)
Definition atSeg (seg : PathSeg) (i : ZodIssue) : ZodIssue :=
  mkIssue (seg :: path i) (message i).

(** ** What filterItems keeps *)

Section Matching.

Variable toLowerCase : string -> string.

(** [query] resolves among [allItems] to an item of type [t] whose id is not
    empty, and [it] is that item or names it as its parent. *)
Definition underParent (t : ItemType) (parentOf : FlatItem -> option string)
  (allItems : list FlatItem) (query : string) (it : FlatItem) : Prop :=
  exists r, resolveId toLowerCase t allItems query = Some r /\ r <> EmptyString /\
            (parentOf it = Some r \/ id (flat it) = r).

Definition matchesFilter (allItems : list FlatItem) (args : FilterArgs) (it : FlatItem)
  : Prop :=
  (forall q, fa_epicId args = Some q -> underParent epic epicId allItems q it) /\
  (forall q, fa_taskId args = Some q -> underParent task taskId allItems q it) /\
  (forall st, fa_status args = Some st -> status (flat it) ∈ asArray st) /\
  (forall p, fa_priority args = Some p -> priority (flat it) ∈ asArray p) /\
  (forall t, fa_type args = Some t -> type it ∈ asArray t) /\
  (forall q, fa_search args = Some q ->
     includes (toLowerCase (content (flat it))) (toLowerCase q) = true).

End Matching.

(** The tasks and the subtasks of a state as flat items, in document
    order. *)
Definition flatTasks (s : State) : list FlatItem :=
  concat (map (fun e => map (flattenTask (Some e)) (tasks e)) (epics s))
  ++ map (flattenTask None) (default [] (standalone s)).

Definition flatSubtasksOf (e : option Epic) (ts : list Task) : list FlatItem :=
  concat (map (fun t => map (flattenSubtask e t) (subtasks t)) ts).

Definition flatSubtasks (s : State) : list FlatItem :=
  concat (map (fun e => flatSubtasksOf (Some e) (tasks e)) (epics s))
  ++ flatSubtasksOf None (default [] (standalone s)).

(** The number of ancestors an item names. *)
Definition parentCount (it : FlatItem) : Z :=
  (match epicId it with Some _ => 1 | None => 0 end)
  + (match taskId it with Some _ => 1 | None => 0 end).


(** ** States that differ in the attributes of their items only

    [relState R s s']: [s'] has the version of [s] and the same tree of
    epics, tasks and subtasks, and the attributes of each item of [s] are
    related by [R] to those of the item at its place in [s']. *)

Section Related.

Variable R : Fields -> Fields -> Prop.

Definition relTask (t t' : Task) : Prop :=
  R (fields t) (fields t') /\
  Forall2 (fun u u' : Subtask => R (fields u) (fields u')) (subtasks t) (subtasks t').

Definition relEpic (e e' : Epic) : Prop :=
  R (fields e) (fields e') /\ Forall2 relTask (tasks e) (tasks e').

Definition relState (s s' : State) : Prop :=
  version s' = version s /\
  Forall2 relEpic (epics s) (epics s') /\
  Forall2 relTask (default [] (standalone s)) (default [] (standalone s')).

End Related.

(** What an update with [input] at [now] may do to the attributes of an
    item: nothing, refresh [updated_at] (a parent of the item addressed), or
    apply the input (the item addressed). *)
Definition touched (input : UpdateItemInput) (now : string) (f f' : Fields) : Prop :=
  f' = f \/ f' = setUpdatedAt f now \/ f' = applyUpdateFields f input now.

(** [f'] is [f] but for [updated_at], and for a status that has become
    completed together with a [completed_at] that is then set. *)
Definition completedOrSame (f f' : Fields) : Prop :=
  id f' = id f /\ content f' = content f /\ priority f' = priority f /\
  created_at f' = created_at f /\
  implementation_description f' = implementation_description f /\
  notes f' = notes f /\ deps f' = deps f /\
  (status f' = status f \/ status f' = completed) /\
  (completed_at f' = completed_at f \/
   (status f' = completed /\ completed_at f' <> None)).


(** A result of markComplete, or of one of its steps, that started from
    the state [s] when the clock had been read [n] times: a success gives a
    state that differs from [s] as [completedOrSame] allows, after at least
    [lo] and at most [hi] more reads. *)
Definition stepsFrom (s : State) (n lo hi : nat) (r : OperationResult State * nat) : Prop :=
  match r with
  | (Success s', n') => relState completedOrSame s s' /\ (n + lo <= n' <= n + hi)%nat
  | (Failure _, _) => True
  end.

(** The same for a search that may find nothing; then it has read no
    clock. *)
Definition searchFrom (s : State) (n lo hi : nat)
  (r : option (OperationResult State) * nat) : Prop :=
  match r with
  | (Some res, n') => stepsFrom s n lo hi (res, n')
  | (None, n') => n' = n
  end.


(** ** The add operations as one family *)

Inductive AddOp :=
  | OpAddEpic (input : CreateEpicInput)
  | OpAddTask (input : CreateTaskInput)
  | OpAddSubtask (input : CreateSubtaskInput)
  | OpAddStandaloneSubtask (input : AddStandaloneSubtaskInput).

(** The new state and the id of the new item of a result. *)
Definition added {T} `{Entity T} (r : OperationResult (State * T))
  : OperationResult (State * string) :=
  match r with
  | Success (s, x) => Success (s, id (fields x))
  | Failure err => Failure err
  end.

Definition runAdd (clock ids : nat -> string) (op : AddOp) (s : State)
  : MW (OperationResult (State * string)) :=
  fun w =>
    match op with
    | OpAddEpic input => let '(r, w') := addEpic clock ids s input w in (added r, w')
    | OpAddTask input => let '(r, w') := addTask clock ids s input w in (added r, w')
    | OpAddSubtask input => let '(r, w') := addSubtask clock ids s input w in (added r, w')
    | OpAddStandaloneSubtask input =>
        let '(r, w') := addStandaloneSubtask clock ids s input w in (added r, w')
    end.

(** The world after one reading of the clock and one generated id. *)
Definition advanced (w : World) : World := mkWorld (S (clockReads w)) (S (idReads w)).


(** An epic that names itself in its deps, with a task whose deps name an
    id that no task of the epic carries. *)
Definition taskStray : Task :=
  mkTask (mkFields "t9" "Task with a stray dep" 2 pending "2024-01-01T00:00:00.000Z"
            None None None None (Some ["zz"])) [].
Definition epicSelf : Epic :=
  mkEpic (mkFields "a1" "Epic naming itself" 2 pending "2024-01-01T00:00:00.000Z"
            None None None None (Some ["a1"])) [taskStray].
Definition stateSelf : State := mkState 1 [epicSelf] (Some []).


(** * Properties *)

(** ** Validation and flattening *)

Lemma pmap_Ok {A B} (f : A -> B) (r : ParseResult A) (b : B) :
  pmap f r = Ok b -> exists a, r = Ok a /\ b = f a.
Proof. destruct r; simpl; [intros [= <-]; eauto | discriminate]. Qed.

Lemma both_Ok {A B} (x : ParseResult A) (y : ParseResult B) (p : A * B) :
  both x y = Ok p -> x = Ok (fst p) /\ y = Ok (snd p).
Proof. destruct x, y; simpl; try discriminate. intros [= <-]. auto. Qed.

Lemma under_Ok {A} (seg : PathSeg) (r : ParseResult A) (a : A) :
  under seg r = Ok a -> r = Ok a.
Proof. destruct r; simpl; [auto | discriminate]. Qed.

Lemma zElements_Forall {A} (p : option json -> ParseResult A) (P : A -> Prop) :
  (forall j a, p j = Ok a -> P a) ->
  forall l i r, zElements p i l = Ok r -> Forall P r.
Proof.
  intros Hp l. induction l as [|x l IH]; intros i r; simpl.
  - intros [= <-]. constructor.
  - intros H. apply pmap_Ok in H as [[a r'] [H ->]].
    apply both_Ok in H as [Ha Hr]. simpl in Ha, Hr.
    apply under_Ok in Ha. constructor; eauto.
Qed.

Lemma zElements_length {A} (p : option json -> ParseResult A) :
  forall l i r, zElements p i l = Ok r -> length r = length l.
Proof.
  induction l as [|x l IH]; intros i r; simpl.
  - intros [= <-]. reflexivity.
  - intros H. apply pmap_Ok in H as [[a r'] [H ->]].
    apply both_Ok in H as [_ Hr]. simpl in *. f_equal. eauto.
Qed.

(** The parsed attributes never carry [deps]: the shape does not name it. *)
Lemma FieldsSchema_deps kind o f :
  FieldsSchema kind o = Ok f -> deps f = None /\ implementation_description f = None.
Proof.
  unfold FieldsSchema. intros H. apply pmap_Ok in H as [x [_ ->]].
  destruct x as (i & c & p & s & cr & u & co & n). auto.
Qed.

Lemma EpicSchema_deps j e : EpicSchema j = Ok e -> deps (fields e) = None.
Proof.
  unfold EpicSchema. destruct j as [[]|]; simpl; try discriminate.
  intros H. apply pmap_Ok in H as [[f l] [H ->]].
  apply both_Ok in H as [Hf _]. simpl in *.
  now apply FieldsSchema_deps in Hf.
Qed.

Lemma validateState_Valid raw s :
  validateState raw = Valid s -> StateSchema (Some raw) = Ok s.
Proof. unfold validateState. destruct (StateSchema _); congruence. Qed.

(** Whatever the document holds, an accepted state has no standalone
    tasks and no epic with [deps]. *)
Lemma validateState_strips raw s :
  validateState raw = Valid s ->
  standalone s = None /\ Forall (fun e => deps (fields e) = None) (epics s).
Proof.
  intros H. apply validateState_Valid in H. unfold StateSchema in H.
  destruct raw; simpl in H; try discriminate.
  apply pmap_Ok in H as [[v es] [H ->]]. split; [reflexivity|].
  apply both_Ok in H as [_ H]. simpl in *. apply under_Ok in H.
  unfold zDefault in H. destruct (prop "epics" o) as [j|].
  - unfold zArray in H. destruct j; simpl in H; try discriminate.
    eapply zElements_Forall; [|exact H]. intros j a Ha. simpl.
    exact (EpicSchema_deps _ _ Ha).
  - injection H as <-. constructor.
Qed.

Lemma length_concat_sum {A B} (f : A -> list B) (l : list A) :
  length (concat (map f l)) = list_sum (map (fun x => length (f x)) l).
Proof. induction l; simpl; [|rewrite length_app]; auto. Qed.

Lemma flattenTaskTree_length e t : length (flattenTaskTree e t) = taskTreeSize t.
Proof. unfold flattenTaskTree, taskTreeSize. simpl. now rewrite length_map. Qed.

Lemma flattenEpicTree_length e : length (flattenEpicTree e) = epicTreeSize e.
Proof.
  unfold flattenEpicTree, epicTreeSize. simpl. f_equal.
  rewrite length_concat_sum. f_equal. apply map_ext. intros.
  apply flattenTaskTree_length.
Qed.

(** flattenState pushes one item per epic, per task (nested or standalone)
    and per subtask of the state it is given. *)
Lemma flattenState_length s :
  length (flattenState s) =
  (list_sum (map epicTreeSize (epics s))
   + list_sum (map taskTreeSize (default [] (standalone s))))%nat.
Proof.
  unfold flattenState. rewrite length_app, !length_concat_sum. f_equal.
  - f_equal. apply map_ext. intros. apply flattenEpicTree_length.
  - f_equal. apply map_ext. intros. apply flattenTaskTree_length.
Qed.

(** The counts by type add up to the number of items. *)
Lemma countType_total l :
  (countType epic l + countType task l + countType subtask l)%nat = length l.
Proof.
  unfold countType. induction l as [|x l IH]; simpl; [reflexivity|].
  destruct (type x); simpl; lia.
Qed.

Lemma zElements_Forall2 {A} (p : option json -> ParseResult A) :
  forall l i r, zElements p i l = Ok r -> Forall2 (fun j a => p (Some j) = Ok a) l r.
Proof.
  induction l as [|x l IH]; intros i r; simpl.
  - intros [= <-]. constructor.
  - intros H. apply pmap_Ok in H as [[a r'] [H ->]].
    apply both_Ok in H as [Ha Hr]. simpl in Ha, Hr.
    apply under_Ok in Ha. constructor; eauto.
Qed.

(** A parsed array at key [k] of an object, with default [[]], against the
    raw array at that key. *)
Lemma zDefault_array_Forall2 {A} (p : option json -> ParseResult A) k o r :
  zDefault [] (zArray p) (prop k o) = Ok r ->
  Forall2 (fun j a => p (Some j) = Ok a) (rawArray k (JObj o)) r.
Proof.
  unfold zDefault, rawArray. destruct (prop k o) as [j|].
  - destruct j; simpl; try discriminate. apply zElements_Forall2.
  - intros [= <-]. constructor.
Qed.

Lemma Forall2_sum {A B} (R : A -> B -> Prop) (f : A -> nat) (g : B -> nat) l r :
  (forall a b, R a b -> f a = g b) -> Forall2 R l r ->
  list_sum (map f l) = list_sum (map g r).
Proof. intros Hfg. induction 1; simpl; [reflexivity|]. f_equal; auto. Qed.

Lemma TaskSchema_size j t : TaskSchema (Some j) = Ok t -> rawTaskCount j = taskTreeSize t.
Proof.
  unfold TaskSchema. destruct j; simpl; try discriminate.
  intros H. apply pmap_Ok in H as [[f l] [H ->]].
  apply both_Ok in H as [_ H]. simpl in H. apply under_Ok in H.
  apply zDefault_array_Forall2 in H. unfold rawTaskCount, taskTreeSize. simpl subtasks.
  f_equal. now apply Forall2_length in H.
Qed.

Lemma EpicSchema_size j e : EpicSchema (Some j) = Ok e -> rawEpicCount j = epicTreeSize e.
Proof.
  unfold EpicSchema. destruct j; simpl; try discriminate.
  intros H. apply pmap_Ok in H as [[f l] [H ->]].
  apply both_Ok in H as [_ H]. simpl in H. apply under_Ok in H.
  apply zDefault_array_Forall2 in H. unfold rawEpicCount, epicTreeSize. simpl tasks.
  f_equal. eapply Forall2_sum; [|exact H]. intros a b. apply TaskSchema_size.
Qed.

(** What does hold of every accepted document: the flat list has one item
    per epic, per task of an epic and per subtask of such a task of the
    document, and none for its top-level tasks. *)
Lemma validate_flatten_count raw s :
  validateState raw = Valid s ->
  length (flattenState s) = list_sum (map rawEpicCount (rawArray "epics" raw)).
Proof.
  intros H. destruct (validateState_strips raw s H) as [Hst _].
  rewrite flattenState_length, Hst. simpl. rewrite Nat.add_0_r.
  apply validateState_Valid in H. unfold StateSchema in H.
  destruct raw; simpl in H; try discriminate.
  apply pmap_Ok in H as [[v es] [H ->]].
  apply both_Ok in H as [_ H]. simpl in H. apply under_Ok in H.
  apply zDefault_array_Forall2 in H. simpl epics. symmetry.
  eapply Forall2_sum; [|exact H]. intros a b. apply EpicSchema_size.
Qed.

(** C1 (evaluation at the failing input): the document [docStandalone]
    holds one standalone task in its top-level [tasks] array and is accepted
    by validateState, yet flattenState of the returned state has no item:
    the schema strips the [tasks] key of the document. *)
Theorem C1_standalone_task_dropped :
  rawItemCount docStandalone = 1%nat /\
  exists s, validateState docStandalone = Valid s /\
            standalone s = None /\ flattenState s = [].
Proof.
  split; [reflexivity|]. eexists. split; [vm_compute; reflexivity|].
  split; reflexivity.
Qed.

(** C2 (evaluation at the failing input): in [docDeps] the second epic
    lists the first in its [deps]; validateState accepts the document and
    the second epic of the returned state has no [deps]. *)
Theorem C2_epic_deps_dropped :
  rawEpicDeps docDeps 1 = Some (JArr [str "e1"]) /\
  exists s e, validateState docDeps = Valid s /\
              epics s !! 1%nat = Some e /\ deps (fields e) = None.
Proof.
  split; [reflexivity|]. eexists _, _. split; [vm_compute; reflexivity|].
  split; reflexivity.
Qed.

(** ** getNext *)

Lemma Keep_filter {A} (P : A -> Prop) (b : A -> bool) (l : list A) :
  (forall x, b x = true <-> P x) -> Keep P l (List.filter b l).
Proof.
  intros Hb. induction l as [|x l IH]; simpl; [constructor|].
  destruct (b x) eqn:E.
  - apply Keep_yes; [now apply Hb | exact IH].
  - apply Keep_no; [|exact IH]. rewrite <- Hb. congruence.
Qed.

Lemma filter_filter_andb {A} (f g : A -> bool) (l : list A) :
  List.filter g (List.filter f l) = List.filter (fun x => f x && g x) l.
Proof.
  induction l as [|x l IH]; simpl; [reflexivity|].
  destruct (f x); simpl; [destruct (g x)|]; now rewrite IH.
Qed.

Lemma filter_split_length {A} (g : A -> bool) (l : list A) :
  (length l - length (List.filter g l))%nat = length (List.filter (fun x => negb (g x)) l).
Proof.
  induction l as [|x l IH]; simpl; [reflexivity|].
  pose proof (List.filter_length_le g l).
  destruct (g x); simpl; lia.
Qed.

Section StableSort.
Context {A : Type} (compare : A -> A -> Z) (before : A -> A -> Prop).
Hypothesis compare_before : forall a b, (0 < compare a b)%Z <-> before b a.
Hypothesis before_trans : forall a b c, before a b -> before b c -> before a c.
Hypothesis before_split : forall a b c, before a c -> before a b \/ before b c.

Lemma insertSorted_length x l : length (insertSorted compare x l) = S (length l).
Proof. induction l as [|y l IH]; simpl; [|destruct (0 <? compare x y)%Z; simpl]; auto. Qed.

Lemma sort_length l : length (sort compare l) = length l.
Proof. induction l as [|x l IH]; simpl; [|rewrite insertSorted_length]; auto. Qed.

Lemma head_insertSorted x l :
  head (insertSorted compare x l) =
  match head l with
  | Some y => if (0 <? compare x y)%Z then Some y else Some x
  | None => Some x
  end.
Proof. destruct l as [|y l]; simpl; [|destruct (0 <? compare x y)%Z]; reflexivity. Qed.

(** The first element of the sorted list is the earliest element of the
    input that no other element goes strictly before. *)
Lemma head_sort l x :
  head (sort compare l) = Some x ->
  exists l1 l2, l = l1 ++ x :: l2 /\ Forall (before x) l1 /\
                Forall (fun y => ~ before y x) l2.
Proof.
  revert x. induction l as [|a l IH]; intros x; simpl; [discriminate|].
  rewrite head_insertSorted. destruct (head (sort compare l)) as [y|] eqn:Hy.
  - destruct (IH y eq_refl) as (l1 & l2 & -> & H1 & H2).
    destruct (0 <? compare a y)%Z eqn:E; intros [= <-].
    + apply Z.ltb_lt, compare_before in E.
      exists (a :: l1), l2. repeat split; auto.
    + apply Z.ltb_ge in E.
      assert (Hay : ~ before y a) by (rewrite <- compare_before; lia).
      exists [], (l1 ++ y :: l2). repeat split; [constructor|].
      apply Forall_app. split; [|constructor].
      * eapply List.Forall_impl; [|exact H1]. intros z Hz Hza. simpl in *. eauto.
      * exact Hay.
      * eapply List.Forall_impl; [|exact H2]. intros z Hz Hza. simpl in *.
        destruct (before_split z y a Hza); auto.
  - intros [= <-]. exists [], l. repeat split; [constructor|].
    destruct l as [|b l]; [constructor|]. simpl in Hy.
    rewrite head_insertSorted in Hy. destruct (head (sort compare l)) as [z|];
      [destruct (0 <? compare b z)%Z|]; discriminate.
Qed.

Lemma head_sort_None l : head (sort compare l) = None <-> l = [].
Proof.
  split; [|intros ->; reflexivity]. intros H.
  pose proof (sort_length l) as Hl. destruct (sort compare l); [|discriminate].
  destruct l; [reflexivity|discriminate].
Qed.
End StableSort.

Lemma isLevel_spec level it : isLevel level it = true <-> levelP level it.
Proof.
  unfold isLevel, levelP. destruct level as [[]|]; simpl;
    destruct (type it); simpl; intuition congruence.
Qed.

Lemma isActionable_spec it : isActionable it = true <-> actionableP it.
Proof.
  unfold isActionable, actionableP. rewrite orb_true_iff, !bool_decide_eq_true. tauto.
Qed.

Lemma findFlat_resolves allItems d dep :
  findFlat d allItems = Some dep <-> resolvesTo allItems d dep.
Proof.
  unfold findFlat, resolvesTo. induction allItems as [|x l IH]; simpl.
  - split; [discriminate|]. intros (l1 & l2 & H & _). now destruct l1.
  - destruct (String.eqb_spec (id (flat x)) d) as [E|E].
    + split.
      * intros [= <-]. exists [], l. auto.
      * intros (l1 & l2 & H & Hd & Hl1). destruct l1 as [|y l1]; simpl in H.
        -- now injection H as ->.
        -- injection H as -> _. inversion Hl1; subst. contradiction.
    + rewrite IH. split.
      * intros (l1 & l2 & -> & Hd & Hl1). exists (x :: l1), l2. auto.
      * intros (l1 & l2 & H & Hd & Hl1). destruct l1 as [|y l1]; simpl in H.
        -- injection H as -> _. contradiction.
        -- injection H as -> ->. inversion Hl1; subst. eauto.
Qed.

Lemma areDepsComplete_spec allItems it :
  areDepsComplete it allItems = true <-> depsSatisfiedP allItems it.
Proof.
  unfold areDepsComplete, depsSatisfiedP. destruct (deps (flat it)) as [ds|].
  - destruct ds as [|d0 ds0]; simpl Nat.eqb; cbv iota.
    + split; [|reflexivity]. intros _ ds d [= <-] Hd. destruct Hd.
    + set (ds := d0 :: ds0). rewrite forallb_forall. split.
      * intros H ds' d [= <-] Hd. specialize (H d Hd).
        destruct (findFlat d allItems) as [dep|] eqn:E; [|discriminate].
        exists dep. rewrite <- findFlat_resolves. split; [assumption|].
        now apply bool_decide_eq_true in H.
      * intros H d Hd. destruct (H ds d eq_refl Hd) as (dep & Hr & Hs).
        apply findFlat_resolves in Hr. rewrite Hr. now apply bool_decide_eq_true.
  - split; [|reflexivity]. intros _ ds d [=].
Qed.

Lemma noLevel_spec level : default LAny level = LAny <-> noLevel level.
Proof. unfold noLevel. destruct level as [[]|]; simpl; intuition congruence. Qed.

Lemma compareNext_goesBefore level a b :
  (0 < compareNext (default LAny level) a b)%Z <-> goesBefore level b a.
Proof.
  unfold compareNext, goesBefore. rewrite <- noLevel_spec.
  destruct (Z.eqb_spec (priority (flat a)) (priority (flat b))) as [E|E]; simpl.
  - case_bool_decide as Hl; split; intros H; try lia.
    + right. split; [lia|split; [assumption|lia]].
    + destruct H as [H|(_ & H & _)]; [lia|contradiction].
  - split; [intros; left; lia|]. intros [H|[H _]]; lia.
Qed.

Lemma goesBefore_trans level a b c :
  goesBefore level a b -> goesBefore level b c -> goesBefore level a c.
Proof. unfold goesBefore. intros [?|(? & ? & ?)] [?|(? & ? & ?)]; (left; lia) || (right; repeat split; auto; lia). Qed.

Lemma goesBefore_split level a b c :
  goesBefore level a c -> goesBefore level a b \/ goesBefore level b c.
Proof.
  unfold goesBefore. intros [H|(H1 & H2 & H3)].
  - destruct (Z.lt_total (priority (flat a)) (priority (flat b))) as [?|[?|?]]; auto.
    + right. left. lia.
    + right. left. lia.
  - destruct (Z.lt_total (priority (flat a)) (priority (flat b))) as [?|[?|?]]; auto.
    + destruct (Z_lt_le_dec (depth b) (depth a)); [left|right]; right; repeat split; auto; lia.
    + right. left. lia.
Qed.

(** C3: getNext returns, as [item], the first of the ready items in the
    order of the queue (smaller priority number first; at equal priority the
    deeper item first when no level is asked for; otherwise document
    order), as [queueDepth] the number of ready items, as [blockedByDeps]
    the number of actionable items of the level whose dependencies are not
    all satisfied, and no item exactly when nothing is ready.  An item is
    ready when its status is pending or in_progress, it is of the level
    asked for, and each id of its [deps] resolves to a completed item. *)
Theorem C3_getNext_spec (state : State) (level : option Level) :
  let all := flattenState state in
  let r := getNext state level in
  exists ready blocked,
    Keep (readyP level all) all ready /\
    Keep (blockedP level all) all blocked /\
    queueDepth r = length ready /\
    blockedByDeps r = length blocked /\
    (item r = None <-> ready = []) /\
    (forall x, item r = Some x ->
       exists l1 l2, ready = l1 ++ x :: l2 /\
         Forall (fun y => goesBefore level x y) l1 /\
         Forall (fun y => ~ goesBefore level y x) l2).
Proof.
  intros all r.
  set (readyb := fun it => (isActionable it && isLevel level it) && areDepsComplete it all).
  set (blockedb := fun it => (isActionable it && isLevel level it) && negb (areDepsComplete it all)).
  assert (Hfiltered :
    (if bool_decide (default LAny level = LAny) then List.filter isActionable all
     else List.filter (fun it => typeIsLevel (type it) (default LAny level))
            (List.filter isActionable all))
    = List.filter (fun it => isActionable it && isLevel level it) all).
  { unfold isLevel. case_bool_decide as E; simpl.
    - apply List.filter_ext. intros. now rewrite andb_true_r.
    - apply filter_filter_andb. }
  assert (Hready : List.filter (fun it => areDepsComplete it all)
            (List.filter (fun it => isActionable it && isLevel level it) all)
          = List.filter readyb all) by apply filter_filter_andb.
  exists (List.filter readyb all), (List.filter blockedb all).
  subst r. unfold getNext. fold all. cbv zeta. rewrite Hfiltered, Hready. simpl.
  split; [|split; [|split; [|split; [|split]]]].
  - apply Keep_filter. intros it. unfold readyb, readyP.
    rewrite !andb_true_iff, isActionable_spec, isLevel_spec, areDepsComplete_spec. tauto.
  - apply Keep_filter. intros it. unfold blockedb, blockedP.
    rewrite !andb_true_iff, isActionable_spec, isLevel_spec, negb_true_iff.
    rewrite <- areDepsComplete_spec. destruct (areDepsComplete it all); intuition congruence.
  - reflexivity.
  - rewrite <- Hready, filter_split_length. unfold blockedb.
    now rewrite filter_filter_andb.
  - apply head_sort_None.
  - intros x Hx. eapply head_sort; [apply compareNext_goesBefore | apply goesBefore_trans
      | apply goesBefore_split | exact Hx].
Qed.

(** ** Lists as arrays: the element at a known position *)

Section Position.
Context {T : Type} `{Entity T}.
Implicit Types (x y : T) (i : string).

Lemma hasId_true i x : hasId i x = true <-> id (fields x) = i.
Proof. unfold hasId. apply String.eqb_eq. Qed.

Lemma hasId_false i x : hasId i x = false <-> id (fields x) <> i.
Proof. unfold hasId. apply String.eqb_neq. Qed.

Lemma findIndex_at i l1 x l2 :
  absent i l1 -> id (fields x) = i ->
  findIndex (hasId i) (l1 ++ x :: l2) = Some (length l1).
Proof.
  intros Hl Hx. induction Hl as [|y l1 Hy Hl IH]; simpl.
  - apply hasId_true in Hx. now rewrite Hx.
  - apply hasId_false in Hy. now rewrite Hy, IH.
Qed.

Lemma find_at i l1 x l2 :
  absent i l1 -> id (fields x) = i ->
  List.find (hasId i) (l1 ++ x :: l2) = Some x.
Proof.
  intros Hl Hx. induction Hl as [|y l1 Hy Hl IH]; simpl.
  - apply hasId_true in Hx. now rewrite Hx.
  - apply hasId_false in Hy. now rewrite Hy, IH.
Qed.

Lemma findIndex_absent i (l : list T) : absent i l -> findIndex (hasId i) l = None.
Proof.
  intros Hl. induction Hl as [|y l Hy Hl IH]; simpl; [reflexivity|].
  apply hasId_false in Hy. now rewrite Hy, IH.
Qed.

Lemma find_absent i (l : list T) : absent i l -> List.find (hasId i) l = None.
Proof.
  intros Hl. induction Hl as [|y l Hy Hl IH]; simpl; [reflexivity|].
  apply hasId_false in Hy. now rewrite Hy.
Qed.

Lemma absent_ids i (l : list T) :
  i ∉ map (fun y => id (fields y)) l -> absent i l.
Proof.
  intros Hi. apply List.Forall_forall. intros y Hy Hid. apply Hi.
  rewrite <- Hid. apply list_elem_of_In.
  exact (in_map (fun y => id (fields y)) l y Hy).
Qed.
End Position.

Lemma lookup_at {A} (l1 l2 : list A) (x : A) : (l1 ++ x :: l2) !! length l1 = Some x.
Proof. apply list_lookup_middle. reflexivity. Qed.

Lemma insert_at {A} (l1 l2 : list A) (x y : A) :
  <[length l1 := y]> (l1 ++ x :: l2) = l1 ++ y :: l2.
Proof. induction l1 as [|z l1 IH]; simpl; [reflexivity|]. now f_equal. Qed.

Lemma delete_at {A} (l1 l2 : list A) (x : A) : delete (length l1) (l1 ++ x :: l2) = l1 ++ l2.
Proof. induction l1 as [|z l1 IH]; simpl; [reflexivity|]. now f_equal. Qed.

Lemma findIndex_Some {A} (p : A -> bool) (l : list A) (i : nat) :
  findIndex p l = Some i ->
  exists x, l !! i = Some x /\ p x = true /\
            forall y, p y = p x -> findIndex p (<[i := y]> l) = Some i.
Proof.
  revert i. induction l as [|z l IH]; intros i; simpl; [discriminate|].
  destruct (p z) eqn:E.
  - intros [= <-]. exists z. simpl. repeat split; auto. intros y ->. now rewrite E.
  - destruct (findIndex p l) as [j|]; simpl; [|discriminate]. intros [= <-].
    destruct (IH j eq_refl) as (x & Hx & Hp & Hins). exists x. simpl.
    repeat split; auto. intros y Hy. now rewrite E, (Hins y Hy).
Qed.

Lemma findIndex_insert {A} (p : A -> bool) (l : list A) (i : nat) (x y : A) :
  findIndex p l = Some i -> l !! i = Some x -> p y = p x ->
  findIndex p (<[i := y]> l) = Some i /\ <[i := y]> l !! i = Some y.
Proof.
  intros Hf Hx Hp. destruct (findIndex_Some p l i Hf) as (x' & Hx' & _ & Hins).
  rewrite Hx in Hx'. injection Hx' as <-. split; [now apply Hins|].
  apply list_lookup_insert_eq. now apply lookup_lt_Some in Hx.
Qed.

(** ** Lookups at a known position *)

Lemma findEpic_at s l1 E l2 i :
  epics s = l1 ++ E :: l2 -> absent i l1 -> id (fields E) = i ->
  findEpic s i = Some (mkEpicLookup E (length l1)).
Proof.
  intros He Hl Hi. unfold findEpic. rewrite He, (findIndex_at i l1 E l2 Hl Hi). simpl.
  now rewrite lookup_at.
Qed.

Lemma findTask_at s l1 E l2 t1 T t2 i j :
  epics s = l1 ++ E :: l2 -> absent i l1 -> id (fields E) = i ->
  tasks E = t1 ++ T :: t2 -> absent j t1 -> id (fields T) = j ->
  findTask s i j = Some (mkTaskLookup E (length l1) T (length t1)).
Proof.
  intros He Hl Hi Ht Hl' Hj. unfold findTask.
  rewrite (findEpic_at s l1 E l2 i He Hl Hi). simpl.
  rewrite Ht, (findIndex_at j t1 T t2 Hl' Hj). simpl. now rewrite lookup_at.
Qed.

Lemma findSubtask_at s l1 E l2 t1 T t2 u1 X u2 i j k :
  epics s = l1 ++ E :: l2 -> absent i l1 -> id (fields E) = i ->
  tasks E = t1 ++ T :: t2 -> absent j t1 -> id (fields T) = j ->
  subtasks T = u1 ++ X :: u2 -> absent k u1 -> id (fields X) = k ->
  findSubtask s i j k =
  Some (mkSubtaskLookup (mkTaskLookup E (length l1) T (length t1)) X (length u1)).
Proof.
  intros He Hl Hi Ht Hl' Hj Hu Hl'' Hk. unfold findSubtask.
  rewrite (findTask_at s l1 E l2 t1 T t2 i j He Hl Hi Ht Hl' Hj). simpl.
  rewrite Hu, (findIndex_at k u1 X u2 Hl'' Hk). simpl. now rewrite lookup_at.
Qed.

Lemma findStandaloneTask_at s t1 T t2 j :
  standalone s = Some (t1 ++ T :: t2) -> absent j t1 -> id (fields T) = j ->
  findStandaloneTask s j = Some (mkStandaloneTaskLookup T (length t1)).
Proof.
  intros Hs Hl Hj. unfold findStandaloneTask. rewrite Hs. simpl.
  rewrite (findIndex_at j t1 T t2 Hl Hj). simpl. now rewrite lookup_at.
Qed.

Section OperationFacts.
Variable clock : nat -> string.

(** ** The update operations at a known position *)

Lemma updateEpic_at s l1 E l2 i input n :
  epics s = l1 ++ E :: l2 -> absent i l1 -> id (fields E) = i ->
  updateEpic clock s i input n =
  (Success (mkState (version s) (l1 ++ applyUpdate E input (clock n) :: l2) (standalone s)),
   S n).
Proof.
  intros He Hl Hi. unfold updateEpic. rewrite (findEpic_at s l1 E l2 i He Hl Hi).
  unfold bindM, timestamp, ret, updateEpicInState. simpl. now rewrite He, insert_at.
Qed.

Lemma updateTask_at s l1 E l2 t1 T t2 i j input n :
  epics s = l1 ++ E :: l2 -> absent i l1 -> id (fields E) = i ->
  tasks E = t1 ++ T :: t2 -> absent j t1 -> id (fields T) = j ->
  updateTask clock s i j input n =
  (Success (mkState (version s)
     (l1 ++ mkEpic (setUpdatedAt (fields E) (clock n))
                   (t1 ++ applyUpdate T input (clock n) :: t2) :: l2)
     (standalone s)), S n).
Proof.
  intros He Hl Hi Ht Hl' Hj. unfold updateTask.
  rewrite (findTask_at s l1 E l2 t1 T t2 i j He Hl Hi Ht Hl' Hj).
  unfold bindM, timestamp, ret, updateEpicInState, updateTaskInEpic. simpl.
  now rewrite He, Ht, !insert_at.
Qed.

Lemma updateSubtask_at s l1 E l2 t1 T t2 u1 X u2 i j k input n :
  epics s = l1 ++ E :: l2 -> absent i l1 -> id (fields E) = i ->
  tasks E = t1 ++ T :: t2 -> absent j t1 -> id (fields T) = j ->
  subtasks T = u1 ++ X :: u2 -> absent k u1 -> id (fields X) = k ->
  updateSubtask clock s i j k input n =
  (Success (mkState (version s)
     (l1 ++ mkEpic (setUpdatedAt (fields E) (clock n))
                   (t1 ++ mkTask (setUpdatedAt (fields T) (clock n))
                                 (u1 ++ applyUpdate X input (clock n) :: u2) :: t2) :: l2)
     (standalone s)), S n).
Proof.
  intros He Hl Hi Ht Hl' Hj Hu Hl'' Hk. unfold updateSubtask.
  rewrite (findSubtask_at s l1 E l2 t1 T t2 u1 X u2 i j k He Hl Hi Ht Hl' Hj Hu Hl'' Hk).
  unfold bindM, timestamp, ret, updateEpicInState, updateTaskInEpic, updateSubtaskInTask.
  simpl. now rewrite He, Ht, Hu, !insert_at.
Qed.

Lemma updateStandaloneTask_at s t1 T t2 j input n :
  standalone s = Some (t1 ++ T :: t2) -> absent j t1 -> id (fields T) = j ->
  updateStandaloneTask clock s j input n =
  (Success (mkState (version s) (epics s) (Some (t1 ++ applyUpdate T input (clock n) :: t2))),
   S n).
Proof.
  intros Hs Hl Hj. unfold updateStandaloneTask.
  rewrite (findStandaloneTask_at s t1 T t2 j Hs Hl Hj).
  unfold bindM, timestamp, ret, updateStandaloneTaskInState. simpl.
  now rewrite Hs; simpl; rewrite insert_at.
Qed.

Lemma standaloneSubtaskUpdate_at s t1 T t2 u1 X u2 j k input n :
  standalone s = Some (t1 ++ T :: t2) -> absent j t1 -> id (fields T) = j ->
  subtasks T = u1 ++ X :: u2 -> absent k u1 -> id (fields X) = k ->
  standaloneSubtaskUpdate clock s j k input n =
  (Success (mkState (version s) (epics s)
     (Some (t1 ++ mkTask (setUpdatedAt (fields T) (clock n))
                         (u1 ++ applyUpdate X input (clock n) :: u2) :: t2))), S n).
Proof.
  intros Hs Hl Hj Hu Hl' Hk. unfold standaloneSubtaskUpdate.
  rewrite (findStandaloneTask_at s t1 T t2 j Hs Hl Hj). simpl.
  rewrite Hu, (findIndex_at k u1 X u2 Hl' Hk), lookup_at.
  unfold bindM, timestamp, ret, updateStandaloneTaskInState. simpl.
  now rewrite Hs; simpl; rewrite !insert_at.
Qed.

End OperationFacts.

(** ** Lookups after an update in place *)

Lemma findEpic_inv s i lk :
  findEpic s i = Some lk ->
  findIndex (hasId i) (epics s) = Some (el_index lk) /\
  epics s !! el_index lk = Some (el_epic lk).
Proof.
  unfold findEpic. destruct (findIndex _ _) as [k|]; simpl; [|discriminate].
  destruct (epics s !! k) as [e|] eqn:E; simpl; [|discriminate].
  intros [= <-]. auto.
Qed.

Lemma findEpic_updated s i e k e' :
  findEpic s i = Some (mkEpicLookup e k) -> id (fields e') = id (fields e) ->
  findEpic (updateEpicInState s k e') i = Some (mkEpicLookup e' k).
Proof.
  intros Hf Hid. apply findEpic_inv in Hf as [Hi He]. simpl in *.
  assert (Hp : hasId i e' = hasId i e) by (unfold hasId; simpl in *; now rewrite Hid).
  destruct (findIndex_insert _ _ _ _ _ Hi He Hp) as [H1 H2].
  unfold findEpic, updateEpicInState. simpl. rewrite H1. simpl. now rewrite H2.
Qed.

Lemma findTask_inv s i j lk :
  findTask s i j = Some lk ->
  findEpic s i = Some (mkEpicLookup (tl_epic lk) (tl_epicIndex lk)) /\
  findIndex (hasId j) (tasks (tl_epic lk)) = Some (tl_taskIndex lk) /\
  tasks (tl_epic lk) !! tl_taskIndex lk = Some (tl_task lk).
Proof.
  unfold findTask. destruct (findEpic s i) as [[e k]|] eqn:He; simpl; [|discriminate].
  destruct (findIndex _ _) as [m|] eqn:Hm; simpl; [|discriminate].
  destruct (tasks e !! m) as [t|] eqn:E; simpl; [|discriminate].
  intros [= <-]. simpl. auto.
Qed.

Lemma findTask_updated s i j E k T m T' now :
  findTask s i j = Some (mkTaskLookup E k T m) -> id (fields T') = id (fields T) ->
  findTask (updateEpicInState s k (updateTaskInEpic E m T' now)) i j =
  Some (mkTaskLookup (updateTaskInEpic E m T' now) k T' m).
Proof.
  intros Hf Hid. apply findTask_inv in Hf as (He & Hi & Ht). simpl in *.
  assert (Hp : hasId j T' = hasId j T) by (unfold hasId; simpl in *; now rewrite Hid).
  destruct (findIndex_insert _ _ _ _ _ Hi Ht Hp) as [H1 H2].
  unfold findTask.
  rewrite (findEpic_updated s i E k (updateTaskInEpic E m T' now) He eq_refl). simpl.
  rewrite H1. simpl. now rewrite H2.
Qed.

Lemma findStandaloneTask_inv s j lk :
  findStandaloneTask s j = Some lk ->
  findIndex (hasId j) (default [] (standalone s)) = Some (stl_index lk) /\
  default [] (standalone s) !! stl_index lk = Some (stl_task lk).
Proof.
  unfold findStandaloneTask. destruct (findIndex _ _) as [k|]; simpl; [|discriminate].
  destruct (_ !! k) as [t|] eqn:E; simpl; [|discriminate].
  intros [= <-]. auto.
Qed.

Lemma findStandaloneTask_updated s j T k T' :
  findStandaloneTask s j = Some (mkStandaloneTaskLookup T k) ->
  id (fields T') = id (fields T) ->
  findStandaloneTask (updateStandaloneTaskInState s k T') j =
  Some (mkStandaloneTaskLookup T' k).
Proof.
  intros Hf Hid. apply findStandaloneTask_inv in Hf as [Hi Ht]. simpl in *.
  assert (Hp : hasId j T' = hasId j T) by (unfold hasId; simpl in *; now rewrite Hid).
  destruct (findIndex_insert _ _ _ _ _ Hi Ht Hp) as [H1 H2].
  unfold findStandaloneTask, updateStandaloneTaskInState. simpl. rewrite H1. simpl.
  now rewrite H2.
Qed.

Lemma applyUpdate_refreshed {T} `{Entity T} (x : T) input now :
  (forall f, fields (with_fields x f) = f) ->
  refreshed (fields x) (fields (applyUpdate x input now)) input now.
Proof.
  intros Hw. unfold applyUpdate. rewrite Hw. unfold refreshed. simpl.
  case_bool_decide; repeat split; auto; intros; congruence.
Qed.

(** C7: whichever update operation is called and whatever its input, when
    it succeeds the item it addressed is found again under the same ids
    with [updated_at] equal to the timestamp of the call, with
    [completed_at] equal to that timestamp when the input's status is
    completed, and with its former [completed_at] otherwise (another status
    or none in the input): it is never cleared. *)
Theorem C7_update_timestamps clock op s input n s' n' :
  runUpdate clock op s input n = (Success s', n') ->
  exists old new,
    itemOf op s = Some old /\ itemOf op s' = Some new /\
    refreshed old new input (clock n).
Proof.
  destruct op as [e|e t|e t u|t|t u]; simpl.
  - unfold updateEpic. destruct (findEpic s e) as [[E k]|] eqn:Hf; [|discriminate].
    unfold bindM, timestamp, ret. simpl. intros [= <- <-].
    eexists _, _. split; [simpl; rewrite ?Hi; simpl; rewrite ?Hx; reflexivity|].
    assert (Hid : id (fields (applyUpdate E input (clock n))) = id (fields E)) by reflexivity.
    pose proof (findEpic_updated s e E k _ Hf Hid) as Hu. simpl in * |- *. rewrite Hu. split; [reflexivity|].
    exact (applyUpdate_refreshed E input (clock n) (fun _ => eq_refl)).
  - unfold updateTask. destruct (findTask s e t) as [[E k T m]|] eqn:Hf; [|discriminate].
    unfold bindM, timestamp, ret. simpl. intros [= <- <-].
    eexists _, _. split; [simpl; rewrite ?Hi; simpl; rewrite ?Hx; reflexivity|].
    assert (Hid : id (fields (applyUpdate T input (clock n))) = id (fields T)) by reflexivity.
    pose proof (findTask_updated s e t E k T m _ (clock n) Hf Hid) as Hu. simpl in * |- *. rewrite Hu. split; [reflexivity|].
    exact (applyUpdate_refreshed T input (clock n) (fun _ => eq_refl)).
  - unfold updateSubtask.
    destruct (findSubtask s e t u) as [[[E k T m] X v]|] eqn:Hf; [|discriminate].
    unfold bindM, timestamp, ret. simpl. intros [= <- <-].
    unfold findSubtask in Hf.
    destruct (findTask s e t) as [[E0 k0 T0 m0]|] eqn:Ht; simpl in Hf; [|discriminate].
    destruct (findIndex (hasId u) (subtasks T0)) as [v0|] eqn:Hi; simpl in Hf; [|discriminate].
    destruct (subtasks T0 !! v0) as [X0|] eqn:Hx; simpl in Hf; [|discriminate].
    injection Hf as -> -> -> -> -> ->.
    assert (Hp : hasId u (applyUpdate X input (clock n)) = hasId u X) by reflexivity.
    destruct (findIndex_insert _ _ _ _ _ Hi Hx Hp) as [H1 H2].
    eexists _, _. split; [simpl; rewrite ?Hi; simpl; rewrite ?Hx; reflexivity|]. unfold findSubtask.
    assert (Hid : id (fields (updateSubtaskInTask T v (applyUpdate X input (clock n)) (clock n))) = id (fields T)) by reflexivity.
    pose proof (findTask_updated s e t E k T m _ (clock n) Ht Hid) as Hu. simpl in * |- *. rewrite Hu.
    simpl. rewrite H1. simpl. rewrite H2. simpl. split; [reflexivity|].
    exact (applyUpdate_refreshed X input (clock n) (fun _ => eq_refl)).
  - unfold updateStandaloneTask.
    destruct (findStandaloneTask s t) as [[T k]|] eqn:Hf; [|discriminate].
    unfold bindM, timestamp, ret. simpl. intros [= <- <-].
    eexists _, _. split; [simpl; rewrite ?Hi; simpl; rewrite ?Hx; reflexivity|].
    assert (Hid : id (fields (applyUpdate T input (clock n))) = id (fields T)) by reflexivity.
    pose proof (findStandaloneTask_updated s t T k _ Hf Hid) as Hu. simpl in * |- *. rewrite Hu. split; [reflexivity|].
    exact (applyUpdate_refreshed T input (clock n) (fun _ => eq_refl)).
  - unfold updateStandaloneSubtask, standaloneSubtaskUpdate.
    destruct (findStandaloneTask s t) as [[T k]|] eqn:Hf; [|discriminate]. simpl.
    destruct (findIndex (hasId u) (subtasks T)) as [v|] eqn:Hi; [|discriminate].
    destruct (subtasks T !! v) as [X|] eqn:Hx; [|discriminate].
    unfold bindM, timestamp, ret. simpl. intros [= <- <-].
    assert (Hp : hasId u (applyUpdate X input (clock n)) = hasId u X) by reflexivity.
    destruct (findIndex_insert _ _ _ _ _ Hi Hx Hp) as [H1 H2].
    eexists _, _. split; [simpl; rewrite ?Hi; simpl; rewrite ?Hx; reflexivity|].
    pose (T' := mkTask (setUpdatedAt (fields T) (clock n)) (<[v := (applyUpdate X input (clock n))]> (subtasks T))).
    assert (Hid : id (fields T') = id (fields T)) by reflexivity.
    pose proof (findStandaloneTask_updated s t T k T' Hf Hid) as Hu. subst T'.
    simpl in * |- *. rewrite Hu.
    simpl. rewrite H1. simpl. rewrite H2. simpl. split; [reflexivity|].
    exact (applyUpdate_refreshed X input (clock n) (fun _ => eq_refl)).
Qed.

(** ** What unique ids give at a position of the tree *)

Ltac in_list := repeat (rewrite elem_of_cons || rewrite elem_of_app); auto 7.

Lemma concat_map_middle {A B} (f : A -> list B) (l1 l2 : list A) (x : A) :
  concat (map f (l1 ++ x :: l2)) = concat (map f l1) ++ f x ++ concat (map f l2).
Proof. now rewrite map_app, concat_app. Qed.

Lemma not_in_concat {A B} (f : A -> list B) (l : list A) (b : B) (x : A) :
  b ∉ concat (map f l) -> x ∈ l -> b ∉ f x.
Proof.
  intros Hb Hx Hbx. apply Hb. apply list_elem_of_In, in_concat.
  exists (f x). split; [apply in_map|]; now apply list_elem_of_In.
Qed.

Lemma absent_of_trees {T} `{Entity T} (ids : T -> list string) (i : string) (l : list T) :
  (forall x, id (fields x) ∈ ids x) -> i ∉ concat (map ids l) -> absent i l.
Proof.
  intros Hids Hi. apply List.Forall_forall. intros x Hx <-.
  apply list_elem_of_In in Hx. exact (not_in_concat ids l _ x Hi Hx (Hids x)).
Qed.

Lemma id_in_taskIds t : id (fields t) ∈ taskIds t.
Proof. unfold taskIds. apply list_elem_of_here. Qed.

Lemma id_in_epicIds e : id (fields e) ∈ epicIds e.
Proof. unfold epicIds. apply list_elem_of_here. Qed.

Lemma unique_epic s l1 E l2 :
  uniqueIds s -> epics s = l1 ++ E :: l2 ->
  NoDup (epicIds E) /\ forall i, i ∈ epicIds E -> i ∉ concat (map epicIds l1).
Proof.
  unfold uniqueIds, allIds. intros Hu He. rewrite He, concat_map_middle in Hu.
  rewrite <- !app_assoc in Hu.
  apply NoDup_app in Hu as (_ & Hl1 & Hu). apply NoDup_app in Hu as (HE & _ & _).
  split; [exact HE|]. intros i Hi Hi'. apply (Hl1 i Hi'). in_list.
Qed.

Lemma unique_task E t1 T t2 :
  NoDup (epicIds E) -> tasks E = t1 ++ T :: t2 ->
  NoDup (taskIds T) /\
  forall i, i ∈ taskIds T -> i <> id (fields E) /\ i ∉ concat (map taskIds t1).
Proof.
  unfold epicIds. intros Hu Ht. rewrite Ht, concat_map_middle in Hu.
  apply NoDup_cons in Hu as [HE Hu].
  apply NoDup_app in Hu as (_ & Ht1 & Hu). apply NoDup_app in Hu as (HT & _ & _).
  split; [exact HT|]. intros i Hi. split.
  - intros ->. apply HE. in_list.
  - intros Hi'. apply (Ht1 i Hi'). in_list.
Qed.

Lemma unique_subtask (T : Task) u1 (X : Subtask) u2 :
  NoDup (taskIds T) -> subtasks T = u1 ++ X :: u2 ->
  id (fields X) <> id (fields T) /\ absent (id (fields X)) u1.
Proof.
  unfold taskIds. intros Hu Hs. rewrite Hs, map_app in Hu. simpl in Hu.
  apply NoDup_cons in Hu as [HT Hu]. apply NoDup_app in Hu as (_ & Hu1 & _).
  split.
  - intros E. apply HT. simpl in *. rewrite <- E. in_list.
  - apply absent_ids. intros Hi. apply (Hu1 _ Hi). in_list.
Qed.

Lemma unique_standalone s t1 T t2 :
  uniqueIds s -> standalone s = Some (t1 ++ T :: t2) ->
  NoDup (taskIds T) /\
  forall i, i ∈ taskIds T ->
    (i ∉ concat (map epicIds (epics s))) /\ (i ∉ concat (map taskIds t1)).
Proof.
  unfold uniqueIds, allIds. intros Hu Hs. rewrite Hs in Hu. simpl in Hu.
  rewrite concat_map_middle in Hu.
  apply NoDup_app in Hu as (_ & He & Hu).
  apply NoDup_app in Hu as (_ & Ht1 & Hu). apply NoDup_app in Hu as (HT & _ & _).
  split; [exact HT|]. intros i Hi. split.
  - intros Hi'. apply (He i Hi'). in_list.
  - intros Hi'. apply (Ht1 i Hi'). in_list.
Qed.

Lemma subtask_in_taskIds (T : Task) u1 (X : Subtask) u2 :
  subtasks T = u1 ++ X :: u2 -> id (fields X) ∈ taskIds T.
Proof.
  intros Hs. unfold taskIds. rewrite Hs, map_app. simpl. in_list.
Qed.

Lemma taskIds_in_epicIds E t1 T t2 i :
  tasks E = t1 ++ T :: t2 -> i ∈ taskIds T -> i ∈ epicIds E.
Proof.
  intros Ht Hi. unfold epicIds. rewrite Ht, concat_map_middle. in_list.
Qed.

(** ** How markComplete and removeItem find an item *)

Ltac search_step :=
  cbn [markCompleteFrom findAndCompleteTaskFrom markCompleteStandaloneFrom
       from_option Datatypes.id].

Ltac same_id := unfold hasId at 1; rewrite String.eqb_refl.

Ltac other_id :=
  match goal with
  | |- context [hasId ?i ?x] =>
      replace (hasId i x) with false by (symmetry; apply hasId_false; congruence)
  end.

Section Search.
Variable clock : nat -> string.

Lemma not_in_taskIds i (t : Task) :
  i ∉ taskIds t -> hasId i t = false /\ absent i (subtasks t).
Proof.
  unfold taskIds. intros Hi. apply not_elem_of_cons in Hi as [Hne Hi]. split.
  - apply hasId_false. congruence.
  - now apply absent_ids.
Qed.

Lemma findAndCompleteTaskFrom_skip s e i ts rest n :
  i ∉ concat (map taskIds ts) ->
  findAndCompleteTaskFrom clock s e i (ts ++ rest) n =
  findAndCompleteTaskFrom clock s e i rest n.
Proof.
  induction ts as [|t ts IH]; [reflexivity|]. intros Hi.
  change (concat (map taskIds (t :: ts))) with (taskIds t ++ concat (map taskIds ts)) in Hi.
  simpl.
  apply not_elem_of_app in Hi as [Ht Hts].
  apply not_in_taskIds in Ht as [Hid Hsub]. rewrite Hid.
  unfold bindM, findAndCompleteSubtask. rewrite (find_absent i _ Hsub). simpl. auto.
Qed.

Lemma findAndRemoveTaskFrom_skip s e k i ts rest m n :
  i ∉ concat (map taskIds ts) ->
  findAndRemoveTaskFrom clock s e k i m (ts ++ rest) n =
  findAndRemoveTaskFrom clock s e k i (length ts + m) rest n.
Proof.
  revert m. induction ts as [|t ts IH]; intros m; [reflexivity|]. intros Hi.
  change (concat (map taskIds (t :: ts))) with (taskIds t ++ concat (map taskIds ts)) in Hi.
  simpl.
  apply not_elem_of_app in Hi as [Ht Hts].
  apply not_in_taskIds in Ht as [Hid Hsub]. rewrite Hid.
  unfold bindM, findAndRemoveSubtask. rewrite (findIndex_absent i _ Hsub). simpl.
  rewrite IH by assumption. f_equal. lia.
Qed.

Lemma not_in_epicIds i (e : Epic) :
  i ∉ epicIds e -> hasId i e = false /\ i ∉ concat (map taskIds (tasks e)).
Proof.
  unfold epicIds. intros Hi. apply not_elem_of_cons in Hi as [Hne Hi]. split; [|exact Hi].
  apply hasId_false. congruence.
Qed.

Lemma markCompleteFrom_skip s i es rest n :
  i ∉ concat (map epicIds es) ->
  markCompleteFrom clock s i (es ++ rest) n = markCompleteFrom clock s i rest n.
Proof.
  induction es as [|e es IH]; [reflexivity|]. intros Hi.
  change (concat (map epicIds (e :: es))) with (epicIds e ++ concat (map epicIds es)) in Hi.
  simpl.
  apply not_elem_of_app in Hi as [He Hes].
  apply not_in_epicIds in He as [Hid Hts]. rewrite Hid.
  unfold bindM, findAndCompleteTask.
  rewrite <- (app_nil_r (tasks e)), (findAndCompleteTaskFrom_skip s e i _ [] n Hts).
  simpl. auto.
Qed.

Lemma removeItemFrom_skip s i es rest m n :
  i ∉ concat (map epicIds es) ->
  removeItemFrom clock s i m (es ++ rest) n =
  removeItemFrom clock s i (length es + m) rest n.
Proof.
  revert m. induction es as [|e es IH]; intros m; [reflexivity|]. intros Hi.
  change (concat (map epicIds (e :: es))) with (epicIds e ++ concat (map epicIds es)) in Hi.
  simpl.
  apply not_elem_of_app in Hi as [He Hes].
  apply not_in_epicIds in He as [Hid Hts]. rewrite Hid.
  unfold bindM, findAndRemoveTask.
  rewrite <- (app_nil_r (tasks e)), (findAndRemoveTaskFrom_skip s e m i _ [] 0 n Hts).
  simpl. rewrite IH by assumption. f_equal. lia.
Qed.

Lemma markCompleteStandaloneFrom_skip s i ts rest n :
  i ∉ concat (map taskIds ts) ->
  markCompleteStandaloneFrom clock s i (ts ++ rest) n =
  markCompleteStandaloneFrom clock s i rest n.
Proof.
  induction ts as [|t ts IH]; [reflexivity|]. intros Hi.
  change (concat (map taskIds (t :: ts))) with (taskIds t ++ concat (map taskIds ts)) in Hi.
  simpl.
  apply not_elem_of_app in Hi as [Ht Hts].
  apply not_in_taskIds in Ht as [Hid Hsub]. rewrite Hid.
  unfold bindM, findAndCompleteStandaloneSubtask. rewrite (find_absent i _ Hsub). simpl. auto.
Qed.

(** With unique ids, markComplete on the id of an epic is the update of
    that epic. *)
Lemma markComplete_epic s l1 E l2 n :
  uniqueIds s -> epics s = l1 ++ E :: l2 ->
  markComplete clock s (id (fields E)) n =
  updateEpic clock s (id (fields E)) completedInput n.
Proof.
  intros Hu He. destruct (unique_epic s l1 E l2 Hu He) as [_ Hl1].
  unfold markComplete. rewrite He, markCompleteFrom_skip by apply Hl1, id_in_epicIds.
  search_step. same_id. reflexivity.
Qed.

(** ... on the id of a task of an epic, the completion of that task and
    its cascade ... *)
Lemma markComplete_task s l1 E l2 t1 T t2 n :
  uniqueIds s -> epics s = l1 ++ E :: l2 -> tasks E = t1 ++ T :: t2 ->
  markComplete clock s (id (fields T)) n =
  completeTaskAndCascade clock s (id (fields E)) (id (fields T)) n.
Proof.
  intros Hu He Ht. destruct (unique_epic s l1 E l2 Hu He) as [HE Hl1].
  destruct (unique_task E t1 T t2 HE Ht) as [_ HT].
  destruct (HT _ (id_in_taskIds T)) as [Hne Ht1].
  unfold markComplete. rewrite He, markCompleteFrom_skip
    by (apply Hl1; eapply taskIds_in_epicIds; [exact Ht | apply id_in_taskIds]).
  search_step. other_id.
  unfold bindM at 1. unfold findAndCompleteTask.
  rewrite Ht, findAndCompleteTaskFrom_skip by exact Ht1. search_step.
  same_id. unfold bindM at 1.
  now destruct (completeTaskAndCascade clock s _ _ n).
Qed.

(** ... and on the id of a subtask, the completion of that subtask and its
    cascade. *)
Lemma markComplete_subtask s l1 E l2 t1 T t2 u1 (X : Subtask) u2 n :
  uniqueIds s -> epics s = l1 ++ E :: l2 -> tasks E = t1 ++ T :: t2 ->
  subtasks T = u1 ++ X :: u2 ->
  markComplete clock s (id (fields X)) n =
  completeSubtaskAndCascade clock s (id (fields E)) (id (fields T)) (id (fields X)) n.
Proof.
  intros Hu He Ht Hx. destruct (unique_epic s l1 E l2 Hu He) as [HE Hl1].
  destruct (unique_task E t1 T t2 HE Ht) as [HTn HT].
  destruct (HT _ (subtask_in_taskIds T u1 X u2 Hx)) as [Hne Ht1].
  destruct (unique_subtask T u1 X u2 HTn Hx) as [HneT Hu1].
  unfold markComplete. rewrite He, markCompleteFrom_skip
    by (apply Hl1; eapply taskIds_in_epicIds; [exact Ht | eapply subtask_in_taskIds, Hx]).
  search_step. other_id.
  unfold bindM at 1. unfold findAndCompleteTask.
  rewrite Ht, findAndCompleteTaskFrom_skip by exact Ht1. search_step.
  other_id.
  unfold bindM at 1. unfold findAndCompleteSubtask.
  rewrite Hx, (find_at _ u1 X u2 Hu1 eq_refl). unfold bindM at 1.
  now destruct (completeSubtaskAndCascade clock s _ _ _ n).
Qed.

Lemma markComplete_standalone_task s t1 T t2 n :
  uniqueIds s -> standalone s = Some (t1 ++ T :: t2) ->
  markComplete clock s (id (fields T)) n =
  updateStandaloneTask clock s (id (fields T)) completedInput n.
Proof.
  intros Hu Hs. destruct (unique_standalone s t1 T t2 Hu Hs) as [_ HT].
  destruct (HT _ (id_in_taskIds T)) as [He Ht1].
  unfold markComplete. rewrite <- (app_nil_r (epics s)), markCompleteFrom_skip by exact He.
  search_step. rewrite Hs. search_step.
  rewrite markCompleteStandaloneFrom_skip by exact Ht1.
  search_step. same_id. reflexivity.
Qed.

Lemma markComplete_standalone_subtask s t1 T t2 u1 (X : Subtask) u2 n :
  uniqueIds s -> standalone s = Some (t1 ++ T :: t2) -> subtasks T = u1 ++ X :: u2 ->
  markComplete clock s (id (fields X)) n =
  completeStandaloneSubtaskAndCascade clock s (id (fields T)) (id (fields X)) n.
Proof.
  intros Hu Hs Hx. destruct (unique_standalone s t1 T t2 Hu Hs) as [HTn HT].
  destruct (HT _ (subtask_in_taskIds T u1 X u2 Hx)) as [He Ht1].
  destruct (unique_subtask T u1 X u2 HTn Hx) as [HneT Hu1].
  unfold markComplete. rewrite <- (app_nil_r (epics s)), markCompleteFrom_skip by exact He.
  search_step. rewrite Hs. search_step.
  rewrite markCompleteStandaloneFrom_skip by exact Ht1.
  search_step. other_id.
  unfold bindM at 1. unfold findAndCompleteStandaloneSubtask.
  rewrite Hx, (find_at _ u1 X u2 Hu1 eq_refl). unfold bindM at 1.
  now destruct (completeStandaloneSubtaskAndCascade clock s _ _ n).
Qed.

End Search.

Lemma unique_epic_absent s l1 E l2 :
  uniqueIds s -> epics s = l1 ++ E :: l2 -> absent (id (fields E)) l1.
Proof.
  intros Hu He. destruct (unique_epic s l1 E l2 Hu He) as [_ Hl1].
  apply (absent_of_trees epicIds); [exact id_in_epicIds | apply Hl1, id_in_epicIds].
Qed.

Lemma unique_task_absent E t1 T t2 :
  NoDup (epicIds E) -> tasks E = t1 ++ T :: t2 -> absent (id (fields T)) t1.
Proof.
  intros Hu Ht. destruct (unique_task E t1 T t2 Hu Ht) as [_ HT].
  apply (absent_of_trees taskIds); [exact id_in_taskIds | apply HT, id_in_taskIds].
Qed.

Lemma unique_standalone_absent s t1 T t2 :
  uniqueIds s -> standalone s = Some (t1 ++ T :: t2) -> absent (id (fields T)) t1.
Proof.
  intros Hu Hs. destruct (unique_standalone s t1 T t2 Hu Hs) as [_ HT].
  apply (absent_of_trees taskIds); [exact id_in_taskIds | apply HT, id_in_taskIds].
Qed.

(** ** The cascade of markComplete *)

Section Cascade.
Variable clock : nat -> string.

Lemma length_middle_eqb {A} (l1 l2 : list A) (x : A) : (length (l1 ++ x :: l2) =? 0)%nat = false.
Proof. rewrite length_app. simpl. apply Nat.eqb_neq. lia. Qed.

Lemma maybeCompleteEpic_at s l1 E l2 t1 T t2 n :
  epics s = l1 ++ E :: l2 -> absent (id (fields E)) l1 -> tasks E = t1 ++ T :: t2 ->
  maybeCompleteEpic clock s (id (fields E)) n =
  if forallb isCompleted (tasks E)
  then updateEpic clock s (id (fields E)) completedInput n
  else (Success s, n).
Proof.
  intros He Hl Ht. unfold maybeCompleteEpic.
  rewrite He, (find_at _ l1 E l2 Hl eq_refl), Ht, length_middle_eqb.
  now destruct (forallb isCompleted (t1 ++ T :: t2)).
Qed.

Lemma maybeCompleteTaskAndEpic_at s l1 E l2 t1 T t2 u1 (X : Subtask) u2 n :
  epics s = l1 ++ E :: l2 -> absent (id (fields E)) l1 ->
  tasks E = t1 ++ T :: t2 -> absent (id (fields T)) t1 ->
  subtasks T = u1 ++ X :: u2 ->
  maybeCompleteTaskAndEpic clock s (id (fields E)) (id (fields T)) n =
  if forallb isCompleted (subtasks T) && negb (isCompleted T)
  then completeTaskAndCascade clock s (id (fields E)) (id (fields T)) n
  else (Success s, n).
Proof.
  intros He Hl Ht Hl' Hx. unfold maybeCompleteTaskAndEpic.
  rewrite He, (find_at _ l1 E l2 Hl eq_refl). cbn [mbind option_bind].
  rewrite Ht, (find_at _ t1 T t2 Hl' eq_refl), Hx, length_middle_eqb.
  destruct (forallb isCompleted (u1 ++ X :: u2)), (isCompleted T); reflexivity.
Qed.

Lemma maybeCompleteStandaloneTask_at s t1 T t2 u1 (X : Subtask) u2 n :
  standalone s = Some (t1 ++ T :: t2) -> absent (id (fields T)) t1 ->
  subtasks T = u1 ++ X :: u2 ->
  maybeCompleteStandaloneTask clock s (id (fields T)) n =
  if forallb isCompleted (subtasks T) && negb (isCompleted T)
  then updateStandaloneTask clock s (id (fields T)) completedInput n
  else (Success s, n).
Proof.
  intros Hs Hl Hx. unfold maybeCompleteStandaloneTask.
  rewrite Hs. cbn [from_option Datatypes.id].
  rewrite (find_at _ t1 T t2 Hl eq_refl), Hx, length_middle_eqb.
  destruct (forallb isCompleted (u1 ++ X :: u2)), (isCompleted T); reflexivity.
Qed.

(** The completion of a task of an epic: the task is updated, and the epic
    too when all its tasks are then completed. *)
Lemma completeTaskAndCascade_at s l1 E l2 t1 T t2 n :
  epics s = l1 ++ E :: l2 -> absent (id (fields E)) l1 ->
  tasks E = t1 ++ T :: t2 -> absent (id (fields T)) t1 ->
  let T' := mkTask (completedAt (fields T) (clock n)) (subtasks T) in
  completeTaskAndCascade clock s (id (fields E)) (id (fields T)) n =
  if forallb isCompleted t1 && forallb isCompleted t2
  then (Success (mkState (version s)
          (l1 ++ mkEpic (completedAt (fields E) (clock (S n))) (t1 ++ T' :: t2) :: l2)
          (standalone s)), S (S n))
  else (Success (mkState (version s)
          (l1 ++ mkEpic (setUpdatedAt (fields E) (clock n)) (t1 ++ T' :: t2) :: l2)
          (standalone s)), S n).
Proof.
  intros He Hl Ht Hl' T'. unfold completeTaskAndCascade, bindM.
  rewrite (updateTask_at clock s l1 E l2 t1 T t2 _ _ completedInput n He Hl eq_refl Ht Hl' eq_refl).
  change (applyUpdate T completedInput (clock n)) with T'.
  set (E1 := mkEpic (setUpdatedAt (fields E) (clock n)) (t1 ++ T' :: t2)).
  set (s1 := mkState (version s) (l1 ++ E1 :: l2) (standalone s)).
  change (id (fields E)) with (id (fields E1)).
  rewrite (maybeCompleteEpic_at s1 l1 E1 l2 t1 T' t2 (S n) eq_refl Hl eq_refl).
  change (tasks E1) with (t1 ++ T' :: t2).
  rewrite forallb_app. cbn [forallb]. change (isCompleted T') with true.
  cbn [andb]. destruct (forallb isCompleted t1 && forallb isCompleted t2); [|reflexivity].
  assert (Hl1 : absent (id (fields E1)) l1) by exact Hl.
  now rewrite (updateEpic_at clock s1 l1 E1 l2 (id (fields E1)) completedInput (S n) eq_refl Hl1 eq_refl).
Qed.

(** The completion of a subtask: the subtask is updated, and its task is
    completed in turn when all its subtasks are then completed and it was
    not completed already. *)
Lemma completeSubtaskAndCascade_at s l1 E l2 t1 T t2 u1 (X : Subtask) u2 n :
  epics s = l1 ++ E :: l2 -> absent (id (fields E)) l1 ->
  tasks E = t1 ++ T :: t2 -> absent (id (fields T)) t1 ->
  subtasks T = u1 ++ X :: u2 -> absent (id (fields X)) u1 ->
  let X' := mkSubtask (completedAt (fields X) (clock n)) in
  let T1 := mkTask (setUpdatedAt (fields T) (clock n)) (u1 ++ X' :: u2) in
  let E1 := mkEpic (setUpdatedAt (fields E) (clock n)) (t1 ++ T1 :: t2) in
  let s1 := mkState (version s) (l1 ++ E1 :: l2) (standalone s) in
  completeSubtaskAndCascade clock s (id (fields E)) (id (fields T)) (id (fields X)) n =
  if forallb isCompleted u1 && forallb isCompleted u2 && negb (isCompleted T)
  then completeTaskAndCascade clock s1 (id (fields E1)) (id (fields T1)) (S n)
  else (Success s1, S n).
Proof.
  intros He Hl Ht Hl' Hx Hl'' X' T1 E1 s1. unfold completeSubtaskAndCascade, bindM.
  rewrite (updateSubtask_at clock s l1 E l2 t1 T t2 u1 X u2 _ _ _ completedInput n
             He Hl eq_refl Ht Hl' eq_refl Hx Hl'' eq_refl).
  change (applyUpdate X completedInput (clock n)) with X'. fold T1 E1 s1.
  assert (Hl1 : absent (id (fields E1)) l1) by exact Hl.
  assert (Hl1' : absent (id (fields T1)) t1) by exact Hl'.
  change (id (fields E)) with (id (fields E1)).
  change (id (fields T)) with (id (fields T1)).
  rewrite (maybeCompleteTaskAndEpic_at s1 l1 E1 l2 t1 T1 t2 u1 X' u2 (S n)
             eq_refl Hl1 eq_refl Hl1' eq_refl).
  change (subtasks T1) with (u1 ++ X' :: u2).
  rewrite forallb_app. cbn [forallb]. change (isCompleted X') with true.
  change (isCompleted T1) with (isCompleted T). cbn [andb]. reflexivity.
Qed.

Lemma completeStandaloneSubtaskAndCascade_at s t1 T t2 u1 (X : Subtask) u2 n :
  standalone s = Some (t1 ++ T :: t2) -> absent (id (fields T)) t1 ->
  subtasks T = u1 ++ X :: u2 -> absent (id (fields X)) u1 ->
  let X' := mkSubtask (completedAt (fields X) (clock n)) in
  let T1 := mkTask (setUpdatedAt (fields T) (clock n)) (u1 ++ X' :: u2) in
  let s1 := mkState (version s) (epics s) (Some (t1 ++ T1 :: t2)) in
  completeStandaloneSubtaskAndCascade clock s (id (fields T)) (id (fields X)) n =
  if forallb isCompleted u1 && forallb isCompleted u2 && negb (isCompleted T)
  then (Success (mkState (version s) (epics s)
          (Some (t1 ++ mkTask (completedAt (fields T) (clock (S n))) (u1 ++ X' :: u2) :: t2))),
        S (S n))
  else (Success s1, S n).
Proof.
  intros Hs Hl Hx Hl' X' T1 s1. unfold completeStandaloneSubtaskAndCascade, bindM.
  rewrite (standaloneSubtaskUpdate_at clock s t1 T t2 u1 X u2 _ _ completedInput n
             Hs Hl eq_refl Hx Hl' eq_refl).
  change (applyUpdate X completedInput (clock n)) with X'. fold T1 s1.
  assert (Hl1 : absent (id (fields T1)) t1) by exact Hl.
  change (id (fields T)) with (id (fields T1)).
  rewrite (maybeCompleteStandaloneTask_at s1 t1 T1 t2 u1 X' u2 (S n) eq_refl Hl1 eq_refl).
  change (subtasks T1) with (u1 ++ X' :: u2).
  rewrite forallb_app. cbn [forallb]. change (isCompleted X') with true.
  change (isCompleted T1) with (isCompleted T). cbn [andb].
  destruct (forallb isCompleted u1 && forallb isCompleted u2 && negb (isCompleted T));
    [|reflexivity].
  now rewrite (updateStandaloneTask_at clock s1 t1 T1 t2 (id (fields T1)) completedInput (S n)
                 eq_refl Hl1 eq_refl).
Qed.

End Cascade.

(** ** markComplete and removeItem on a state with unique ids *)

Lemma forallb_completed {T} `{Entity T} (l : list T) :
  Forall (fun x => status (fields x) = completed) l -> forallb isCompleted l = true.
Proof.
  intros Hl. apply forallb_forall. intros x Hx. unfold isCompleted.
  apply bool_decide_eq_true. rewrite List.Forall_forall in Hl. auto.
Qed.

Lemma forallb_not_completed {T} `{Entity T} (l : list T) (x : T) :
  In x l -> status (fields x) <> completed -> forallb isCompleted l = false.
Proof.
  intros Hx Hs. destruct (forallb isCompleted l) eqn:E; [|reflexivity].
  rewrite forallb_forall in E. specialize (E x Hx). unfold isCompleted in E.
  now apply bool_decide_eq_true in E.
Qed.

Lemma isCompleted_false {T} `{Entity T} (x : T) :
  status (fields x) <> completed -> isCompleted x = false.
Proof. intros Hs. unfold isCompleted. now apply bool_decide_eq_false. Qed.

Lemma isCompleted_true {T} `{Entity T} (x : T) :
  status (fields x) = completed -> isCompleted x = true.
Proof. intros Hs. unfold isCompleted. now apply bool_decide_eq_true. Qed.

(** C4, amended: in a state with unique ids where epic E holds the single
    task T, not completed already, which holds the single subtask X,
    markComplete on the id of X succeeds, reads the clock three times and
    returns the state where X, T and E are completed, each with
    [completed_at] (and [updated_at]) set to the reading of its own update;
    nothing else changes. *)
Theorem C4_cascade_completes_all clock s l1 E l2 T (X : Subtask) n :
  uniqueIds s -> epics s = l1 ++ E :: l2 -> tasks E = [T] -> subtasks T = [X] ->
  status (fields T) <> completed ->
  markComplete clock s (id (fields X)) n =
  (Success (mkState (version s)
     (l1 ++ mkEpic (completedAt (fields E) (clock (2 + n)))
              [mkTask (completedAt (fields T) (clock (1 + n)))
                 [mkSubtask (completedAt (fields X) (clock n))]] :: l2)
     (standalone s)), 3 + n).
Proof.
  intros Hu He Ht Hx HT.
  assert (Hl := unique_epic_absent s l1 E l2 Hu He).
  destruct (unique_epic s l1 E l2 Hu He) as [HE _].
  rewrite (markComplete_subtask clock s l1 E l2 [] T [] [] X [] n Hu He Ht Hx).
  rewrite (completeSubtaskAndCascade_at clock s l1 E l2 [] T [] [] X [] n He Hl Ht
             (List.Forall_nil _) Hx (List.Forall_nil _)).
  rewrite (isCompleted_false T HT). cbn [forallb andb negb].
  set (X' := mkSubtask (completedAt (fields X) (clock n))).
  set (T1 := mkTask (setUpdatedAt (fields T) (clock n)) ([] ++ [X'])).
  set (E1 := mkEpic (setUpdatedAt (fields E) (clock n)) ([] ++ [T1])).
  set (s1 := mkState (version s) (l1 ++ E1 :: l2) (standalone s)).
  assert (Hl1 : absent (id (fields E1)) l1) by exact Hl.
  rewrite (completeTaskAndCascade_at clock s1 l1 E1 l2 [] T1 [] (S n) eq_refl Hl1 eq_refl
             (List.Forall_nil _)).
  reflexivity.
Qed.

(** C5: in a state with unique ids where epic E holds the task T1 and a
    task T2 that is not completed, and every subtask of T1 other than X is
    completed, markComplete on the id of X succeeds and returns a state
    where T1 is completed and E has the status (and the [completed_at]) it
    had. *)
Theorem C5_partial_cascade clock s l1 E l2 t1 T1 t2 u1 (X : Subtask) u2 T2 n :
  uniqueIds s -> epics s = l1 ++ E :: l2 -> tasks E = t1 ++ T1 :: t2 ->
  subtasks T1 = u1 ++ X :: u2 ->
  Forall (fun x => status (fields x) = completed) (u1 ++ u2) ->
  In T2 (t1 ++ t2) -> status (fields T2) <> completed ->
  exists s' n' E' T1',
    markComplete clock s (id (fields X)) n = (Success s', n') /\
    epics s' = l1 ++ E' :: l2 /\ tasks E' = t1 ++ T1' :: t2 /\
    id (fields T1') = id (fields T1) /\ status (fields T1') = completed /\
    id (fields E') = id (fields E) /\ status (fields E') = status (fields E) /\
    completed_at (fields E') = completed_at (fields E).
Proof.
  intros Hu He Ht Hx Hall HT2 HT2s.
  assert (Hl := unique_epic_absent s l1 E l2 Hu He).
  destruct (unique_epic s l1 E l2 Hu He) as [HE _].
  assert (Hl' := unique_task_absent E t1 T1 t2 HE Ht).
  destruct (unique_task E t1 T1 t2 HE Ht) as [HT _].
  destruct (unique_subtask T1 u1 X u2 HT Hx) as [_ Hl''].
  rewrite (markComplete_subtask clock s l1 E l2 t1 T1 t2 u1 X u2 n Hu He Ht Hx).
  rewrite (completeSubtaskAndCascade_at clock s l1 E l2 t1 T1 t2 u1 X u2 n He Hl Ht Hl' Hx Hl'').
  apply Forall_app in Hall as [Hu1 Hu2].
  rewrite (forallb_completed u1 Hu1), (forallb_completed u2 Hu2). cbn [andb].
  set (X' := mkSubtask (completedAt (fields X) (clock n))).
  set (T1a := mkTask (setUpdatedAt (fields T1) (clock n)) (u1 ++ X' :: u2)).
  set (E1 := mkEpic (setUpdatedAt (fields E) (clock n)) (t1 ++ T1a :: t2)).
  destruct (isCompleted T1) eqn:Hc; cbn [negb].
  - eexists _, _, E1, T1a. split; [reflexivity|]. repeat split.
    unfold isCompleted in Hc. now apply bool_decide_eq_true in Hc.
  - set (s1 := mkState (version s) (l1 ++ E1 :: l2) (standalone s)).
    assert (Hl1 : absent (id (fields E1)) l1) by exact Hl.
    assert (Hl1' : absent (id (fields T1a)) t1) by exact Hl'.
    rewrite (completeTaskAndCascade_at clock s1 l1 E1 l2 t1 T1a t2 (S n) eq_refl Hl1 eq_refl Hl1').
    assert (Hno : forallb isCompleted t1 && forallb isCompleted t2 = false).
    { rewrite <- forallb_app. exact (forallb_not_completed _ T2 HT2 HT2s). }
    rewrite Hno. eexists _, _, _, _. split; [reflexivity|]. repeat split.
Qed.

(** C8: in a state with unique ids, removeItem on the id of task T of epic
    E succeeds and returns the input state where E has lost T (with T's
    subtasks) from its task list and has [updated_at] set to the reading of
    the clock; E's other attributes, the other epics and the standalone
    tasks are as they were. *)
Theorem C8_removeItem_task clock s l1 E l2 t1 T t2 n :
  uniqueIds s -> epics s = l1 ++ E :: l2 -> tasks E = t1 ++ T :: t2 ->
  removeItem clock s (id (fields T)) n =
  (Success (mkState (version s)
     (l1 ++ mkEpic (setUpdatedAt (fields E) (clock n)) (t1 ++ t2) :: l2)
     (standalone s)), S n).
Proof.
  intros Hu He Ht. destruct (unique_epic s l1 E l2 Hu He) as [HE Hl1].
  destruct (unique_task E t1 T t2 HE Ht) as [_ HT].
  destruct (HT _ (id_in_taskIds T)) as [Hne Ht1].
  unfold removeItem. rewrite He, removeItemFrom_skip
    by (apply Hl1; eapply taskIds_in_epicIds; [exact Ht | apply id_in_taskIds]).
  cbn [removeItemFrom]. other_id.
  unfold bindM at 1. unfold findAndRemoveTask.
  rewrite Ht, findAndRemoveTaskFrom_skip by exact Ht1. cbn [findAndRemoveTaskFrom].
  same_id. unfold bindM, removeTask, timestamp, ret, updateEpicInState, bindM.
  rewrite !Nat.add_0_r, Ht, He, delete_at, insert_at. reflexivity.
Qed.

(** C9: in a state with unique ids, markComplete on the id of epic E
    succeeds whatever the status of E's tasks, and returns the input state
    where only E's status, [updated_at] and [completed_at] have changed: E
    keeps its tasks, with their subtasks, exactly as they were, and every
    other epic and standalone task is untouched. *)
Theorem C9_markComplete_epic_only clock s l1 E l2 n :
  uniqueIds s -> epics s = l1 ++ E :: l2 ->
  markComplete clock s (id (fields E)) n =
  (Success (mkState (version s)
     (l1 ++ mkEpic (completedAt (fields E) (clock n)) (tasks E) :: l2)
     (standalone s)), S n).
Proof.
  intros Hu He. rewrite (markComplete_epic clock s l1 E l2 n Hu He).
  exact (updateEpic_at clock s l1 E l2 _ completedInput n He
           (unique_epic_absent s l1 E l2 Hu He) eq_refl).
Qed.

(** C10: in a state with unique ids, markComplete on the id of an item
    that is completed already (an epic, a task or a subtask, nested or
    standalone) succeeds and returns a state where that item has
    [updated_at] and [completed_at] overwritten with the first reading of
    the clock.  When the item is a subtask whose task is completed already,
    the cascade stops there: the result is the subtask update alone, which
    leaves the task's status and [completed_at], and the epic's, as they
    were. *)
Theorem C10_markComplete_again clock s n :
  uniqueIds s ->
  (forall f, ItemAt s f -> status f = completed ->
     exists s' n', markComplete clock s (id f) n = (Success s', n') /\
                   ItemAt s' (completedAt f (clock n))) /\
  (forall l1 E l2 t1 T t2 u1 (X : Subtask) u2,
     epics s = l1 ++ E :: l2 -> tasks E = t1 ++ T :: t2 -> subtasks T = u1 ++ X :: u2 ->
     status (fields T) = completed ->
     markComplete clock s (id (fields X)) n =
     (Success (mkState (version s)
        (l1 ++ mkEpic (setUpdatedAt (fields E) (clock n))
                 (t1 ++ mkTask (setUpdatedAt (fields T) (clock n))
                          (u1 ++ mkSubtask (completedAt (fields X) (clock n)) :: u2) :: t2)
            :: l2)
        (standalone s)), S n)) /\
  (forall t1 T t2 u1 (X : Subtask) u2,
     standalone s = Some (t1 ++ T :: t2) -> subtasks T = u1 ++ X :: u2 ->
     status (fields T) = completed ->
     markComplete clock s (id (fields X)) n =
     (Success (mkState (version s) (epics s)
        (Some (t1 ++ mkTask (setUpdatedAt (fields T) (clock n))
                       (u1 ++ mkSubtask (completedAt (fields X) (clock n)) :: u2) :: t2))),
      S n)).
Proof.
  intros Hu. split; [|split].
  - intros f Hf _. destruct Hf as [l1 E l2 He | l1 E l2 t1 T t2 He Ht
      | l1 E l2 t1 T t2 u1 X u2 He Ht Hx | t1 T t2 Hs | t1 T t2 u1 X u2 Hs Hx].
    + rewrite (markComplete_epic clock s l1 E l2 n Hu He).
      rewrite (updateEpic_at clock s l1 E l2 _ completedInput n He
                 (unique_epic_absent s l1 E l2 Hu He) eq_refl).
      eexists _, _. split; [reflexivity|].
      refine (ItemAt_epic _ l1 (mkEpic (completedAt (fields E) (clock n)) (tasks E)) l2 _); reflexivity.
    + assert (Hl := unique_epic_absent s l1 E l2 Hu He).
      destruct (unique_epic s l1 E l2 Hu He) as [HE _].
      assert (Hl' := unique_task_absent E t1 T t2 HE Ht).
      rewrite (markComplete_task clock s l1 E l2 t1 T t2 n Hu He Ht).
      rewrite (completeTaskAndCascade_at clock s l1 E l2 t1 T t2 n He Hl Ht Hl').
      destruct (forallb isCompleted t1 && forallb isCompleted t2);
        (eexists _, _; split; [reflexivity|]);
        refine (ItemAt_task _ l1 _ l2 t1
                 (mkTask (completedAt (fields T) (clock n)) (subtasks T)) t2 _ _); reflexivity.
    + assert (Hl := unique_epic_absent s l1 E l2 Hu He).
      destruct (unique_epic s l1 E l2 Hu He) as [HE _].
      assert (Hl' := unique_task_absent E t1 T t2 HE Ht).
      destruct (unique_task E t1 T t2 HE Ht) as [HT _].
      destruct (unique_subtask T u1 X u2 HT Hx) as [_ Hl''].
      rewrite (markComplete_subtask clock s l1 E l2 t1 T t2 u1 X u2 n Hu He Ht Hx).
      rewrite (completeSubtaskAndCascade_at clock s l1 E l2 t1 T t2 u1 X u2 n
                 He Hl Ht Hl' Hx Hl'').
      set (X' := mkSubtask (completedAt (fields X) (clock n))).
      set (T1 := mkTask (setUpdatedAt (fields T) (clock n)) (u1 ++ X' :: u2)).
      set (E1 := mkEpic (setUpdatedAt (fields E) (clock n)) (t1 ++ T1 :: t2)).
      set (s1 := mkState (version s) (l1 ++ E1 :: l2) (standalone s)).
      destruct (forallb isCompleted u1 && forallb isCompleted u2 && negb (isCompleted T)).
      * assert (Hl1 : absent (id (fields E1)) l1) by exact Hl.
        assert (Hl1' : absent (id (fields T1)) t1) by exact Hl'.
        rewrite (completeTaskAndCascade_at clock s1 l1 E1 l2 t1 T1 t2 (S n)
                   eq_refl Hl1 eq_refl Hl1').
        destruct (forallb isCompleted t1 && forallb isCompleted t2);
          (eexists _, _; split; [reflexivity|]);
          refine (ItemAt_subtask _ l1 _ l2 t1 _ t2 u1 X' u2 _ _ _); reflexivity.
      * eexists _, _. split; [reflexivity|].
        refine (ItemAt_subtask s1 l1 E1 l2 t1 T1 t2 u1 X' u2 _ _ _); reflexivity.
    + rewrite (markComplete_standalone_task clock s t1 T t2 n Hu Hs).
      rewrite (updateStandaloneTask_at clock s t1 T t2 _ completedInput n Hs
                 (unique_standalone_absent s t1 T t2 Hu Hs) eq_refl).
      eexists _, _. split; [reflexivity|].
      refine (ItemAt_standalone_task _ t1
               (mkTask (completedAt (fields T) (clock n)) (subtasks T)) t2 _); reflexivity.
    + assert (Hl := unique_standalone_absent s t1 T t2 Hu Hs).
      destruct (unique_standalone s t1 T t2 Hu Hs) as [HT _].
      destruct (unique_subtask T u1 X u2 HT Hx) as [_ Hl'].
      rewrite (markComplete_standalone_subtask clock s t1 T t2 u1 X u2 n Hu Hs Hx).
      rewrite (completeStandaloneSubtaskAndCascade_at clock s t1 T t2 u1 X u2 n Hs Hl Hx Hl').
      set (X' := mkSubtask (completedAt (fields X) (clock n))).
      destruct (forallb isCompleted u1 && forallb isCompleted u2 && negb (isCompleted T));
        (eexists _, _; split; [reflexivity|]);
        refine (ItemAt_standalone_subtask _ t1 _ t2 u1 X' u2 _ _); reflexivity.
  - intros l1 E l2 t1 T t2 u1 X u2 He Ht Hx HT.
    assert (Hl := unique_epic_absent s l1 E l2 Hu He).
    destruct (unique_epic s l1 E l2 Hu He) as [HE _].
    assert (Hl' := unique_task_absent E t1 T t2 HE Ht).
    destruct (unique_task E t1 T t2 HE Ht) as [HTn _].
    destruct (unique_subtask T u1 X u2 HTn Hx) as [_ Hl''].
    rewrite (markComplete_subtask clock s l1 E l2 t1 T t2 u1 X u2 n Hu He Ht Hx).
    rewrite (completeSubtaskAndCascade_at clock s l1 E l2 t1 T t2 u1 X u2 n
               He Hl Ht Hl' Hx Hl'').
    rewrite (isCompleted_true T HT), andb_false_r. reflexivity.
  - intros t1 T t2 u1 X u2 Hs Hx HT.
    assert (Hl := unique_standalone_absent s t1 T t2 Hu Hs).
    destruct (unique_standalone s t1 T t2 Hu Hs) as [HTn _].
    destruct (unique_subtask T u1 X u2 HTn Hx) as [_ Hl'].
    rewrite (markComplete_standalone_subtask clock s t1 T t2 u1 X u2 n Hu Hs Hx).
    rewrite (completeStandaloneSubtaskAndCascade_at clock s t1 T t2 u1 X u2 n Hs Hl Hx Hl').
    rewrite (isCompleted_true T HT), andb_false_r. reflexivity.
Qed.

(** ** The theorems at concrete states *)

Ltac unique_ids := unfold uniqueIds; apply (bool_decide_unpack _); vm_compute; exact I.

(** C4 as stated fails: in [stateTaskDone] the epic e1 holds the one task
    t1, which holds the one subtask s1, and ids are unique; the task is
    completed already, so markComplete on s1 stops after the subtask and the
    epic stays pending with no [completed_at]. *)
Lemma C4_counterexample :
  uniqueIds stateTaskDone /\
  epics stateTaskDone = [epicOfTaskDone] /\ tasks epicOfTaskDone = [taskDone] /\
  subtasks taskDone = [subPending] /\
  exists s' E',
    markComplete demoClock stateTaskDone (id (fields subPending)) 0 = (Success s', 1%nat) /\
    epics s' = [E'] /\ status (fields E') = pending /\ completed_at (fields E') = None.
Proof.
  split; [unique_ids|]. repeat (split; [reflexivity|]).
  eexists _, _. split; [vm_compute; reflexivity|]. repeat split.
Qed.

(** The cascade on [statePending]: three readings of the clock, three
    completions. *)
Lemma C4_cascade_witness :
  uniqueIds statePending /\ status (fields taskPending) <> completed /\
  markComplete demoClock statePending "s1" 0 =
  (Success (mkState 1
     [mkEpic (completedAt (fields epicPending) (demoClock 2))
        [mkTask (completedAt (fields taskPending) (demoClock 1))
           [mkSubtask (completedAt (fields subPending) (demoClock 0))]]]
     (Some [])), 3%nat).
Proof.
  assert (Hu : uniqueIds statePending) by unique_ids.
  split; [exact Hu|]. split; [discriminate|].
  exact (C4_cascade_completes_all demoClock statePending [] epicPending [] taskPending
           subPending 0 Hu eq_refl eq_refl eq_refl ltac:(discriminate)).
Defined.

(** The partial cascade on [stateTwoTasks]: t1 is completed, e1 stays
    pending because t2 is. *)
Lemma C5_partial_cascade_witness :
  uniqueIds stateTwoTasks /\ In taskOther [taskOther] /\
  status (fields taskOther) <> completed /\
  exists s' n' E' T1',
    markComplete demoClock stateTwoTasks "s1" 0 = (Success s', n') /\
    epics s' = [E'] /\ tasks E' = [T1'; taskOther] /\
    id (fields T1') = "t1" /\ status (fields T1') = completed /\
    id (fields E') = "e1" /\ status (fields E') = pending /\
    completed_at (fields E') = None.
Proof.
  assert (Hu : uniqueIds stateTwoTasks) by unique_ids.
  split; [exact Hu|]. split; [now left|]. split; [discriminate|].
  exact (C5_partial_cascade demoClock stateTwoTasks [] epicTwoTasks [] [] taskPending
           [taskOther] [] subPending [] taskOther 0 Hu eq_refl eq_refl eq_refl
           (List.Forall_nil _) (or_introl eq_refl) ltac:(discriminate)).
Defined.

(** updateEpic moves the completed epic of [stateEpicDone] back to
    in_progress: [updated_at] is refreshed, [completed_at] is kept. *)
Lemma C7_update_timestamps_witness :
  exists s',
    runUpdate demoClock (OpEpic "e1") stateEpicDone inputReopen 0 = (Success s', 1%nat) /\
    exists old new,
      itemOf (OpEpic "e1") stateEpicDone = Some old /\
      itemOf (OpEpic "e1") s' = Some new /\
      refreshed old new inputReopen (demoClock 0).
Proof.
  eexists. split; [vm_compute; reflexivity|].
  apply (C7_update_timestamps demoClock (OpEpic "e1") stateEpicDone inputReopen 0 _ 1).
  vm_compute. reflexivity.
Defined.

(** removeItem on t2 of [stateTwoTasks] leaves e1 with t1 alone. *)
Lemma C8_removeItem_task_witness :
  uniqueIds stateTwoTasks /\
  removeItem demoClock stateTwoTasks "t2" 0 =
  (Success (mkState 1
     [mkEpic (setUpdatedAt (fields epicTwoTasks) (demoClock 0)) [taskPending]] (Some [])),
   1%nat).
Proof.
  assert (Hu : uniqueIds stateTwoTasks) by unique_ids.
  split; [exact Hu|].
  exact (C8_removeItem_task demoClock stateTwoTasks [] epicTwoTasks [] [taskPending]
           taskOther [] 0 Hu eq_refl eq_refl).
Defined.

(** markComplete on e1 of [stateTwoTasks], whose tasks are pending,
    completes e1 and leaves both tasks as they were. *)
Lemma C9_markComplete_epic_only_witness :
  uniqueIds stateTwoTasks /\
  markComplete demoClock stateTwoTasks "e1" 0 =
  (Success (mkState 1
     [mkEpic (completedAt (fields epicTwoTasks) (demoClock 0)) [taskPending; taskOther]]
     (Some [])), 1%nat).
Proof.
  assert (Hu : uniqueIds stateTwoTasks) by unique_ids.
  split; [exact Hu|].
  exact (C9_markComplete_epic_only demoClock stateTwoTasks [] epicTwoTasks [] 0 Hu eq_refl).
Defined.

(** markComplete on the completed epic of [stateEpicDone] overwrites its
    [completed_at] of 2024-01-02 with the reading of the clock. *)
Lemma C10_markComplete_again_witness :
  uniqueIds stateEpicDone /\ status (fields epicDone) = completed /\
  completed_at (fields epicDone) = Some "2024-01-02T00:00:00.000Z" /\
  exists s' n',
    markComplete demoClock stateEpicDone "e1" 0 = (Success s', n') /\
    ItemAt s' (completedAt (fields epicDone) "2024-02-01T00:00:00.000Z").
Proof.
  assert (Hu : uniqueIds stateEpicDone) by unique_ids.
  split; [exact Hu|]. split; [reflexivity|]. split; [reflexivity|].
  exact (proj1 (C10_markComplete_again demoClock stateEpicDone 0 Hu) (fields epicDone)
           (ItemAt_epic stateEpicDone [] epicDone [] eq_refl) eq_refl).
Defined.

(** ** Cycle detection *)

Section DetectCycle.
Variable depsMap : gmap string (list string).

Lemma visitDeps_total recur i ds visited :
  i ∉ visited ->
  (forall d, In d ds -> Restores (recur d (default [] (depsMap !! d)) ({[i]} ∪ visited))
                          ({[i]} ∪ visited)) ->
  Restores (visitDeps recur depsMap i ds ({[i]} ∪ visited)) visited.
Proof.
  intros Hi. induction ds as [|d ds IH]; intros Hrec; simpl.
  - exists false, (({[i]} ∪ visited) ∖ {[i]}). split; [reflexivity|]. intros _.
    apply set_eq. intros x. rewrite elem_of_difference, elem_of_union, !elem_of_singleton.
    split; [tauto|]. intros Hx. split; [tauto|]. congruence.
  - destruct (Hrec d (or_introl eq_refl)) as (b & v & -> & Hv). destruct b.
    + exists true, v. split; [reflexivity|discriminate].
    + rewrite (Hv eq_refl). apply IH. intros d' Hd'. apply Hrec. now right.
Qed.

Lemma visitDeps_true recur i ds visited d v :
  i ∉ visited -> In d ds ->
  (forall d', In d' ds -> Restores (recur d' (default [] (depsMap !! d')) ({[i]} ∪ visited))
                            ({[i]} ∪ visited)) ->
  recur d (default [] (depsMap !! d)) ({[i]} ∪ visited) = Some (true, v) ->
  exists v', visitDeps recur depsMap i ds ({[i]} ∪ visited) = Some (true, v').
Proof.
  intros Hi Hd Hrec Htrue. induction ds as [|d0 ds IH]; simpl; [destruct Hd|].
  destruct (Hrec d0 (or_introl eq_refl)) as (b & v0 & E & Hv). rewrite E. destruct b.
  - eauto.
  - rewrite (Hv eq_refl). destruct Hd as [->|Hd].
    + rewrite Htrue in E. discriminate.
    + apply IH; [exact Hd|]. intros d' Hd'. apply Hrec. now right.
Qed.

Lemma room_enter i visited :
  i ∈ dom depsMap -> i ∉ visited -> (room depsMap ({[i]} ∪ visited) < room depsMap visited)%nat.
Proof.
  intros Hi Hv. unfold room. apply subset_size. split.
  - intros x. rewrite !elem_of_difference, elem_of_union. tauto.
  - intros Hsub. specialize (Hsub i). rewrite !elem_of_difference, elem_of_union in Hsub.
    destruct Hsub as [_ Hn]; [tauto|]. apply Hn. left. now apply elem_of_singleton.
Qed.

Lemma known_dep d : d ∈ dom depsMap \/ default [] (depsMap !! d) = [].
Proof.
  destruct (depsMap !! d) as [ds|] eqn:E; [left|right; reflexivity].
  apply elem_of_dom. eauto.
Qed.

(** detectCycle returns when its fuel exceeds the number of ids it may
    still enter. *)
Lemma detectCycle_total fuel : forall i ds visited,
  i ∈ dom depsMap \/ ds = [] -> (room depsMap visited < fuel)%nat ->
  Restores (detectCycle fuel i ds depsMap visited) visited.
Proof.
  induction fuel as [|fuel IH]; intros i ds visited Hi Hfuel; [lia|]. simpl.
  case_bool_decide as Hv.
  - exists true, visited. split; [reflexivity|discriminate].
  - apply visitDeps_total; [exact Hv|]. intros d Hd. apply IH; [apply known_dep|].
    destruct Hi as [Hi| ->]; [|destruct Hd].
    pose proof (room_enter i visited Hi Hv). lia.
Qed.

(** A traversal that revisits an id of its active stack is answered
    [true]. *)
Lemma detectCycle_revisits stack i ds :
  Revisits depsMap stack i ds ->
  forall fuel, i ∈ dom depsMap \/ ds = [] -> (room depsMap stack < fuel)%nat ->
  exists v, detectCycle fuel i ds depsMap stack = Some (true, v).
Proof.
  induction 1 as [stack i ds Hi | stack i ds d Hi Hd Hrev IH]; intros fuel Hk Hfuel.
  - destruct fuel as [|fuel]; [lia|]. simpl. rewrite bool_decide_eq_true_2 by exact Hi. eauto.
  - destruct fuel as [|fuel]; [lia|]. simpl. rewrite bool_decide_eq_false_2 by exact Hi.
    destruct Hk as [Hk| ->]; [|destruct Hd].
    pose proof (room_enter i stack Hk Hi) as Hroom.
    destruct (IH fuel (known_dep d)) as [v Hv]; [lia|].
    apply (visitDeps_true _ i ds stack d v Hi Hd); [|exact Hv].
    intros d' Hd'. apply detectCycle_total; [apply known_dep | lia].
Qed.

End DetectCycle.

(** ** The map of deps and checkCycles *)

Section DepsMap.
Context {T : Type} `{Entity T}.

Lemma foldl_setDeps_dom (items : list T) : forall m k,
  k ∈ dom m \/ In k (map (fun x => id (fields x)) items) ->
  k ∈ dom (foldl setDeps m items).
Proof.
  induction items as [|a items IH]; intros m k; simpl.
  - intros [Hk|[]]. exact Hk.
  - intros Hk. apply IH. unfold setDeps at 1. rewrite dom_insert_L, elem_of_union, elem_of_singleton.
    destruct Hk as [Hk|[Hk|Hk]]; auto.
Qed.

Lemma foldl_setDeps_size (items : list T) : forall m,
  (size (foldl setDeps m items) <= size m + length items)%nat.
Proof.
  induction items as [|a items IH]; intros m; simpl; [lia|].
  specialize (IH (setDeps m a)).
  assert (Hs : (size (setDeps m a) <= S (size m))%nat).
  { unfold setDeps. rewrite map_size_insert. destruct (m !! id (fields a)); simpl; lia. }
  lia.
Qed.

Lemma foldl_setDeps_other (items : list T) : forall m k,
  ~ In k (map (fun x => id (fields x)) items) -> foldl setDeps m items !! k = m !! k.
Proof.
  induction items as [|a items IH]; intros m k Hk; simpl; [reflexivity|].
  simpl in Hk. rewrite IH by tauto. unfold setDeps. apply lookup_insert_ne. tauto.
Qed.

Lemma foldl_setDeps_lookup (items : list T) : forall m x,
  List.NoDup (map (fun x => id (fields x)) items) -> In x items ->
  foldl setDeps m items !! id (fields x) = Some (default [] (deps (fields x))).
Proof.
  induction items as [|a items IH]; intros m x Hnd Hx; simpl; [destruct Hx|].
  simpl in Hnd. apply List.NoDup_cons_iff in Hnd as [Ha Hnd]. destruct Hx as [->|Hx].
  - rewrite foldl_setDeps_other by exact Ha. unfold setDeps. apply lookup_insert_eq.
  - now apply IH.
Qed.

Lemma buildDepsMap_room (items : list T) : (room (buildDepsMap items) ∅ < S (length items))%nat.
Proof.
  unfold room, buildDepsMap.
  pose proof (foldl_setDeps_size items ∅) as Hs. rewrite map_size_empty in Hs.
  assert (Hsub : dom (foldl setDeps ∅ items) ∖ ∅ ⊆ dom (foldl setDeps ∅ items)).
  { intros k. rewrite elem_of_difference. tauto. }
  apply subseteq_size in Hsub. rewrite size_dom in Hsub. lia.
Qed.

(** One call of checkCycles: an item of the list whose traversal revisits
    an id of the active stack gets the warning. *)
Lemma checkCycles_reports (items : list T) (typeLabel : string) (x : T) ds :
  In x items -> deps (fields x) = Some ds ->
  Revisits (buildDepsMap items) ∅ (id (fields x)) ds ->
  In (cycleWarning typeLabel x) (checkCycles items typeLabel).
Proof.
  intros Hx Hds Hrev. unfold checkCycles. apply in_concat.
  eexists. split; [apply in_map; exact Hx|]. cbv beta. rewrite Hds.
  assert (Hne : (length ds =? 0)%nat = false).
  { inversion Hrev as [? ? ? Hin | ? ? ? d _ Hd _]; subst.
    - now apply not_elem_of_empty in Hin.
    - destruct ds; [destruct Hd | reflexivity]. }
  rewrite Hne.
  destruct (detectCycle_revisits (buildDepsMap items) ∅ (id (fields x)) ds Hrev
              (S (length items))) as [v Hv].
  - left. unfold buildDepsMap. apply foldl_setDeps_dom. right.
    exact (in_map (fun x => id (fields x)) items x Hx).
  - apply buildDepsMap_room.
  - rewrite Hv. now left.
Qed.

End DepsMap.

(** ** lintState *)

Lemma lintState_epic_cycles s w :
  In w (checkCycles (epics s) "Epic") -> In w (warnings (lintState s)).
Proof. intros Hw. unfold lintState. simpl. apply in_or_app. now right. Qed.

Lemma lintState_lintEpic s e w :
  In e (epics s) -> In w (warnings (lintEpic e)) -> In w (warnings (lintState s)).
Proof.
  intros He Hw. unfold lintState. simpl. apply in_or_app. left.
  apply in_concat. eexists. split.
  - rewrite map_map. apply in_map. exact He.
  - simpl. apply in_or_app. now right.
Qed.

Lemma lintEpic_task_cycles e w :
  In w (checkCycles (tasks e) "Task") -> In w (warnings (lintEpic e)).
Proof. intros Hw. unfold lintEpic. simpl. apply in_or_app. right. apply in_or_app. now right. Qed.

Lemma lintEpic_subtask_cycles e t w :
  In t (tasks e) -> In w (checkCycles (subtasks t) "Subtask") -> In w (warnings (lintEpic e)).
Proof.
  intros Ht Hw. unfold lintEpic. simpl. apply in_or_app. right. apply in_or_app. left.
  apply in_concat. eexists. split.
  - rewrite map_map. apply in_map. exact Ht.
  - simpl. apply in_or_app. right. apply in_or_app. right. apply in_or_app. now right.
Qed.

(** Two items of one list, with distinct ids in that list, whose deps name
    each other: the traversal from the first revisits it. *)
Lemma mutual_deps_revisit {T} `{Entity T} (items : list T) (a b : T) da db :
  List.NoDup (map (fun x => id (fields x)) items) -> In b items ->
  deps (fields a) = Some da -> In (id (fields b)) da ->
  deps (fields b) = Some db -> In (id (fields a)) db ->
  Revisits (buildDepsMap items) ∅ (id (fields a)) da.
Proof.
  intros Hnd Hb Hda Hba Hdb Hab.
  apply (Revisits_below _ _ _ _ (id (fields b))); [apply not_elem_of_empty | exact Hba |].
  unfold buildDepsMap. rewrite (foldl_setDeps_lookup items ∅ b Hnd Hb), Hdb. simpl.
  destruct (decide (id (fields b) ∈ ({[id (fields a)]} ∪ ∅ : gset string))) as [Hin|Hout].
  - now apply Revisits_here.
  - apply (Revisits_below _ _ _ _ (id (fields a))); [exact Hout | exact Hab |].
    apply Revisits_here. rewrite !elem_of_union, !elem_of_singleton. auto.
Qed.

(** C6: when no two epics share an id and the deps of epic A name epic B
    while the deps of B name A, lintState warns of a circular dependency
    for A and for B.  In general lintState reports, with the circular
    dependency warning of its level, every epic, every task of an epic and
    every subtask of such a task whose depth-first traversal, over the map
    of the deps of its siblings, revisits an id still on the active
    stack. *)
Theorem C6_lint_reports_cycles (s : State) :
  (forall A B dA dB,
     List.NoDup (map (fun e : Epic => id (fields e)) (epics s)) ->
     In A (epics s) -> In B (epics s) ->
     deps (fields A) = Some dA -> In (id (fields B)) dA ->
     deps (fields B) = Some dB -> In (id (fields A)) dB ->
     In (cycleWarning "Epic" A) (warnings (lintState s)) /\
     In (cycleWarning "Epic" B) (warnings (lintState s))) /\
  (forall e ds,
     In e (epics s) -> deps (fields e) = Some ds ->
     Revisits (buildDepsMap (epics s)) ∅ (id (fields e)) ds ->
     In (cycleWarning "Epic" e) (warnings (lintState s))) /\
  (forall e t ds,
     In e (epics s) -> In t (tasks e) -> deps (fields t) = Some ds ->
     Revisits (buildDepsMap (tasks e)) ∅ (id (fields t)) ds ->
     In (cycleWarning "Task" t) (warnings (lintState s))) /\
  (forall e t x ds,
     In e (epics s) -> In t (tasks e) -> In x (subtasks t) ->
     deps (fields x) = Some ds ->
     Revisits (buildDepsMap (subtasks t)) ∅ (id (fields x)) ds ->
     In (cycleWarning "Subtask" x) (warnings (lintState s))).
Proof.
  assert (Hepic : forall e ds,
     In e (epics s) -> deps (fields e) = Some ds ->
     Revisits (buildDepsMap (epics s)) ∅ (id (fields e)) ds ->
     In (cycleWarning "Epic" e) (warnings (lintState s))).
  { intros e ds He Hds Hrev. apply lintState_epic_cycles.
    exact (checkCycles_reports (epics s) "Epic" e ds He Hds Hrev). }
  split; [|split; [exact Hepic|split]].
  - intros A B dA dB Hnd HA HB HdA HBA HdB HAB. split.
    + apply (Hepic A dA HA HdA).
      exact (mutual_deps_revisit (epics s) A B dA dB Hnd HB HdA HBA HdB HAB).
    + apply (Hepic B dB HB HdB).
      exact (mutual_deps_revisit (epics s) B A dB dA Hnd HA HdB HAB HdA HBA).
  - intros e t ds He Ht Hds Hrev. apply (lintState_lintEpic s e _ He).
    apply lintEpic_task_cycles.
    exact (checkCycles_reports (tasks e) "Task" t ds Ht Hds Hrev).
  - intros e t x ds He Ht Hx Hds Hrev. apply (lintState_lintEpic s e _ He).
    apply (lintEpic_subtask_cycles e t _ Ht).
    exact (checkCycles_reports (subtasks t) "Subtask" x ds Hx Hds Hrev).
Qed.

(** The two epics of [stateCycle] name each other and both are warned. *)
Lemma C6_lint_reports_cycles_witness :
  List.NoDup (map (fun e : Epic => id (fields e)) (epics stateCycle)) /\
  In (cycleWarning "Epic" epicCycleA) (warnings (lintState stateCycle)) /\
  In (cycleWarning "Epic" epicCycleB) (warnings (lintState stateCycle)).
Proof.
  assert (Hnd : List.NoDup (map (fun e : Epic => id (fields e)) (epics stateCycle))).
  { repeat constructor; simpl; intuition discriminate. }
  split; [exact Hnd|].
  exact (proj1 (C6_lint_reports_cycles stateCycle) epicCycleA epicCycleB ["b1"] ["a1"]
           Hnd (or_introl eq_refl) (or_intror (or_introl eq_refl))
           eq_refl (or_introl eq_refl) eq_refl (or_introl eq_refl)).
Defined.

(** ** Further facts about the model *)

(** The ids of a state are the ids of its flat items, in the same order. *)
Lemma allIds_flatten s : allIds s = map (fun it => id (flat it)) (flattenState s).
Proof.
  assert (Htask : forall e t, taskIds t = map (fun it => id (flat it)) (flattenTaskTree e t)).
  { intros e t. unfold taskIds, flattenTaskTree. simpl. f_equal. now rewrite map_map. }
  assert (Htasks : forall e ts, concat (map taskIds ts)
            = map (fun it => id (flat it)) (concat (map (flattenTaskTree e) ts))).
  { intros e ts. induction ts as [|t ts IH]; [reflexivity|].
    cbn [map concat]. now rewrite map_app, <- IH, <- Htask. }
  unfold allIds, flattenState. rewrite map_app, <- Htasks. f_equal.
  induction (epics s) as [|e es IH]; [reflexivity|].
  cbn [map concat]. rewrite map_app, <- IH. f_equal.
  unfold epicIds, flattenEpicTree. simpl. f_equal. apply Htasks.
Qed.

Section DetectCycleFuel.
Variable depsMap : gmap string (list string).

Lemma visitDeps_ext recur recur' i ds visited r :
  (forall d dd v r, recur d dd v = Some r -> recur' d dd v = Some r) ->
  visitDeps recur depsMap i ds visited = Some r ->
  visitDeps recur' depsMap i ds visited = Some r.
Proof.
  intros Hext. revert visited. induction ds as [|d ds IH]; intros visited; simpl; [auto|].
  destruct (recur d _ visited) as [[[] v]|] eqn:E; [| |discriminate];
    rewrite (Hext _ _ _ _ E); auto.
Qed.

(** An answer does not depend on the fuel that was left over. *)
Lemma detectCycle_more_fuel fuel : forall i ds visited r,
  detectCycle fuel i ds depsMap visited = Some r ->
  detectCycle (S fuel) i ds depsMap visited = Some r.
Proof.
  induction fuel as [|fuel IH]; intros i ds visited r; [discriminate|].
  intros Hr. simpl in Hr. change (detectCycle (S (S fuel)) i ds depsMap visited) with
    (if bool_decide (i ∈ visited) then Some (true, visited)
     else visitDeps (fun d dd v => detectCycle (S fuel) d dd depsMap v) depsMap i ds
            ({[i]} ∪ visited)).
  case_bool_decide; [exact Hr|].
  eapply visitDeps_ext; [|exact Hr]. intros d dd v r'. apply IH.
Qed.

Lemma visitDeps_sound recur i ds visited v :
  (forall d dd w v', recur d dd w = Some (false, v') -> v' = w) ->
  (forall d v', In d ds -> recur d (default [] (depsMap !! d)) visited = Some (true, v') ->
     Revisits depsMap visited d (default [] (depsMap !! d))) ->
  visitDeps recur depsMap i ds visited = Some (true, v) ->
  exists d, In d ds /\ Revisits depsMap visited d (default [] (depsMap !! d)).
Proof.
  intros Hrest. induction ds as [|d ds IH]; intros Hrec; simpl; [discriminate|].
  destruct (recur d _ visited) as [[[] v0]|] eqn:E; [| |discriminate].
  - intros _. exists d. split; [now left|]. eapply Hrec; [now left|exact E].
  - rewrite (Hrest _ _ _ _ E). intros Hv.
    destruct IH as (d' & Hd' & Hr); [|exact Hv|exists d'; auto].
    intros d' v' Hd'. apply Hrec. now right.
Qed.

Lemma visitDeps_false recur i ds visited v :
  (forall d dd w v', recur d dd w = Some (false, v') -> v' = w) ->
  visitDeps recur depsMap i ds visited = Some (false, v) -> v = visited ∖ {[i]}.
Proof.
  intros Hrest. induction ds as [|d ds IH]; simpl; [now intros [= <-]|].
  destruct (recur d _ visited) as [[[] v0]|] eqn:E; [discriminate| |discriminate].
  now rewrite (Hrest _ _ _ _ E).
Qed.

Lemma detectCycle_false fuel : forall i ds visited v,
  detectCycle fuel i ds depsMap visited = Some (false, v) -> v = visited.
Proof.
  induction fuel as [|fuel IH]; intros i ds visited v; simpl; [discriminate|].
  case_bool_decide as Hi; [discriminate|]. intros Hv.
  apply visitDeps_false in Hv; [|intros d dd w v'; apply IH]. subst v.
  apply set_eq. intros x. rewrite elem_of_difference, elem_of_union, !elem_of_singleton.
  split; [tauto|]. intros Hx. split; [tauto|]. congruence.
Qed.

(** detectCycle answers [true] only for a traversal that revisits an id of
    its active stack. *)
Lemma detectCycle_sound fuel : forall i ds visited v,
  detectCycle fuel i ds depsMap visited = Some (true, v) ->
  Revisits depsMap visited i ds.
Proof.
  induction fuel as [|fuel IH]; intros i ds visited v; simpl; [discriminate|].
  case_bool_decide as Hi; [intros _; now apply Revisits_here|]. intros Hv.
  apply visitDeps_sound in Hv as (d & Hd & Hr).
  - exact (Revisits_below _ _ _ _ d Hi Hd Hr).
  - intros d dd w v'. apply detectCycle_false.
  - intros d v' _. apply IH.
Qed.

End DetectCycleFuel.

(** checkCycles gives detectCycle enough fuel: every call it makes returns. *)
Lemma checkCycles_fuel {T} `{Entity T} (items : list T) (x : T) (ds : list string) :
  In x items ->
  exists b v, detectCycle (S (length items)) (id (fields x)) ds (buildDepsMap items) ∅
              = Some (b, v).
Proof.
  intros Hx.
  destruct (detectCycle_total (buildDepsMap items) (S (length items)) (id (fields x)) ds ∅)
    as (b & v & Hv & _); [| apply buildDepsMap_room | eauto].
  left. unfold buildDepsMap. apply foldl_setDeps_dom. right.
  exact (in_map (fun x => id (fields x)) items x Hx).
Qed.

(** * Further properties of the code *)

(** ** What validateState accepts *)















Lemma Forall_concat_map {A B} (f : A -> list B) (P : A -> Prop) (Q : B -> Prop) l :
  (forall x, P x -> Forall Q (f x)) -> Forall P l -> Forall Q (concat (map f l)).
Proof.
  intros Hf Hl. induction Hl as [|x l Hx Hl IH]; simpl; [constructor|].
  apply Forall_app. split; auto.
Qed.






(** ** Writing a state and reading it back *)














(** ** What validateState rejects *)

Lemma both_Issues_l {A B} (a : ParseResult A) (b : ParseResult B) la :
  a = Issues la -> exists l, both a b = Issues l /\ incl la l.
Proof.
  intros ->. destruct b as [y|lb]; simpl; eexists; (split; [reflexivity|]).
  - apply incl_refl.
  - apply incl_appl, incl_refl.
Qed.

Lemma both_Issues_r {A B} (a : ParseResult A) (b : ParseResult B) lb :
  b = Issues lb -> exists l, both a b = Issues l /\ incl lb l.
Proof.
  intros ->. destruct a as [x|la]; simpl; eexists; (split; [reflexivity|]).
  - apply incl_refl.
  - apply incl_appr, incl_refl.
Qed.

Lemma zElements_issue {A} (p : option json -> ParseResult A) (l : list json) :
  forall i k x isl,
    l !! i = Some x -> p (Some x) = Issues isl ->
    exists all, zElements p k l = Issues all /\
                incl (map (atSeg (Index (k + i))) isl) all.
Proof.
  induction l as [|y l IH]; intros i k x isl Hx Hp; [discriminate|].
  destruct i as [|i]; simpl in Hx.
  - injection Hx as ->. simpl. rewrite Hp. simpl under.
    destruct (both_Issues_l (A:=A) (Issues (map (atSeg (Index k)) isl))
                (zElements p (S k) l) _ eq_refl) as (all & Hall & Hin).
    unfold atSeg in Hall. rewrite Hall. simpl. exists all. split; [reflexivity|].
    now rewrite Nat.add_0_r.
  - destruct (IH i (S k) x isl Hx Hp) as (rest & Hrest & Hin). simpl.
    destruct (both_Issues_r (under (Index k) (p (Some y))) (zElements p (S k) l) rest Hrest)
      as (all & Hall & Hin').
    rewrite Hall. simpl. exists all. split; [reflexivity|].
    replace (k + S i)%nat with (S k + i)%nat by lia.
    eapply incl_tran; eassumption.
Qed.

Lemma append_assoc_str (a b c : string) : ((a +:+ b) +:+ c = a +:+ (b +:+ c))%string.
Proof.
  induction a as [|x a IH]; [reflexivity|].
  change (String x ((a +:+ b) +:+ c) = String x (a +:+ (b +:+ c))). now rewrite IH.
Qed.

Lemma StateSchema_issues o l :
  StateSchema (Some (JObj o)) = Issues l ->
  exists errors, validateState (JObj o) = Invalid errors /\
                 forall i, In i l -> In (issueString i) errors.
Proof.
  intros H. unfold validateState. rewrite H. eexists. split; [reflexivity|].
  intros i Hi. now apply in_map.
Qed.

(** X3: an object whose [version] is missing or is anything but the
    number 1 is rejected, whatever else it holds, and the errors name the
    key: [version: Invalid literal value, expected 1]. *)
Theorem X3_version_rejected o :
  (forall n d, prop "version" o = Some (JNum n d) -> n <> Z.pos d) ->
  exists errors, validateState (JObj o) = Invalid errors /\
                 In "version: Invalid literal value, expected 1" errors.
Proof.
  intros Hv.
  assert (Hlit : zLiteral1 (prop "version" o) = issue "Invalid literal value, expected 1").
  { unfold zLiteral1. destruct (prop "version" o) as [[]|] eqn:E; try reflexivity.
    destruct (Z.eqb_spec n (Z.pos d)) as [Heq|]; [|reflexivity].
    now destruct (Hv n d eq_refl). }
  destruct (both_Issues_l (under (Key "version") (zLiteral1 (prop "version" o)))
              (under (Key "epics") (zDefault [] (zArray EpicSchema) (prop "epics" o)))
              [mkIssue [Key "version"] "Invalid literal value, expected 1"])
    as (l & Hl & Hin); [now rewrite Hlit|].
  destruct (StateSchema_issues o l) as (errors & He & Herr).
  { unfold StateSchema. now rewrite Hl. }
  exists errors. split; [exact He|].
  apply (Herr (mkIssue [Key "version"] "Invalid literal value, expected 1")).
  apply Hin. now left.
Qed.

(** A document of version 2. *)
Lemma X3_version_rejected_witness :
  exists errors,
    validateState (JObj [("version", JNum 2 1); ("epics", JArr [])]) = Invalid errors /\
    In "version: Invalid literal value, expected 1" errors.
Proof.
  apply (X3_version_rejected [("version", JNum 2 1); ("epics", JArr [])]).
  intros n d [= <- <-]. discriminate.
Defined.

(** X4: a document whose epic at index [i] has a content shorter than 10
    characters is rejected, whatever else it holds or lacks, and the errors
    hold the path of that field with the message of the schema:
    [epics.<i>.content: Epic content must be at least 10 characters]. *)
Theorem X4_short_content_rejected o l i eo c :
  prop "epics" o = Some (JArr l) -> l !! i = Some (JObj eo) ->
  prop "content" eo = Some (JStr c) -> (String.length c < MIN_DESCRIPTION_LENGTH)%nat ->
  exists errors, validateState (JObj o) = Invalid errors /\
    In ("epics." +:+ pretty i +:+ ".content: Epic content must be at least 10 characters")
       errors.
Proof.
  intros Hep Hi Hc Hlen.
  set (msg := "Epic content must be at least 10 characters").
  assert (Hcontent : under (Key "content")
            (zStringMin MIN_DESCRIPTION_LENGTH ("Epic" ++ " content must be at least 10 characters")
               (prop "content" eo)) = Issues [mkIssue [Key "content"] msg]).
  { rewrite Hc. unfold zStringMin. simpl zString. cbv iota.
    replace (MIN_DESCRIPTION_LENGTH <=? String.length c)%nat with false
      by (symmetry; apply Nat.leb_gt; exact Hlen).
    reflexivity. }
  assert (Hepic : exists le, EpicSchema (Some (JObj eo)) = Issues le /\
                             In (mkIssue [Key "content"] msg) le).
  { unfold EpicSchema, FieldsSchema.
    match goal with |- context [both ?a (both ?b ?r)] =>
      pose proof (both_Issues_l b r _ Hcontent) as (l1 & H1 & I1);
      pose proof (both_Issues_r a (both b r) l1 H1) as (l2 & H2 & I2)
    end.
    rewrite H2. simpl.
    destruct (under (Key "tasks") _) as [ts|lt]; simpl; eexists;
      (split; [reflexivity|]).
    - apply I2, I1. now left.
    - apply in_or_app. left. apply I2, I1. now left. }
  destruct Hepic as (le & Hle & Hin).
  destruct (zElements_issue EpicSchema l i 0 (JObj eo) le Hi Hle) as (all & Hall & Hin').
  assert (Hstate : exists ls, StateSchema (Some (JObj o)) = Issues ls /\
            In (mkIssue [Key "epics"; Index i; Key "content"] msg) ls).
  { unfold StateSchema. rewrite Hep. unfold zDefault, zArray. rewrite Hall. simpl under at 2.
    match goal with |- context [both ?a (Issues ?b)] =>
      pose proof (both_Issues_r a (Issues (A:=list Epic) b) b eq_refl) as (ls & Hls & Ils)
    end.
    rewrite Hls. simpl. exists ls. split; [reflexivity|]. apply Ils.
    apply (in_map (fun x => mkIssue (Key "epics" :: path x) (message x)) all
             (mkIssue [Index i; Key "content"] msg)).
    apply Hin'. simpl.
    exact (in_map (atSeg (Index i)) le _ Hin). }
  destruct Hstate as (ls & Hls & Hin'').
  destruct (StateSchema_issues o ls Hls) as (errors & He & Herr).
  exists errors. split; [exact He|].
  specialize (Herr _ Hin'').
  replace (issueString (mkIssue [Key "epics"; Index i; Key "content"] msg))
    with ("epics." +:+ pretty i +:+ ".content: Epic content must be at least 10 characters")
    in Herr; [exact Herr|].
  unfold issueString, msg. cbn [path message map segString joinDot].
  generalize (pretty i). intros p. rewrite !append_assoc_str. reflexivity.
Qed.

(** The second epic of a document carries a content of five characters. *)
Lemma X4_short_content_rejected_witness :
  exists errors,
    validateState (JObj [("version", JNum 1 1);
      ("epics", JArr [JObj (rawFields "e1" "First epic content");
                      JObj (rawFields "e2" "short")])]) = Invalid errors /\
    In "epics.1.content: Epic content must be at least 10 characters" errors.
Proof.
  exact (X4_short_content_rejected
           [("version", JNum 1 1);
            ("epics", JArr [JObj (rawFields "e1" "First epic content");
                            JObj (rawFields "e2" "short")])]
           [JObj (rawFields "e1" "First epic content"); JObj (rawFields "e2" "short")]
           1 (rawFields "e2" "short") "short" eq_refl eq_refl eq_refl ltac:(vm_compute; lia)).
Defined.

(** ** The queries *)

Lemma findFlat_None i l : findFlat i l = None <-> i ∉ map (fun it => id (flat it)) l.
Proof.
  unfold findFlat. induction l as [|x l IH]; simpl.
  - split; [intros _; apply not_elem_of_nil | reflexivity].
  - rewrite not_elem_of_cons. destruct (String.eqb_spec (id (flat x)) i) as [E|E].
    + split; [discriminate|]. intros [Hne _]. congruence.
    + rewrite IH. split; [intros; split; congruence | tauto].
Qed.

Lemma findFlat_present i l :
  i ∈ map (fun it => id (flat it)) l -> exists it, findFlat i l = Some it.
Proof.
  intros Hi. destruct (findFlat i l) as [it|] eqn:E; [eauto|].
  apply findFlat_None in E. contradiction.
Qed.

(** X5: findById returns null exactly for an id that no item of the state
    carries, and otherwise the first item, in document order, with that
    id. *)
Theorem X5_findById_spec s i :
  (findById s i = None <-> i ∉ allIds s) /\
  (forall it, findById s i = Some it <-> resolvesTo (flattenState s) i it).
Proof.
  unfold findById. split.
  - rewrite allIds_flatten. apply findFlat_None.
  - intros it. apply findFlat_resolves.
Qed.

(** X6: a query that is the id of an item gives that item alone, whatever
    the contents are; any other query gives the items whose lower-cased
    content includes the lower-cased query, in document order. *)
Theorem X6_fuzzyFind_spec lower s q :
  (q ∈ allIds s ->
   exists it, fuzzyFind lower s q = [it] /\ resolvesTo (flattenState s) q it) /\
  (q ∉ allIds s ->
   Keep (fun it => includes (lower (content (flat it))) (lower q) = true)
        (flattenState s) (fuzzyFind lower s q)).
Proof.
  unfold fuzzyFind. rewrite allIds_flatten. split.
  - intros Hq. destruct (findFlat_present q _ Hq) as [it Hit]. rewrite Hit.
    exists it. split; [reflexivity|]. now apply findFlat_resolves.
  - intros Hq. apply findFlat_None in Hq. rewrite Hq.
    apply Keep_filter. intros x. reflexivity.
Qed.

(** The query "t1" is the id of the task of [statePending]; the contents of
    the epic, the task and the subtask all include "content", which is no
    id. *)
Lemma X6_fuzzyFind_spec_witness :
  (exists it, fuzzyFind (fun x => x) statePending "t1" = [it] /\
              resolvesTo (flattenState statePending) "t1" it) /\
  Keep (fun it => includes (content (flat it)) "content" = true)
       (flattenState statePending) (fuzzyFind (fun x => x) statePending "content").
Proof.
  split.
  - apply (proj1 (X6_fuzzyFind_spec (fun x => x) statePending "t1")).
    apply list_elem_of_In. vm_compute. auto.
  - apply (proj2 (X6_fuzzyFind_spec (fun x => x) statePending "content")).
    intros H. apply list_elem_of_In in H. vm_compute in H. intuition discriminate.
Defined.

(** *** Items by type *)

Lemma filter_concat_map {A B} (p : B -> bool) (f : A -> list B) (l : list A) :
  List.filter p (concat (map f l)) = concat (map (fun x => List.filter p (f x)) l).
Proof. induction l as [|x l IH]; simpl; [|rewrite List.filter_app, IH]; reflexivity. Qed.

Lemma filter_map_const {A B} (p : B -> bool) (f : A -> B) (b : bool) (l : list A) :
  (forall x, p (f x) = b) -> List.filter p (map f l) = if b then map f l else [].
Proof.
  intros Hp. induction l as [|x l IH]; simpl; [now destruct b|].
  rewrite Hp, IH. now destruct b.
Qed.

Lemma concat_map_nil {A B} (f : A -> list B) (l : list A) :
  (forall x, f x = []) -> concat (map f l) = [].
Proof. intros Hf. induction l as [|x l IH]; simpl; [|rewrite Hf, IH]; reflexivity. Qed.

Lemma concat_map_singleton {A B} (g : A -> list B) (f : A -> B) (l : list A) :
  (forall x, g x = [f x]) -> concat (map g l) = map f l.
Proof. intros Hg. induction l as [|x l IH]; simpl; [|rewrite Hg, IH]; reflexivity. Qed.

Lemma concat_map_ext {A B} (f g : A -> list B) (l : list A) :
  (forall x, f x = g x) -> concat (map f l) = concat (map g l).
Proof. intros Hfg. f_equal. apply map_ext. exact Hfg. Qed.

Section ByType.
Variable p : FlatItem -> bool.
Variable q : ItemType -> bool.
Hypothesis p_type : forall it, p it = q (type it).

Lemma filter_taskTree e t :
  List.filter p (flattenTaskTree e t) =
  (if q task then [flattenTask e t] else [])
  ++ (if q subtask then map (flattenSubtask e t) (subtasks t) else []).
Proof.
  unfold flattenTaskTree. simpl. rewrite p_type. simpl.
  rewrite (filter_map_const p _ (q subtask)) by (intros x; now rewrite p_type).
  now destruct (q task).
Qed.

Lemma filter_epicTree e :
  List.filter p (flattenEpicTree e) =
  (if q epic then [flattenEpic e] else [])
  ++ concat (map (fun t => List.filter p (flattenTaskTree (Some e) t)) (tasks e)).
Proof.
  unfold flattenEpicTree. simpl. rewrite p_type, filter_concat_map. simpl.
  now destruct (q epic).
Qed.

End ByType.

Lemma filter_epics p s :
  (forall it, p it = bool_decide (type it = epic)) ->
  List.filter p (flattenState s) = map flattenEpic (epics s).
Proof.
  intros Hp. pose (q := fun t : ItemType => bool_decide (t = epic)).
  assert (Ht : forall e t, List.filter p (flattenTaskTree e t) = []).
  { intros e t. now rewrite (filter_taskTree p q Hp). }
  unfold flattenState. rewrite List.filter_app, !filter_concat_map.
  rewrite (concat_map_nil _ _ (Ht None)), app_nil_r.
  apply concat_map_singleton. intros e.
  rewrite (filter_epicTree p q Hp), (concat_map_nil _ _ (Ht (Some e))). reflexivity.
Qed.

Lemma filter_tasks p s :
  (forall it, p it = bool_decide (type it = task)) ->
  List.filter p (flattenState s) = flatTasks s.
Proof.
  intros Hp. pose (q := fun t : ItemType => bool_decide (t = task)).
  assert (Ht : forall e t, List.filter p (flattenTaskTree e t) = [flattenTask e t]).
  { intros e t. now rewrite (filter_taskTree p q Hp). }
  unfold flattenState, flatTasks.
  rewrite List.filter_app, !filter_concat_map. f_equal.
  - apply concat_map_ext. intros e. rewrite (filter_epicTree p q Hp).
    change (q epic) with false. cbv iota. rewrite app_nil_l.
    apply concat_map_singleton, Ht.
  - apply concat_map_singleton, Ht.
Qed.

Lemma filter_subtasks p s :
  (forall it, p it = bool_decide (type it = subtask)) ->
  List.filter p (flattenState s) = flatSubtasks s.
Proof.
  intros Hp. pose (q := fun t : ItemType => bool_decide (t = subtask)).
  assert (Ht : forall e t, List.filter p (flattenTaskTree e t)
                           = map (flattenSubtask e t) (subtasks t)).
  { intros e t. now rewrite (filter_taskTree p q Hp). }
  unfold flattenState, flatSubtasks, flatSubtasksOf.
  rewrite List.filter_app, !filter_concat_map. f_equal.
  - apply concat_map_ext. intros e. rewrite (filter_epicTree p q Hp).
    change (q epic) with false. cbv iota. rewrite app_nil_l.
    apply concat_map_ext, Ht.
  - apply concat_map_ext, Ht.
Qed.

Lemma inArray_one (t : ItemType) (it : FlatItem) :
  inArray (type it) [t] = bool_decide (type it = t).
Proof.
  unfold inArray. apply bool_decide_ext. rewrite elem_of_cons.
  split; [intros [E|E]; [exact E | now apply not_elem_of_nil in E] | auto].
Qed.

(** X7: listEpics, listTasks and listSubtasks without a parent give the
    epics, the tasks (nested, then standalone) and the subtasks of the
    state, in document order; an empty parent id is no parent. *)
Theorem X7_list_by_type lower s :
  listEpics lower s = map flattenEpic (epics s) /\
  listTasks lower s None = flatTasks s /\
  listSubtasks lower s None = flatSubtasks s /\
  listTasks lower s (Some EmptyString) = listTasks lower s None /\
  listSubtasks lower s (Some EmptyString) = listSubtasks lower s None.
Proof.
  unfold listEpics, listTasks, listSubtasks, filterItems, applyTypeFilter. simpl.
  repeat split.
  - apply filter_epics. intros it. apply inArray_one.
  - apply filter_tasks. intros it. apply inArray_one.
  - apply filter_subtasks. intros it. apply inArray_one.
Qed.

Lemma length_filter_le {A} (p : A -> bool) (l : list A) :
  (length (List.filter p l) <= length l)%nat.
Proof. apply List.filter_length_le. Qed.

(** X8: the totals of getContext count the epics, the tasks and the
    subtasks of the state; together they are the number of flat items, and
    no completed count exceeds its total. *)
Theorem X8_getContext_counts s :
  let c := getContext s in
  totalEpics c = length (epics s) /\
  totalTasks c = length (flatTasks s) /\
  totalSubtasks c = length (flatSubtasks s) /\
  (totalEpics c + totalTasks c + totalSubtasks c)%nat = length (flattenState s) /\
  (completedEpics c <= totalEpics c)%nat /\
  (completedTasks c <= totalTasks c)%nat /\
  (completedSubtasks c <= totalSubtasks c)%nat /\
  nextItem c = item (getNext s (Some LAny)).
Proof.
  cbv zeta. unfold getContext. cbn [totalEpics totalTasks totalSubtasks completedEpics
    completedTasks completedSubtasks nextItem].
  pose proof (countType_total (flattenState s)) as Htot. unfold countType in Htot.
  fold (hasType epic) (hasType task) (hasType subtask) in Htot.
  assert (He := filter_epics (hasType epic) s (fun _ => eq_refl)).
  assert (Ht := filter_tasks (hasType task) s (fun _ => eq_refl)).
  assert (Hs := filter_subtasks (hasType subtask) s (fun _ => eq_refl)).
  rewrite He, Ht, Hs in *. rewrite length_map in *.
  repeat split; try exact Htot;
    (etransitivity; [apply length_filter_le | rewrite ?length_map; reflexivity]).
Qed.

(** *** filterItems *)

Lemma Keep_ext {A} (P Q : A -> Prop) (l l' : list A) :
  (forall x, P x <-> Q x) -> Keep P l l' -> Keep Q l l'.
Proof.
  intros HPQ. induction 1 as [|x l l' Hx _ IH|x l l' Hx _ IH]; constructor; auto;
    rewrite <- HPQ; exact Hx.
Qed.

Lemma Keep_compose {A} (P Q : A -> Prop) (l l1 l2 : list A) :
  Keep P l l1 -> Keep Q l1 l2 -> Keep (fun x => P x /\ Q x) l l2.
Proof.
  intros H. revert l2. induction H as [|x l l1 Hx _ IH|x l l1 Hx _ IH]; intros l2 H2.
  - inversion H2. constructor.
  - inversion H2; subst.
    + apply Keep_yes; auto.
    + apply Keep_no; [tauto | auto].
  - apply Keep_no; [tauto | auto].
Qed.

Lemma Keep_all {A} (P : A -> Prop) (l : list A) : (forall x, P x) -> Keep P l l.
Proof. intros HP. induction l; constructor; auto. Qed.

Lemma Keep_none {A} (P : A -> Prop) (l : list A) : (forall x, ~ P x) -> Keep P l [].
Proof. intros HP. induction l; constructor; auto. Qed.

Lemma Keep_In {A} (P : A -> Prop) (l l' : list A) :
  Keep P l l' -> forall x, In x l' <-> In x l /\ P x.
Proof.
  induction 1 as [|y l l' Hy _ IH|y l l' Hy _ IH]; intros x; simpl.
  - tauto.
  - rewrite IH. split; [intros [->|[]]; auto | tauto].
  - rewrite IH. split; [tauto|]. intros [[->|Hx] HP]; [contradiction | auto].
Qed.

Lemma whenGiven_Keep {A} (x : option A) (f : list FlatItem -> A -> list FlatItem)
  (P : A -> FlatItem -> Prop) (l : list FlatItem) :
  (forall a, Keep (P a) l (f l a)) ->
  Keep (fun it => forall a, x = Some a -> P a it) l (whenGiven x f l).
Proof.
  intros Hf. destruct x as [a|]; simpl.
  - eapply Keep_ext; [|apply Hf]. intros it. split; [intros H a' [= <-]; exact H | auto].
  - apply Keep_all. intros it a [=].
Qed.

Lemma inArray_spec {A} `{EqDecision A} (x : A) (l : list A) : inArray x l = true <-> x ∈ l.
Proof. unfold inArray. apply bool_decide_eq_true. Qed.

Lemma isString_spec o x : isString o x = true <-> o = Some x.
Proof.
  unfold isString. destruct o as [y|]; [|split; discriminate].
  rewrite String.eqb_eq. split; congruence.
Qed.

Lemma parent_Keep lower t parentOf allItems q l :
  Keep (underParent lower t parentOf allItems q) l
    (if falsy (resolveId lower t allItems q) then []
     else List.filter
            (fun i => isString (parentOf i) (default EmptyString (resolveId lower t allItems q))
                      || String.eqb (id (flat i))
                           (default EmptyString (resolveId lower t allItems q))) l).
Proof.
  unfold underParent. destruct (resolveId lower t allItems q) as [r|]; simpl.
  - destruct (String.eqb_spec r EmptyString) as [E|E].
    + apply Keep_none. intros it (r' & [= <-] & Hne & _). contradiction.
    + apply Keep_filter. intros it.
      rewrite orb_true_iff, isString_spec, String.eqb_eq. split.
      * intros H. exists r. auto.
      * intros (r' & [= <-] & _ & H). exact H.
  - apply Keep_none. intros it (r' & [=] & _).
Qed.

(** X9: filterItems keeps, in document order, exactly the items that meet
    every criterion that is given; a parent query that resolves to nothing
    keeps no item. *)
Theorem X9_filterItems_keeps lower s args :
  Keep (matchesFilter lower (flattenState s) args) (flattenState s)
       (filterItems lower s args).
Proof.
  unfold filterItems. cbv zeta. set (allItems := flattenState s).
  eapply Keep_ext; cycle 1.
  { eapply Keep_compose;
      [|apply (whenGiven_Keep _ _
                 (fun q it => includes (lower (content (flat it))) (lower q) = true));
        intros a; apply Keep_filter; reflexivity].
    eapply Keep_compose;
      [|apply (whenGiven_Keep _ _ (fun t it => type it ∈ asArray t));
        intros a; apply Keep_filter; intros x; apply inArray_spec].
    eapply Keep_compose;
      [|apply (whenGiven_Keep _ _ (fun p it => priority (flat it) ∈ asArray p));
        intros a; apply Keep_filter; intros x; apply inArray_spec].
    eapply Keep_compose;
      [|apply (whenGiven_Keep _ _ (fun st it => status (flat it) ∈ asArray st));
        intros a; apply Keep_filter; intros x; apply inArray_spec].
    eapply Keep_compose;
      [|apply (whenGiven_Keep _ _ (underParent lower task taskId allItems));
        intros a; apply parent_Keep].
    apply (whenGiven_Keep _ _ (underParent lower epic epicId allItems)).
    intros a. apply parent_Keep. }
  intros it. unfold matchesFilter. cbv beta. tauto.
Qed.

(** *** The tasks of one epic *)

Lemma unique_epic_elsewhere s l1 E l2 :
  uniqueIds s -> epics s = l1 ++ E :: l2 ->
  (id (fields E) ∉ concat (map epicIds l1)) /\
  (id (fields E) ∉ concat (map taskIds (tasks E))) /\
  (id (fields E) ∉ concat (map epicIds l2)) /\
  (id (fields E) ∉ concat (map taskIds (default [] (standalone s)))).
Proof.
  unfold uniqueIds, allIds. intros Hu He. rewrite He, concat_map_middle in Hu.
  apply NoDup_app in Hu as (Hu & Hst & _).
  apply NoDup_app in Hu as (_ & Hl1 & Hu).
  apply NoDup_app in Hu as (HE & Hl2 & _).
  unfold epicIds in HE at 1. apply NoDup_cons in HE as [HE _].
  repeat split.
  - intros Hi. apply (Hl1 _ Hi). pose proof (id_in_epicIds E). in_list.
  - exact HE.
  - apply Hl2, id_in_epicIds.
  - apply Hst. pose proof (id_in_epicIds E). in_list.
Qed.

Lemma filter_nil_in {A} (p : A -> bool) (l : list A) :
  (forall x, In x l -> p x = false) -> List.filter p l = [].
Proof.
  induction l as [|x l IH]; intros Hp; simpl; [reflexivity|].
  rewrite (Hp x) by now left. apply IH. intros y Hy. apply Hp. now right.
Qed.

Lemma concat_map_nil_in {A B} (f : A -> list B) (l : list A) :
  (forall x, In x l -> f x = []) -> concat (map f l) = [].
Proof.
  induction l as [|x l IH]; intros Hf; simpl; [reflexivity|].
  rewrite (Hf x) by now left. apply IH. intros y Hy. apply Hf. now right.
Qed.

Lemma concat_map_singleton_in {A B} (g : A -> list B) (f : A -> B) (l : list A) :
  (forall x, In x l -> g x = [f x]) -> concat (map g l) = map f l.
Proof.
  induction l as [|x l IH]; intros Hg; simpl; [reflexivity|].
  rewrite (Hg x) by now left. simpl. f_equal. apply IH. intros y Hy. apply Hg. now right.
Qed.

Lemma task_not_in i (ts : list Task) t :
  i ∉ concat (map taskIds ts) -> In t ts -> id (fields t) <> i.
Proof.
  intros Hi Ht E. apply list_elem_of_In in Ht.
  apply (not_in_concat taskIds ts i t Hi Ht). rewrite <- E. apply id_in_taskIds.
Qed.

Lemma epic_not_in i (es : list Epic) e :
  i ∉ concat (map epicIds es) -> In e es ->
  id (fields e) <> i /\ i ∉ concat (map taskIds (tasks e)).
Proof.
  intros Hi He. apply list_elem_of_In in He.
  pose proof (not_in_concat epicIds es i e Hi He) as Hn.
  unfold epicIds in Hn. apply not_elem_of_cons in Hn as [Hne Hn]. auto.
Qed.

Section TasksOfEpic.
Variable r : string.

(** The test that is left of filterItems when an epic id [r] and the type
    task are given. *)
Let keep (i : FlatItem) : bool :=
  (isString (epicId i) r || String.eqb (id (flat i)) r) && inArray (type i) [task].

Lemma keep_taskTree e t :
  List.filter keep (flattenTaskTree e t) =
  if keep (flattenTask e t) then [flattenTask e t] else [].
Proof.
  unfold flattenTaskTree. simpl.
  rewrite (filter_map_const keep _ false); [reflexivity|].
  intros x. unfold keep. simpl. apply andb_false_r.
Qed.

Lemma keep_foreign_task e t :
  (forall E, e = Some E -> id (fields E) <> r) -> id (fields t) <> r ->
  keep (flattenTask e t) = false.
Proof.
  intros He Ht. unfold keep. simpl. apply andb_false_intro1, orb_false_intro.
  - destruct e as [E|]; simpl; [|reflexivity]. apply String.eqb_neq, He. reflexivity.
  - now apply String.eqb_neq.
Qed.

Lemma keep_foreign_tasks e ts :
  (forall E, e = Some E -> id (fields E) <> r) -> r ∉ concat (map taskIds ts) ->
  concat (map (fun t => List.filter keep (flattenTaskTree e t)) ts) = [].
Proof.
  intros He Hts. apply concat_map_nil_in. intros t Ht.
  rewrite keep_taskTree, keep_foreign_task; auto. eapply task_not_in; eauto.
Qed.

Lemma keep_foreign_epics es :
  r ∉ concat (map epicIds es) ->
  concat (map (fun e => List.filter keep (flattenEpicTree e)) es) = [].
Proof.
  intros Hes. apply concat_map_nil_in. intros e He.
  destruct (epic_not_in r es e Hes He) as [Hne Hts].
  unfold flattenEpicTree. simpl. unfold keep at 1. simpl. rewrite andb_false_r.
  rewrite filter_concat_map. apply keep_foreign_tasks; [|exact Hts].
  intros E' [= <-]. exact Hne.
Qed.

Lemma keep_own_tasks E :
  id (fields E) = r ->
  List.filter keep (flattenEpicTree E) = map (flattenTask (Some E)) (tasks E).
Proof.
  intros HE. unfold flattenEpicTree. simpl. unfold keep at 1. simpl. rewrite andb_false_r.
  rewrite filter_concat_map. apply concat_map_singleton. intros t.
  rewrite keep_taskTree.
  replace (keep (flattenTask (Some E) t)) with true; [reflexivity|].
  symmetry. unfold keep. apply andb_true_intro. split; [|reflexivity].
  apply orb_true_intro. left. apply isString_spec. simpl. f_equal. exact HE.
Qed.

End TasksOfEpic.

Lemma resolveId_exact lower t allItems q x :
  In x allItems -> type x = t -> id (flat x) = q ->
  resolveId lower t allItems q = Some q.
Proof.
  intros Hx Ht Hq. unfold resolveId.
  destruct (List.find _ _) as [y|] eqn:E.
  - apply List.find_some in E as [_ E]. apply String.eqb_eq in E. now rewrite E.
  - assert (Hin : In x (List.filter (hasType t) allItems)).
    { apply List.filter_In. split; [exact Hx|]. unfold hasType. now apply bool_decide_eq_true. }
    pose proof (List.find_none _ _ E x Hin) as Hf. cbv beta in Hf.
    rewrite Hq, String.eqb_refl in Hf. discriminate.
Qed.

Lemma flattenEpic_in s e : In e (epics s) -> In (flattenEpic e) (flattenState s).
Proof.
  intros He. unfold flattenState. apply in_or_app. left. apply in_concat.
  exists (flattenEpicTree e). split; [now apply in_map | now left].
Qed.

(** X10: with unique ids, listTasks with the non-empty id of an epic gives
    the tasks of that epic, in their order, and nothing else. *)
Theorem X10_listTasks_of_epic lower s l1 E l2 :
  uniqueIds s -> epics s = l1 ++ E :: l2 -> id (fields E) <> EmptyString ->
  listTasks lower s (Some (id (fields E))) = map (flattenTask (Some E)) (tasks E).
Proof.
  intros Hu He Hne.
  destruct (unique_epic_elsewhere s l1 E l2 Hu He) as (H1 & _ & H2 & Hst).
  assert (Hfalsy : falsy (Some (id (fields E))) = false) by now apply String.eqb_neq.
  unfold listTasks, whenTruthy. rewrite Hfalsy.
  unfold filterItems. cbn [fa_epicId fa_taskId fa_status fa_priority fa_type fa_search
    whenGiven]. unfold applyEpicFilter, resolveEpicId.
  rewrite (resolveId_exact lower epic (flattenState s) (id (fields E)) (flattenEpic E));
    [|apply flattenEpic_in; rewrite He; apply in_elt | reflexivity | reflexivity].
  rewrite Hfalsy. unfold applyTypeFilter. cbn [asArray from_option Datatypes.id].
  rewrite filter_filter_andb.
  unfold flattenState. rewrite He, List.filter_app, !filter_concat_map, concat_map_middle.
  rewrite (keep_foreign_epics _ l1 H1), (keep_foreign_epics _ l2 H2).
  rewrite (keep_foreign_tasks _ None _ (fun E' (H : None = Some E') => ltac:(discriminate)) Hst).
  rewrite (keep_own_tasks _ E eq_refl). now rewrite !app_nil_r.
Qed.

(** The tasks of the epic e1 of [stateTwoTasks] are t1 and t2. *)
Lemma X10_listTasks_of_epic_witness :
  listTasks (fun x => x) stateTwoTasks (Some "e1")
  = map (flattenTask (Some epicTwoTasks)) [taskPending; taskOther].
Proof.
  refine (X10_listTasks_of_epic (fun x => x) stateTwoTasks [] epicTwoTasks [] _ eq_refl _).
  - unique_ids.
  - discriminate.
Defined.

(** *** The shape of a flat item *)

Lemma flattenState_Forall (P : FlatItem -> Prop) s :
  (forall e, P (flattenEpic e)) -> (forall e t, P (flattenTask e t)) ->
  (forall e t u, P (flattenSubtask e t u)) -> Forall P (flattenState s).
Proof.
  intros He Ht Hu.
  assert (Htree : forall e t, Forall P (flattenTaskTree e t)).
  { intros e t. unfold flattenTaskTree. constructor; [apply Ht|].
    apply List.Forall_forall. intros x Hx. apply in_map_iff in Hx as (u & <- & _). apply Hu. }
  unfold flattenState. apply Forall_app. split.
  - apply (Forall_concat_map _ (fun _ => True)); [|apply List.Forall_forall; auto].
    intros e _. unfold flattenEpicTree. constructor; [apply He|].
    apply (Forall_concat_map _ (fun _ => True)); [|apply List.Forall_forall; auto].
    intros t _. apply Htree.
  - apply (Forall_concat_map _ (fun _ => True)); [|apply List.Forall_forall; auto].
    intros t _. apply Htree.
Qed.

(** X11: for every flat item the depth is the number of parents it names,
    the completed children are no more than the children, [hasChildren]
    says that there are children, an epic names no parent, a task names no
    task and is standalone exactly when it names no epic, and a subtask has
    no children and names its task. *)
Theorem X11_flat_item_shape s :
  Forall (fun it =>
    depth it = parentCount it /\
    (completedChildrenCount it <= childrenCount it)%nat /\
    (hasChildren it = true <-> (0 < childrenCount it)%nat) /\
    match type it with
    | epic => epicId it = None /\ taskId it = None /\ isStandalone it = None
    | task => taskId it = None /\
              isStandalone it = Some (bool_decide (epicId it = None))
    | subtask => childrenCount it = 0%nat /\ taskId it <> None /\
                 isStandalone it = Some (bool_decide (epicId it = None))
    end) (flattenState s).
Proof.
  apply flattenState_Forall.
  - intros e. unfold parentCount. simpl. repeat split; try apply length_filter_le;
      try (apply Nat.ltb_lt); try (intros; now apply Nat.ltb_lt).
  - intros [e|] t; unfold parentCount; simpl; repeat split; try apply length_filter_le;
      try (apply Nat.ltb_lt); try (intros; now apply Nat.ltb_lt).
  - intros [e|] t u; unfold parentCount; simpl; repeat split; try lia; try discriminate.
Qed.

(** ** The frame of the update operations *)

Lemma related_insert {A} (Q : A -> A -> Prop) (l : list A) k x y :
  (forall z, Q z z) -> l !! k = Some x -> Q x y -> Forall2 Q l (<[k := y]> l).
Proof.
  intros Hrefl. revert k. induction l as [|z l IH]; intros [|k]; simpl; try discriminate.
  - intros [= ->] Hxy. constructor; [exact Hxy|]. apply Forall_Forall2_diag.
    apply List.Forall_forall. auto.
  - intros Hk Hxy. constructor; auto.
Qed.

Lemma related_refl {A} (Q : A -> A -> Prop) (l : list A) :
  (forall z, Q z z) -> Forall2 Q l l.
Proof. intros Hrefl. apply Forall_Forall2_diag, List.Forall_forall. auto. Qed.

Lemma related_trans {A} (P Q S : A -> A -> Prop) (l k m : list A) :
  (forall x y z, P x y -> Q y z -> S x z) ->
  Forall2 P l k -> Forall2 Q k m -> Forall2 S l m.
Proof.
  intros Htrans H. revert m. induction H as [|x y l k Hxy _ IH]; intros m Hm.
  - inversion Hm. constructor.
  - inversion Hm; subst. constructor; eauto.
Qed.

Section RelatedRefl.
Variable R : Fields -> Fields -> Prop.
Hypothesis R_refl : forall f, R f f.

Lemma relTask_refl t : relTask R t t.
Proof. split; [apply R_refl | apply related_refl; intros; apply R_refl]. Qed.

Lemma relEpic_refl e : relEpic R e e.
Proof. split; [apply R_refl | apply related_refl, relTask_refl]. Qed.

Lemma relState_refl s : relState R s s.
Proof.
  split; [reflexivity|]. split; [apply related_refl, relEpic_refl | apply related_refl, relTask_refl].
Qed.

Lemma relState_epic s k e e' :
  epics s !! k = Some e -> relEpic R e e' -> relState R s (updateEpicInState s k e').
Proof.
  intros Hk He. split; [reflexivity|]. split; simpl.
  - exact (related_insert _ _ k e e' relEpic_refl Hk He).
  - apply related_refl, relTask_refl.
Qed.

Lemma relState_standalone s k t t' :
  default [] (standalone s) !! k = Some t -> relTask R t t' ->
  relState R s (updateStandaloneTaskInState s k t').
Proof.
  intros Hk Ht. split; [reflexivity|]. split; simpl.
  - apply related_refl, relEpic_refl.
  - exact (related_insert _ _ k t t' relTask_refl Hk Ht).
Qed.

Lemma relEpic_task e m t t' f' :
  tasks e !! m = Some t -> relTask R t t' -> R (fields e) f' ->
  relEpic R e (mkEpic f' (<[m := t']> (tasks e))).
Proof.
  intros Hm Ht Hf. split; [exact Hf|]. simpl.
  exact (related_insert _ _ m t t' relTask_refl Hm Ht).
Qed.

Lemma relTask_subtask t v (x x' : Subtask) f' :
  subtasks t !! v = Some x -> R (fields x) (fields x') -> R (fields t) f' ->
  relTask R t (mkTask f' (<[v := x']> (subtasks t))).
Proof.
  intros Hv Hx Hf. split; [exact Hf|]. simpl.
  exact (related_insert (fun u u' : Subtask => R (fields u) (fields u')) _ v x x'
           (fun z => R_refl (fields z)) Hv Hx).
Qed.

End RelatedRefl.

Section RelatedTrans.
Variables P Q S : Fields -> Fields -> Prop.
Hypothesis PQS : forall x y z, P x y -> Q y z -> S x z.

Lemma relTask_trans t1 t2 t3 : relTask P t1 t2 -> relTask Q t2 t3 -> relTask S t1 t3.
Proof.
  intros [H1 H1'] [H2 H2']. split; [eauto|].
  eapply related_trans; [|exact H1'|exact H2']. intros x y z. apply PQS.
Qed.

Lemma relEpic_trans e1 e2 e3 : relEpic P e1 e2 -> relEpic Q e2 e3 -> relEpic S e1 e3.
Proof.
  intros [H1 H1'] [H2 H2']. split; [eauto|].
  eapply related_trans; [|exact H1'|exact H2']. apply relTask_trans.
Qed.

Lemma relState_trans s1 s2 s3 : relState P s1 s2 -> relState Q s2 s3 -> relState S s1 s3.
Proof.
  intros (Hv1 & He1 & Ht1) (Hv2 & He2 & Ht2). split; [congruence|]. split.
  - eapply related_trans; [|exact He1|exact He2]. apply relEpic_trans.
  - eapply related_trans; [|exact Ht1|exact Ht2]. apply relTask_trans.
Qed.

End RelatedTrans.

Lemma relState_impl (P Q : Fields -> Fields -> Prop) s s' :
  (forall f f', P f f' -> Q f f') -> relState P s s' -> relState Q s s'.
Proof.
  intros HPQ H.
  apply (relState_trans P eq Q (fun x y z Hxy (Hyz : y = z) => eq_ind y _ (HPQ x y Hxy) z Hyz)
           s s' s' H).
  apply relState_refl. reflexivity.
Qed.

Lemma touched_refl input now f : touched input now f f.
Proof. now left. Qed.

Lemma findSubtask_inv s i j k lk :
  findSubtask s i j k = Some lk ->
  findTask s i j = Some (sl_task lk) /\
  subtasks (tl_task (sl_task lk)) !! sl_subtaskIndex lk = Some (sl_subtask lk).
Proof.
  unfold findSubtask. destruct (findTask s i j) as [tl|]; simpl; [|discriminate].
  destruct (findIndex _ _) as [v|]; simpl; [|discriminate].
  destruct (subtasks (tl_task tl) !! v) as [x|] eqn:E; simpl; [|discriminate].
  intros [= <-]. auto.
Qed.

Section UpdateFrame.
Variable clock : nat -> string.
Variable input : UpdateItemInput.

Lemma updateEpic_related s e n s' n' :
  updateEpic clock s e input n = (Success s', n') ->
  relState (touched input (clock n)) s s' /\ n' = S n.
Proof.
  unfold updateEpic. destruct (findEpic s e) as [[E k]|] eqn:Hf; [|discriminate].
  unfold bindM, timestamp, ret. simpl. intros [= <- <-]. split; [|reflexivity].
  apply findEpic_inv in Hf as [_ Hk]. simpl in Hk.
  apply (relState_epic _ (touched_refl input (clock n)) s k E); [exact Hk|].
  split; [right; right; reflexivity|]. apply related_refl, relTask_refl, touched_refl.
Qed.

Lemma updateTask_related s e t n s' n' :
  updateTask clock s e t input n = (Success s', n') ->
  relState (touched input (clock n)) s s' /\ n' = S n.
Proof.
  unfold updateTask. destruct (findTask s e t) as [[E k T m]|] eqn:Hf; [|discriminate].
  unfold bindM, timestamp, ret. simpl. intros [= <- <-]. split; [|reflexivity].
  apply findTask_inv in Hf as (He & _ & Hm). simpl in He, Hm.
  apply findEpic_inv in He as [_ Hk]. simpl in Hk.
  apply (relState_epic _ (touched_refl input (clock n)) s k E); [exact Hk|].
  apply (relEpic_task _ (touched_refl input (clock n)) E m T); [exact Hm| |right; left; reflexivity].
  split; [right; right; reflexivity|].
  apply related_refl. intros z. apply touched_refl.
Qed.

Lemma updateSubtask_related s e t u n s' n' :
  updateSubtask clock s e t u input n = (Success s', n') ->
  relState (touched input (clock n)) s s' /\ n' = S n.
Proof.
  unfold updateSubtask.
  destruct (findSubtask s e t u) as [[[E k T m] X v]|] eqn:Hf; [|discriminate].
  unfold bindM, timestamp, ret. simpl. intros [= <- <-]. split; [|reflexivity].
  apply findSubtask_inv in Hf as (Ht & Hv). simpl in Ht, Hv.
  apply findTask_inv in Ht as (He & _ & Hm). simpl in He, Hm.
  apply findEpic_inv in He as [_ Hk]. simpl in Hk.
  apply (relState_epic _ (touched_refl input (clock n)) s k E); [exact Hk|].
  apply (relEpic_task _ (touched_refl input (clock n)) E m T); [exact Hm| |right; left; reflexivity].
  apply (relTask_subtask _ (touched_refl input (clock n)) T v X); [exact Hv| |right; left; reflexivity].
  right; right; reflexivity.
Qed.

Lemma updateStandaloneTask_related s t n s' n' :
  updateStandaloneTask clock s t input n = (Success s', n') ->
  relState (touched input (clock n)) s s' /\ n' = S n.
Proof.
  unfold updateStandaloneTask.
  destruct (findStandaloneTask s t) as [[T k]|] eqn:Hf; [|discriminate].
  unfold bindM, timestamp, ret. simpl. intros [= <- <-]. split; [|reflexivity].
  apply findStandaloneTask_inv in Hf as [_ Hk]. simpl in Hk.
  apply (relState_standalone _ (touched_refl input (clock n)) s k T); [exact Hk|].
  split; [right; right; reflexivity|].
  apply related_refl. intros z. apply touched_refl.
Qed.

Lemma standaloneSubtaskUpdate_related s t u n s' n' :
  standaloneSubtaskUpdate clock s t u input n = (Success s', n') ->
  relState (touched input (clock n)) s s' /\ n' = S n.
Proof.
  unfold standaloneSubtaskUpdate.
  destruct (findStandaloneTask s t) as [[T k]|] eqn:Hf; [|discriminate]. simpl.
  destruct (findIndex (hasId u) (subtasks T)) as [v|] eqn:Hi; [|discriminate].
  destruct (subtasks T !! v) as [X|] eqn:Hx; [|discriminate].
  unfold bindM, timestamp, ret. simpl. intros [= <- <-]. split; [|reflexivity].
  apply findStandaloneTask_inv in Hf as [_ Hk]. simpl in Hk.
  apply (relState_standalone _ (touched_refl input (clock n)) s k T); [exact Hk|].
  apply (relTask_subtask _ (touched_refl input (clock n)) T v X); [exact Hx| |right; left; reflexivity].
  right; right; reflexivity.
Qed.

End UpdateFrame.




(** ** The frame of markComplete *)

Lemma completedOrSame_refl f : completedOrSame f f.
Proof. unfold completedOrSame. tauto. Qed.

Lemma completedOrSame_trans f g h :
  completedOrSame f g -> completedOrSame g h -> completedOrSame f h.
Proof.
  unfold completedOrSame.
  intros (I1 & C1 & P1 & T1 & D1 & N1 & E1 & S1 & A1) (I2 & C2 & P2 & T2 & D2 & N2 & E2 & S2 & A2).
  repeat split; try congruence.
  - destruct S2 as [S2|S2]; [rewrite S2; exact S1 | now right].
  - destruct A2 as [A2|A2]; [|now right]. rewrite A2.
    destruct A1 as [A1|[A1 A1']]; [now left|]. right. split; [|exact A1'].
    destruct S2 as [S2|S2]; congruence.
Qed.

Lemma touched_completed now f f' : touched completedInput now f f' -> completedOrSame f f'.
Proof.
  unfold touched, completedOrSame. intros [->|[->| ->]]; simpl.
  - tauto.
  - tauto.
  - repeat split; auto.
Qed.

Section MarkCompleteFrame.
Variable clock : nat -> string.

Lemma stepsFrom_weaken s n lo hi lo' hi' r :
  (lo' <= lo)%nat -> (hi <= hi')%nat -> stepsFrom s n lo hi r -> stepsFrom s n lo' hi' r.
Proof. destruct r as [[s'|err] n']; simpl; [|auto]. intros ? ? [? ?]. split; [assumption|lia]. Qed.

Lemma stepsFrom_ret s n : stepsFrom s n 0 0 (ret (Success s) n).
Proof. simpl. split; [apply relState_refl, completedOrSame_refl | lia]. Qed.

Lemma stepsFrom_then s n a b c d (m : M (OperationResult State))
  (k : State -> M (OperationResult State)) :
  stepsFrom s n a b (m n) -> (forall s1 n1, stepsFrom s1 n1 c d (k s1 n1)) ->
  stepsFrom s n (a + c) (b + d)
    ((let! result := m in
      match result with
      | Success data => k data
      | Failure err => ret (Failure err)
      end) n).
Proof.
  unfold bindM. destruct (m n) as [[s1|err] n1]; simpl; [|auto].
  intros [R1 B1] Hk. specialize (Hk s1 n1).
  destruct (k s1 n1) as [[s'|err] n']; simpl in *; [|exact I].
  destruct Hk as [R2 B2]. split; [|lia].
  exact (relState_trans _ _ _ completedOrSame_trans s s1 s' R1 R2).
Qed.

Lemma related_steps s n r :
  (forall s' n', r = (Success s', n') ->
     relState (touched completedInput (clock n)) s s' /\ n' = S n) ->
  stepsFrom s n 1 1 r.
Proof.
  destruct r as [[s'|err] n']; simpl; [|auto]. intros H.
  destruct (H s' n' eq_refl) as [HR ->]. split; [|lia].
  exact (relState_impl _ _ s s' (touched_completed (clock n)) HR).
Qed.

Lemma updateEpic_steps s e n : stepsFrom s n 1 1 (updateEpic clock s e completedInput n).
Proof. apply related_steps. intros s' n'. apply updateEpic_related. Qed.

Lemma updateTask_steps s e t n : stepsFrom s n 1 1 (updateTask clock s e t completedInput n).
Proof. apply related_steps. intros s' n'. apply updateTask_related. Qed.

Lemma updateSubtask_steps s e t u n :
  stepsFrom s n 1 1 (updateSubtask clock s e t u completedInput n).
Proof. apply related_steps. intros s' n'. apply updateSubtask_related. Qed.

Lemma updateStandaloneTask_steps s t n :
  stepsFrom s n 1 1 (updateStandaloneTask clock s t completedInput n).
Proof. apply related_steps. intros s' n'. apply updateStandaloneTask_related. Qed.

Lemma standaloneSubtaskUpdate_steps s t u n :
  stepsFrom s n 1 1 (standaloneSubtaskUpdate clock s t u completedInput n).
Proof. apply related_steps. intros s' n'. apply standaloneSubtaskUpdate_related. Qed.

Lemma maybeCompleteEpic_steps s e n : stepsFrom s n 0 1 (maybeCompleteEpic clock s e n).
Proof.
  unfold maybeCompleteEpic.
  destruct (List.find _ _) as [E|];
    [|apply (stepsFrom_weaken s n 0 0); [lia|lia|apply stepsFrom_ret]].
  destruct (length (tasks E) =? 0)%nat;
    [apply (stepsFrom_weaken s n 0 0); [lia|lia|apply stepsFrom_ret]|].
  destruct (negb _);
    [apply (stepsFrom_weaken s n 0 0); [lia|lia|apply stepsFrom_ret]|].
  apply (stepsFrom_weaken s n 1 1); [lia|lia|apply updateEpic_steps].
Qed.

Lemma completeTaskAndCascade_steps s e t n :
  stepsFrom s n 1 2 (completeTaskAndCascade clock s e t n).
Proof.
  unfold completeTaskAndCascade.
  apply (stepsFrom_then s n 1 1 0 1 (updateTask clock s e t completedInput)
           (fun data => maybeCompleteEpic clock data e)).
  - apply updateTask_steps.
  - intros s1 n1. apply maybeCompleteEpic_steps.
Qed.

Lemma maybeCompleteTaskAndEpic_steps s e t n :
  stepsFrom s n 0 2 (maybeCompleteTaskAndEpic clock s e t n).
Proof.
  unfold maybeCompleteTaskAndEpic.
  destruct (_ ≫= _) as [T|];
    [|apply (stepsFrom_weaken s n 0 0); [lia|lia|apply stepsFrom_ret]].
  destruct (length (subtasks T) =? 0)%nat;
    [apply (stepsFrom_weaken s n 0 0); [lia|lia|apply stepsFrom_ret]|].
  destruct (negb _ || _);
    [apply (stepsFrom_weaken s n 0 0); [lia|lia|apply stepsFrom_ret]|].
  apply (stepsFrom_weaken s n 1 2); [lia|lia|].
  apply (stepsFrom_then s n 1 1 0 1 (updateTask clock s e t completedInput)
           (fun data => maybeCompleteEpic clock data e)).
  - apply updateTask_steps.
  - intros s1 n1. apply maybeCompleteEpic_steps.
Qed.

Lemma completeSubtaskAndCascade_steps s e t u n :
  stepsFrom s n 1 3 (completeSubtaskAndCascade clock s e t u n).
Proof.
  unfold completeSubtaskAndCascade.
  apply (stepsFrom_then s n 1 1 0 2 (updateSubtask clock s e t u completedInput)
           (fun data => maybeCompleteTaskAndEpic clock data e t)).
  - apply updateSubtask_steps.
  - intros s1 n1. apply maybeCompleteTaskAndEpic_steps.
Qed.

Lemma maybeCompleteStandaloneTask_steps s t n :
  stepsFrom s n 0 1 (maybeCompleteStandaloneTask clock s t n).
Proof.
  unfold maybeCompleteStandaloneTask.
  destruct (List.find _ _) as [T|];
    [|apply (stepsFrom_weaken s n 0 0); [lia|lia|apply stepsFrom_ret]].
  destruct (length (subtasks T) =? 0)%nat;
    [apply (stepsFrom_weaken s n 0 0); [lia|lia|apply stepsFrom_ret]|].
  destruct (negb _ || _);
    [apply (stepsFrom_weaken s n 0 0); [lia|lia|apply stepsFrom_ret]|].
  apply (stepsFrom_weaken s n 1 1); [lia|lia|apply updateStandaloneTask_steps].
Qed.

Lemma completeStandaloneSubtaskAndCascade_steps s t u n :
  stepsFrom s n 1 2 (completeStandaloneSubtaskAndCascade clock s t u n).
Proof.
  unfold completeStandaloneSubtaskAndCascade.
  apply (stepsFrom_then s n 1 1 0 1 (standaloneSubtaskUpdate clock s t u completedInput)
           (fun data => maybeCompleteStandaloneTask clock data t)).
  - apply standaloneSubtaskUpdate_steps.
  - intros s1 n1. apply maybeCompleteStandaloneTask_steps.
Qed.

Lemma searchFrom_found s n lo hi (m : M (OperationResult State)) :
  stepsFrom s n lo hi (m n) -> searchFrom s n lo hi ((let! r := m in ret (Some r)) n).
Proof. unfold bindM, ret. destruct (m n) as [r n']. auto. Qed.

Lemma findAndCompleteSubtask_steps s e t i n :
  searchFrom s n 1 3 (findAndCompleteSubtask clock s e t i n).
Proof.
  unfold findAndCompleteSubtask. destruct (List.find _ _); [|reflexivity].
  apply searchFrom_found, completeSubtaskAndCascade_steps.
Qed.

Lemma findAndCompleteTaskFrom_steps s e i ts n :
  searchFrom s n 1 3 (findAndCompleteTaskFrom clock s e i ts n).
Proof.
  induction ts as [|t ts IH]; simpl; [reflexivity|].
  destruct (hasId i t).
  - apply searchFrom_found.
    apply (stepsFrom_weaken s n 1 2); [lia|lia|apply completeTaskAndCascade_steps].
  - unfold bindM at 1. pose proof (findAndCompleteSubtask_steps s e t i n) as H.
    destruct (findAndCompleteSubtask clock s e t i n) as [[r|] n1]; simpl in H.
    + exact H.
    + subst n1. exact IH.
Qed.

Lemma findAndCompleteStandaloneSubtask_steps s t i n :
  searchFrom s n 1 2 (findAndCompleteStandaloneSubtask clock s t i n).
Proof.
  unfold findAndCompleteStandaloneSubtask. destruct (List.find _ _); [|reflexivity].
  apply searchFrom_found, completeStandaloneSubtaskAndCascade_steps.
Qed.

Lemma markCompleteStandaloneFrom_steps s i ts n :
  stepsFrom s n 1 3 (markCompleteStandaloneFrom clock s i ts n).
Proof.
  induction ts as [|t ts IH]; simpl; [exact I|].
  destruct (hasId i t).
  - apply (stepsFrom_weaken s n 1 1); [lia|lia|apply updateStandaloneTask_steps].
  - unfold bindM at 1. pose proof (findAndCompleteStandaloneSubtask_steps s t i n) as H.
    destruct (findAndCompleteStandaloneSubtask clock s t i n) as [[r|] n1]; simpl in H.
    + apply (stepsFrom_weaken s n 1 2); [lia|lia|exact H].
    + subst n1. exact IH.
Qed.

Lemma markCompleteFrom_steps s i es n :
  stepsFrom s n 1 3 (markCompleteFrom clock s i es n).
Proof.
  induction es as [|e es IH]; simpl; [apply markCompleteStandaloneFrom_steps|].
  destruct (hasId i e).
  - apply (stepsFrom_weaken s n 1 1); [lia|lia|apply updateEpic_steps].
  - unfold bindM at 1. pose proof (findAndCompleteTaskFrom_steps s e i (tasks e) n) as H.
    unfold findAndCompleteTask.
    destruct (findAndCompleteTaskFrom clock s e i (tasks e) n) as [[r|] n1]; simpl in H.
    + exact H.
    + subst n1. exact IH.
Qed.

End MarkCompleteFrame.

(** X14: a successful markComplete, cascade included, keeps the version and
    the tree of the state; of each item it changes at most [updated_at],
    and the status together with [completed_at] when the status becomes
    completed: no item is reopened, moved, added or removed, and no
    [completed_at] is cleared.  It reads the clock at least once and at most
    three times. *)
Theorem X14_markComplete_frame clock s i n s' n' :
  markComplete clock s i n = (Success s', n') ->
  relState completedOrSame s s' /\ (n < n' <= n + 3)%nat.
Proof.
  intros H. pose proof (markCompleteFrom_steps clock s i (epics s) n) as Hs.
  unfold markComplete in H. rewrite H in Hs. destruct Hs as [HR HB]. split; [exact HR|lia].
Qed.

(** The subtask s1 of [statePending] is completed and the cascade reaches
    the task and the epic. *)
Lemma X14_markComplete_frame_witness :
  exists s', markComplete demoClock statePending "s1" 0 = (Success s', 3%nat) /\
             relState completedOrSame statePending s' /\ (0 < 3 <= 0 + 3)%nat.
Proof.
  eexists. split; [reflexivity|].
  exact (X14_markComplete_frame demoClock statePending "s1" 0 _ 3%nat eq_refl).
Defined.

(** ** Where an id is *)

Lemma first_tree {A} (ids : A -> list string) (i : string) (l : list A) :
  i ∈ concat (map ids l) ->
  exists l1 x l2, l = l1 ++ x :: l2 /\ (i ∉ concat (map ids l1)) /\ i ∈ ids x.
Proof.
  induction l as [|x l IH]; simpl.
  - intros Hi. now apply not_elem_of_nil in Hi.
  - intros Hi. destruct (decide (i ∈ ids x)) as [Hx|Hx].
    + exists [], x, l. repeat split; [apply not_elem_of_nil | exact Hx].
    + apply elem_of_app in Hi as [Hi|Hi]; [contradiction|].
      destruct (IH Hi) as (l1 & y & l2 & -> & Hl1 & Hy).
      exists (x :: l1), y, l2. repeat split; [|exact Hy].
      simpl. apply not_elem_of_app. split; assumption.
Qed.

Lemma first_id {T} `{Entity T} (i : string) (l : list T) :
  i ∈ map (fun y => id (fields y)) l ->
  exists l1 x l2, l = l1 ++ x :: l2 /\ absent i l1 /\ id (fields x) = i.
Proof.
  induction l as [|x l IH]; simpl.
  - intros Hi. now apply not_elem_of_nil in Hi.
  - intros Hi. destruct (String.eqb_spec (id (fields x)) i) as [E|E].
    + exists [], x, l. repeat split; [constructor | exact E].
    + apply elem_of_cons in Hi as [Hi|Hi]; [congruence|].
      destruct (IH Hi) as (l1 & y & l2 & -> & Hl1 & Hy).
      exists (x :: l1), y, l2. repeat split; [constructor; assumption | exact Hy].
Qed.

(** An id of the state has a first place in document order. *)
Lemma allIds_Located s i : i ∈ allIds s -> Located s i.
Proof.
  unfold allIds. intros Hi.
  destruct (decide (i ∈ concat (map epicIds (epics s)))) as [He|He].
  - destruct (first_tree epicIds i _ He) as (l1 & E & l2 & HE & Hl1 & HiE).
    destruct (String.eqb_spec (id (fields E)) i) as [EE|EE];
      [exact (Located_epic s i l1 E l2 HE Hl1 EE)|].
    unfold epicIds in HiE. apply elem_of_cons in HiE as [HiE|HiE]; [congruence|].
    destruct (first_tree taskIds i _ HiE) as (t1 & T & t2 & HT & Ht1 & HiT).
    destruct (String.eqb_spec (id (fields T)) i) as [ET|ET];
      [exact (Located_task s i l1 E l2 t1 T t2 HE Hl1 EE HT Ht1 ET)|].
    unfold taskIds in HiT. apply elem_of_cons in HiT as [HiT|HiT]; [congruence|].
    destruct (first_id i _ HiT) as (u1 & X & u2 & HX & Hu1 & EX).
    exact (Located_subtask s i l1 E l2 t1 T t2 u1 X u2 HE Hl1 EE HT Ht1 ET HX Hu1 EX).
  - apply elem_of_app in Hi as [Hi|Hi]; [contradiction|].
    destruct (first_tree taskIds i _ Hi) as (t1 & T & t2 & HT & Ht1 & HiT).
    assert (Hs : standalone s = Some (t1 ++ T :: t2)).
    { destruct (standalone s); simpl in HT; [now rewrite HT | now destruct t1]. }
    destruct (String.eqb_spec (id (fields T)) i) as [ET|ET];
      [exact (Located_standalone_task s i t1 T t2 He Hs Ht1 ET)|].
    unfold taskIds in HiT. apply elem_of_cons in HiT as [HiT|HiT]; [congruence|].
    destruct (first_id i _ HiT) as (u1 & X & u2 & HX & Hu1 & EX).
    exact (Located_standalone_subtask s i t1 T t2 u1 X u2 He Hs Ht1 ET HX Hu1 EX).
Qed.

Lemma Located_ItemAt s i : Located s i -> exists f, ItemAt s f /\ id f = i.
Proof.
  intros [l1 E l2 He _ Hi | l1 E l2 t1 T t2 He _ _ Ht _ Hi
         | l1 E l2 t1 T t2 u1 X u2 He _ _ Ht _ _ Hx _ Hi
         | t1 T t2 _ Hs _ Hi | t1 T t2 u1 X u2 _ Hs _ _ Hx _ Hi].
  - exists (fields E). split; [exact (ItemAt_epic s l1 E l2 He) | exact Hi].
  - exists (fields T). split; [exact (ItemAt_task s l1 E l2 t1 T t2 He Ht) | exact Hi].
  - exists (fields X). split; [exact (ItemAt_subtask s l1 E l2 t1 T t2 u1 X u2 He Ht Hx) | exact Hi].
  - exists (fields T). split; [exact (ItemAt_standalone_task s t1 T t2 Hs) | exact Hi].
  - exists (fields X). split; [exact (ItemAt_standalone_subtask s t1 T t2 u1 X u2 Hs Hx) | exact Hi].
Qed.

Lemma flattenTask_in e t ts :
  In t ts -> In (flattenTask e t) (concat (map (flattenTaskTree e) ts)).
Proof.
  intros Ht. apply in_concat. exists (flattenTaskTree e t).
  split; [now apply in_map | now left].
Qed.

Lemma flattenSubtask_in e t (u : Subtask) ts :
  In t ts -> In u (subtasks t) ->
  In (flattenSubtask e t u) (concat (map (flattenTaskTree e) ts)).
Proof.
  intros Ht Hu. apply in_concat. exists (flattenTaskTree e t).
  split; [now apply in_map|]. right. now apply in_map.
Qed.

Lemma in_epicTree s e x : In e (epics s) -> In x (flattenEpicTree e) -> In x (flattenState s).
Proof.
  intros He Hx. unfold flattenState. apply in_or_app. left. apply in_concat.
  exists (flattenEpicTree e). split; [now apply in_map | exact Hx].
Qed.

(** An item of the state is an item of its flat list. *)
Lemma ItemAt_flat s f : ItemAt s f -> exists it, In it (flattenState s) /\ flat it = f.
Proof.
  intros [l1 E l2 He | l1 E l2 t1 T t2 He Ht | l1 E l2 t1 T t2 u1 X u2 He Ht Hx
         | t1 T t2 Hs | t1 T t2 u1 X u2 Hs Hx].
  - exists (flattenEpic E). split; [|reflexivity].
    apply flattenEpic_in. rewrite He. apply in_elt.
  - exists (flattenTask (Some E) T). split; [|reflexivity].
    apply (in_epicTree s E); [rewrite He; apply in_elt|]. right.
    apply flattenTask_in. rewrite Ht. apply in_elt.
  - exists (flattenSubtask (Some E) T X). split; [|reflexivity].
    apply (in_epicTree s E); [rewrite He; apply in_elt|]. right.
    apply flattenSubtask_in; [rewrite Ht | rewrite Hx]; apply in_elt.
  - exists (flattenTask None T). split; [|reflexivity].
    unfold flattenState. apply in_or_app. right. rewrite Hs. simpl.
    apply flattenTask_in, in_elt.
  - exists (flattenSubtask None T X). split; [|reflexivity].
    unfold flattenState. apply in_or_app. right. rewrite Hs. simpl.
    apply flattenSubtask_in; [|rewrite Hx]; apply in_elt.
Qed.

Lemma findFlat_unique l it :
  NoDup (map (fun x => id (flat x)) l) -> In it l -> findFlat (id (flat it)) l = Some it.
Proof.
  unfold findFlat. induction l as [|x l IH]; simpl; [intros _ []|].
  intros Hn Hin. apply NoDup_cons in Hn as [Hx Hn].
  destruct Hin as [->|Hin]; [now rewrite String.eqb_refl|].
  destruct (String.eqb_spec (id (flat x)) (id (flat it))) as [E|E]; [|auto].
  exfalso. apply Hx. rewrite E. apply list_elem_of_In.
  exact (in_map (fun x => id (flat x)) l it Hin).
Qed.

(** With unique ids findById finds each item of the state under its id. *)
Lemma ItemAt_findById s f :
  uniqueIds s -> ItemAt s f -> exists it, findById s (id f) = Some it /\ flat it = f.
Proof.
  intros Hu Hf. destruct (ItemAt_flat s f Hf) as (it & Hin & <-).
  exists it. split; [|reflexivity]. unfold findById. apply findFlat_unique; [|exact Hin].
  unfold uniqueIds in Hu. now rewrite allIds_flatten in Hu.
Qed.

(** ** Related states have the same ids *)

Section RelatedIds.
Variable R : Fields -> Fields -> Prop.
Hypothesis R_id : forall f f', R f f' -> id f' = id f.

Lemma relTask_ids t t' : relTask R t t' -> taskIds t' = taskIds t.
Proof.
  intros [Hf Hs]. unfold taskIds. rewrite (R_id _ _ Hf). f_equal.
  induction Hs as [|u u' l l' Hu _ IH]; [reflexivity|].
  cbn [map]. f_equal; [exact (R_id _ _ Hu) | exact IH].
Qed.

Lemma relTasks_ids ts ts' :
  Forall2 (relTask R) ts ts' -> concat (map taskIds ts') = concat (map taskIds ts).
Proof.
  induction 1 as [|t t' l l' Ht _ IH]; [reflexivity|].
  cbn [map concat]. now rewrite (relTask_ids _ _ Ht), IH.
Qed.

Lemma relEpic_ids e e' : relEpic R e e' -> epicIds e' = epicIds e.
Proof.
  intros [Hf Hs]. unfold epicIds. now rewrite (R_id _ _ Hf), (relTasks_ids _ _ Hs).
Qed.

Lemma relState_ids s s' : relState R s s' -> allIds s' = allIds s.
Proof.
  intros (_ & He & Ht). unfold allIds. rewrite (relTasks_ids _ _ Ht). f_equal.
  induction He as [|e e' l l' Hee _ IH]; [reflexivity|].
  cbn [map concat]. now rewrite (relEpic_ids _ _ Hee), IH.
Qed.

End RelatedIds.

Lemma completedOrSame_id f f' : completedOrSame f f' -> id f' = id f.
Proof. now intros [H _]. Qed.

(** ** markComplete and removeItem on an id *)

Section OnAnId.
Variable clock : nat -> string.

Lemma removeItemStandaloneFrom_skip s i ts rest m n :
  i ∉ concat (map taskIds ts) ->
  removeItemStandaloneFrom clock s i m (ts ++ rest) n =
  removeItemStandaloneFrom clock s i (length ts + m) rest n.
Proof.
  revert m. induction ts as [|t ts IH]; intros m; [reflexivity|]. intros Hi.
  change (concat (map taskIds (t :: ts))) with (taskIds t ++ concat (map taskIds ts)) in Hi.
  simpl.
  apply not_elem_of_app in Hi as [Ht Hts].
  apply not_in_taskIds in Ht as [Hid Hsub]. rewrite Hid.
  unfold bindM, findAndRemoveStandaloneSubtask. rewrite (findIndex_absent i _ Hsub). simpl.
  rewrite IH by assumption. f_equal. lia.
Qed.

Lemma markComplete_absent s i n :
  i ∉ allIds s -> markComplete clock s i n = (Failure ("Item not found: " ++ i), n).
Proof.
  unfold allIds. intros Hi. apply not_elem_of_app in Hi as [He Ht].
  unfold markComplete.
  rewrite <- (app_nil_r (epics s)), markCompleteFrom_skip by exact He.
  cbn [markCompleteFrom].
  rewrite <- (app_nil_r (default [] (standalone s))), markCompleteStandaloneFrom_skip
    by exact Ht.
  reflexivity.
Qed.

Lemma removeItem_absent s i n :
  i ∉ allIds s -> removeItem clock s i n = (Failure ("Item not found: " ++ i), n).
Proof.
  unfold allIds. intros Hi. apply not_elem_of_app in Hi as [He Ht].
  unfold removeItem.
  rewrite <- (app_nil_r (epics s)), removeItemFrom_skip by exact He.
  cbn [removeItemFrom].
  rewrite <- (app_nil_r (default [] (standalone s))), removeItemStandaloneFrom_skip
    by exact Ht.
  reflexivity.
Qed.

(** removeItem at each place an id can have. *)
Lemma removeItem_at_epic s i l1 E l2 n :
  epics s = l1 ++ E :: l2 -> i ∉ concat (map epicIds l1) -> id (fields E) = i ->
  removeItem clock s i n = (Success (mkState (version s) (l1 ++ l2) (standalone s)), n).
Proof.
  intros He Hl1 Hi. unfold removeItem. rewrite He, removeItemFrom_skip by exact Hl1.
  cbn [removeItemFrom]. rewrite (proj2 (hasId_true i E) Hi).
  unfold removeEpic, ret. now rewrite Nat.add_0_r, He, delete_at.
Qed.

Lemma removeItem_at_task s i l1 E l2 t1 T t2 n :
  epics s = l1 ++ E :: l2 -> i ∉ concat (map epicIds l1) -> id (fields E) <> i ->
  tasks E = t1 ++ T :: t2 -> i ∉ concat (map taskIds t1) -> id (fields T) = i ->
  removeItem clock s i n =
  (Success (mkState (version s)
     (l1 ++ mkEpic (setUpdatedAt (fields E) (clock n)) (t1 ++ t2) :: l2)
     (standalone s)), S n).
Proof.
  intros He Hl1 HE Ht Ht1 Hi. unfold removeItem. rewrite He, removeItemFrom_skip by exact Hl1.
  cbn [removeItemFrom]. rewrite (proj2 (hasId_false i E) HE).
  unfold bindM at 1. unfold findAndRemoveTask.
  rewrite Ht, findAndRemoveTaskFrom_skip by exact Ht1. cbn [findAndRemoveTaskFrom].
  rewrite (proj2 (hasId_true i T) Hi).
  unfold bindM, removeTask, timestamp, ret, updateEpicInState, bindM.
  rewrite !Nat.add_0_r, Ht, He, delete_at, insert_at. reflexivity.
Qed.

Lemma removeItem_at_subtask s i l1 E l2 t1 T t2 u1 (X : Subtask) u2 n :
  epics s = l1 ++ E :: l2 -> i ∉ concat (map epicIds l1) -> id (fields E) <> i ->
  tasks E = t1 ++ T :: t2 -> i ∉ concat (map taskIds t1) -> id (fields T) <> i ->
  subtasks T = u1 ++ X :: u2 -> absent i u1 -> id (fields X) = i ->
  removeItem clock s i n =
  (Success (mkState (version s)
     (l1 ++ mkEpic (setUpdatedAt (fields E) (clock n))
              (t1 ++ mkTask (setUpdatedAt (fields T) (clock n)) (u1 ++ u2) :: t2) :: l2)
     (standalone s)), S n).
Proof.
  intros He Hl1 HE Ht Ht1 HT Hx Hu1 Hi.
  unfold removeItem. rewrite He, removeItemFrom_skip by exact Hl1.
  cbn [removeItemFrom]. rewrite (proj2 (hasId_false i E) HE).
  unfold bindM at 1. unfold findAndRemoveTask.
  rewrite Ht, findAndRemoveTaskFrom_skip by exact Ht1. cbn [findAndRemoveTaskFrom].
  rewrite (proj2 (hasId_false i T) HT).
  unfold bindM at 1. unfold findAndRemoveSubtask.
  rewrite Hx, (findIndex_at i u1 X u2 Hu1 Hi).
  unfold bindM, removeSubtask, timestamp, ret, updateEpicInState, updateTaskInEpic, bindM.
  cbn [tasks fields Task_entity Epic_entity task_fields epic_fields subtasks].
  rewrite !Nat.add_0_r, Hx, Ht, He, delete_at, !insert_at. reflexivity.
Qed.

Lemma removeItem_at_standalone_task s i t1 T t2 n :
  i ∉ concat (map epicIds (epics s)) ->
  standalone s = Some (t1 ++ T :: t2) -> i ∉ concat (map taskIds t1) -> id (fields T) = i ->
  removeItem clock s i n = (Success (mkState (version s) (epics s) (Some (t1 ++ t2))), n).
Proof.
  intros He Hs Ht1 Hi. unfold removeItem.
  rewrite <- (app_nil_r (epics s)) at 1. rewrite removeItemFrom_skip by exact He.
  cbn [removeItemFrom]. rewrite Hs. cbn [from_option Datatypes.id].
  rewrite removeItemStandaloneFrom_skip by exact Ht1. cbn [removeItemStandaloneFrom].
  rewrite (proj2 (hasId_true i T) Hi).
  unfold removeStandaloneTask, ret. rewrite Hs. cbn [from_option Datatypes.id].
  now rewrite Nat.add_0_r, delete_at.
Qed.

Lemma removeItem_at_standalone_subtask s i t1 T t2 u1 (X : Subtask) u2 n :
  i ∉ concat (map epicIds (epics s)) ->
  standalone s = Some (t1 ++ T :: t2) -> i ∉ concat (map taskIds t1) ->
  id (fields T) <> i -> subtasks T = u1 ++ X :: u2 -> absent i u1 -> id (fields X) = i ->
  removeItem clock s i n =
  (Success (mkState (version s) (epics s)
     (Some (t1 ++ mkTask (setUpdatedAt (fields T) (clock n)) (u1 ++ u2) :: t2))), S n).
Proof.
  intros He Hs Ht1 HT Hx Hu1 Hi. unfold removeItem.
  rewrite <- (app_nil_r (epics s)) at 1. rewrite removeItemFrom_skip by exact He.
  cbn [removeItemFrom]. rewrite Hs. cbn [from_option Datatypes.id].
  rewrite removeItemStandaloneFrom_skip by exact Ht1. cbn [removeItemStandaloneFrom].
  rewrite (proj2 (hasId_false i T) HT).
  unfold bindM at 1. unfold findAndRemoveStandaloneSubtask.
  rewrite Hx, (findIndex_at i u1 X u2 Hu1 Hi).
  unfold bindM, removeStandaloneSubtask, timestamp, ret, updateStandaloneTaskInState, bindM.
  rewrite Hs. cbn [from_option Datatypes.id].
  rewrite !Nat.add_0_r, Hx, delete_at, insert_at. reflexivity.
Qed.

(** With unique ids, markComplete on the id of an item succeeds and leaves
    that item completed at the first reading of the clock. *)
Lemma markComplete_completes s f n :
  uniqueIds s -> ItemAt s f ->
  exists s' n', markComplete clock s (id f) n = (Success s', n') /\
                ItemAt s' (completedAt f (clock n)).
Proof.
  intros Hu Hf. destruct Hf as [l1 E l2 He | l1 E l2 t1 T t2 He Ht
    | l1 E l2 t1 T t2 u1 X u2 He Ht Hx | t1 T t2 Hs | t1 T t2 u1 X u2 Hs Hx].
  - rewrite (markComplete_epic clock s l1 E l2 n Hu He).
    rewrite (updateEpic_at clock s l1 E l2 _ completedInput n He
               (unique_epic_absent s l1 E l2 Hu He) eq_refl).
    eexists _, _. split; [reflexivity|].
    refine (ItemAt_epic _ l1 (mkEpic (completedAt (fields E) (clock n)) (tasks E)) l2 _);
      reflexivity.
  - assert (Hl := unique_epic_absent s l1 E l2 Hu He).
    destruct (unique_epic s l1 E l2 Hu He) as [HE _].
    assert (Hl' := unique_task_absent E t1 T t2 HE Ht).
    rewrite (markComplete_task clock s l1 E l2 t1 T t2 n Hu He Ht).
    rewrite (completeTaskAndCascade_at clock s l1 E l2 t1 T t2 n He Hl Ht Hl').
    destruct (forallb isCompleted t1 && forallb isCompleted t2);
      (eexists _, _; split; [reflexivity|]);
      refine (ItemAt_task _ l1 _ l2 t1
               (mkTask (completedAt (fields T) (clock n)) (subtasks T)) t2 _ _); reflexivity.
  - assert (Hl := unique_epic_absent s l1 E l2 Hu He).
    destruct (unique_epic s l1 E l2 Hu He) as [HE _].
    assert (Hl' := unique_task_absent E t1 T t2 HE Ht).
    destruct (unique_task E t1 T t2 HE Ht) as [HT _].
    destruct (unique_subtask T u1 X u2 HT Hx) as [_ Hl''].
    rewrite (markComplete_subtask clock s l1 E l2 t1 T t2 u1 X u2 n Hu He Ht Hx).
    rewrite (completeSubtaskAndCascade_at clock s l1 E l2 t1 T t2 u1 X u2 n
               He Hl Ht Hl' Hx Hl'').
    set (X' := mkSubtask (completedAt (fields X) (clock n))).
    set (T1 := mkTask (setUpdatedAt (fields T) (clock n)) (u1 ++ X' :: u2)).
    set (E1 := mkEpic (setUpdatedAt (fields E) (clock n)) (t1 ++ T1 :: t2)).
    set (s1 := mkState (version s) (l1 ++ E1 :: l2) (standalone s)).
    destruct (forallb isCompleted u1 && forallb isCompleted u2 && negb (isCompleted T)).
    + assert (Hl1 : absent (id (fields E1)) l1) by exact Hl.
      assert (Hl1' : absent (id (fields T1)) t1) by exact Hl'.
      rewrite (completeTaskAndCascade_at clock s1 l1 E1 l2 t1 T1 t2 (S n)
                 eq_refl Hl1 eq_refl Hl1').
      destruct (forallb isCompleted t1 && forallb isCompleted t2);
        (eexists _, _; split; [reflexivity|]);
        refine (ItemAt_subtask _ l1 _ l2 t1 _ t2 u1 X' u2 _ _ _); reflexivity.
    + eexists _, _. split; [reflexivity|].
      refine (ItemAt_subtask s1 l1 E1 l2 t1 T1 t2 u1 X' u2 _ _ _); reflexivity.
  - rewrite (markComplete_standalone_task clock s t1 T t2 n Hu Hs).
    rewrite (updateStandaloneTask_at clock s t1 T t2 _ completedInput n Hs
               (unique_standalone_absent s t1 T t2 Hu Hs) eq_refl).
    eexists _, _. split; [reflexivity|].
    refine (ItemAt_standalone_task _ t1
             (mkTask (completedAt (fields T) (clock n)) (subtasks T)) t2 _); reflexivity.
  - assert (Hl := unique_standalone_absent s t1 T t2 Hu Hs).
    destruct (unique_standalone s t1 T t2 Hu Hs) as [HT _].
    destruct (unique_subtask T u1 X u2 HT Hx) as [_ Hl'].
    rewrite (markComplete_standalone_subtask clock s t1 T t2 u1 X u2 n Hu Hs Hx).
    rewrite (completeStandaloneSubtaskAndCascade_at clock s t1 T t2 u1 X u2 n Hs Hl Hx Hl').
    set (X' := mkSubtask (completedAt (fields X) (clock n))).
    destruct (forallb isCompleted u1 && forallb isCompleted u2 && negb (isCompleted T));
      (eexists _, _; split; [reflexivity|]);
      refine (ItemAt_standalone_subtask _ t1 _ t2 u1 X' u2 _ _); reflexivity.
Qed.

Lemma markComplete_unique s i n s' n' :
  uniqueIds s -> markComplete clock s i n = (Success s', n') ->
  allIds s' = allIds s /\ uniqueIds s'.
Proof.
  intros Hu H. pose proof (markCompleteFrom_steps clock s i (epics s) n) as Hs.
  unfold markComplete in H. rewrite H in Hs. destruct Hs as [HR _].
  assert (Hids := relState_ids _ completedOrSame_id s s' HR).
  split; [exact Hids|]. unfold uniqueIds. now rewrite Hids.
Qed.

(** What markComplete does on the id of an item of a state with unique
    ids. *)
Lemma markComplete_present s i n :
  uniqueIds s -> i ∈ allIds s ->
  exists s' n' it it',
    markComplete clock s i n = (Success s', n') /\
    findById s i = Some it /\ findById s' i = Some it' /\
    flat it' = completedAt (flat it) (clock n) /\
    allIds s' = allIds s /\ uniqueIds s'.
Proof.
  intros Hu Hi.
  destruct (Located_ItemAt s i (allIds_Located s i Hi)) as (f & Hf & <-).
  destruct (markComplete_completes s f n Hu Hf) as (s' & n' & Hm & Hf').
  destruct (markComplete_unique s (id f) n s' n' Hu Hm) as [Hids Hu'].
  destruct (ItemAt_findById s f Hu Hf) as (it & Hit & Hflat).
  destruct (ItemAt_findById s' _ Hu' Hf') as (it' & Hit' & Hflat').
  exists s', n', it, it'. repeat split; auto.
  rewrite Hflat', Hflat. reflexivity.
Qed.

End OnAnId.

(** X15: on an id that no item of the state carries, markComplete and
    removeItem fail with 'Item not found: <id>' and read no clock. *)
Theorem X15_absent_id_fails clock s i n :
  i ∉ allIds s ->
  markComplete clock s i n = (Failure ("Item not found: " ++ i), n) /\
  removeItem clock s i n = (Failure ("Item not found: " ++ i), n).
Proof.
  intros Hi. split; [now apply markComplete_absent | now apply removeItem_absent].
Qed.

(** No item of [stateTwoTasks] has the id "zz". *)
Lemma X15_absent_id_fails_witness :
  markComplete demoClock stateTwoTasks "zz" 0 = (Failure "Item not found: zz", 0%nat) /\
  removeItem demoClock stateTwoTasks "zz" 0 = (Failure "Item not found: zz", 0%nat).
Proof.
  apply (X15_absent_id_fails demoClock stateTwoTasks "zz" 0).
  intros H. apply list_elem_of_In in H. vm_compute in H. intuition discriminate.
Defined.

(** X16: in a state with unique ids, markComplete on the id of any item
    succeeds; the item found under that id afterwards is the item found
    before with status completed and [updated_at] and [completed_at] set to
    the first reading of the clock, its other attributes unchanged; the ids
    of the state are the same, in the same order. *)
Theorem X16_markComplete_present clock s i n :
  uniqueIds s -> i ∈ allIds s ->
  exists s' n' it it',
    markComplete clock s i n = (Success s', n') /\
    findById s i = Some it /\ findById s' i = Some it' /\
    flat it' = completedAt (flat it) (clock n) /\
    allIds s' = allIds s /\ uniqueIds s'.
Proof. apply markComplete_present. Qed.

(** The task t2 of [stateTwoTasks]. *)
Lemma X16_markComplete_present_witness :
  exists s' n' it it',
    markComplete demoClock stateTwoTasks "t2" 0 = (Success s', n') /\
    findById stateTwoTasks "t2" = Some it /\ findById s' "t2" = Some it' /\
    flat it' = completedAt (flat it) (demoClock 0) /\
    allIds s' = allIds stateTwoTasks /\ uniqueIds s'.
Proof.
  apply (X16_markComplete_present demoClock stateTwoTasks "t2" 0).
  - unique_ids.
  - apply list_elem_of_In. vm_compute. auto.
Defined.

(** ** What removeItem removes *)

Lemma epicIds_eq e : epicIds e = id (fields e) :: concat (map taskIds (tasks e)).
Proof. reflexivity. Qed.

Lemma taskIds_eq t :
  taskIds t = id (fields t) :: map (fun u : Subtask => id (fields u)) (subtasks t).
Proof. reflexivity. Qed.

Ltac flat_ids :=
  unfold allIds; cbn [epics standalone from_option Datatypes.id];
  rewrite ?concat_map_middle, ?epicIds_eq, ?taskIds_eq;
  cbn [tasks subtasks fields Epic_entity Task_entity epic_fields task_fields id];
  rewrite ?concat_map_middle, ?taskIds_eq;
  cbn [tasks subtasks fields Epic_entity Task_entity epic_fields task_fields id];
  rewrite ?map_app, ?concat_app; cbn [map];
  repeat (rewrite <- app_assoc || rewrite <- app_comm_cons).

Lemma removeItem_located clock s i n :
  Located s i ->
  exists s' n' pre sub post,
    removeItem clock s i n = (Success s', n') /\ (n' = n \/ n' = S n) /\
    version s' = version s /\
    allIds s = pre ++ i :: sub ++ post /\ allIds s' = pre ++ post /\ i ∉ pre.
Proof.
  intros [l1 E l2 He Hl1 Hi | l1 E l2 t1 T t2 He Hl1 HE Ht Ht1 Hi
         | l1 E l2 t1 T t2 u1 X u2 He Hl1 HE Ht Ht1 HT Hx Hu1 Hi
         | t1 T t2 Hep Hs Ht1 Hi | t1 T t2 u1 X u2 Hep Hs Ht1 HT Hx Hu1 Hi].
  - subst i. rewrite (removeItem_at_epic clock s _ l1 E l2 n He Hl1 eq_refl).
    exists (mkState (version s) (l1 ++ l2) (standalone s)), n,
      (concat (map epicIds l1)), (concat (map taskIds (tasks E))),
      (concat (map epicIds l2) ++ concat (map taskIds (default [] (standalone s)))).
    repeat split; auto.
    + unfold allIds. rewrite He. flat_ids. reflexivity.
    + flat_ids. reflexivity.
  - subst i. rewrite (removeItem_at_task clock s _ l1 E l2 t1 T t2 n He Hl1 HE Ht Ht1 eq_refl).
    eexists _, _,
      (concat (map epicIds l1) ++ id (fields E) :: concat (map taskIds t1)),
      (map (fun u : Subtask => id (fields u)) (subtasks T)),
      (concat (map taskIds t2) ++ concat (map epicIds l2)
       ++ concat (map taskIds (default [] (standalone s)))).
    split; [reflexivity|]. repeat split; auto.
    + unfold allIds. rewrite He. flat_ids. rewrite Ht. flat_ids. reflexivity.
    + flat_ids. reflexivity.
    + apply not_elem_of_app. split; [exact Hl1|].
      apply not_elem_of_cons. split; [congruence | exact Ht1].
  - subst i. rewrite (removeItem_at_subtask clock s _ l1 E l2 t1 T t2 u1 X u2 n
               He Hl1 HE Ht Ht1 HT Hx Hu1 eq_refl).
    eexists _, _,
      (concat (map epicIds l1) ++ id (fields E) :: concat (map taskIds t1)
       ++ id (fields T) :: map (fun u : Subtask => id (fields u)) u1),
      [],
      (map (fun u : Subtask => id (fields u)) u2 ++ concat (map taskIds t2)
       ++ concat (map epicIds l2) ++ concat (map taskIds (default [] (standalone s)))).
    split; [reflexivity|]. repeat split; auto.
    + unfold allIds. rewrite He. flat_ids. rewrite Ht. flat_ids. rewrite Hx. flat_ids.
      reflexivity.
    + flat_ids. reflexivity.
    + apply not_elem_of_app. split; [exact Hl1|].
      apply not_elem_of_cons. split; [congruence|].
      apply not_elem_of_app. split; [exact Ht1|].
      apply not_elem_of_cons. split; [congruence|].
      intros Hin. apply list_elem_of_In, in_map_iff in Hin as (u & Hu & Hin).
      exact (proj1 (List.Forall_forall _ _) Hu1 u Hin Hu).
  - subst i. rewrite (removeItem_at_standalone_task clock s _ t1 T t2 n Hep Hs Ht1 eq_refl).
    eexists _, _,
      (concat (map epicIds (epics s)) ++ concat (map taskIds t1)),
      (map (fun u : Subtask => id (fields u)) (subtasks T)),
      (concat (map taskIds t2)).
    split; [reflexivity|]. repeat split; auto.
    + unfold allIds. rewrite Hs. flat_ids. reflexivity.
    + flat_ids. reflexivity.
    + apply not_elem_of_app. split; assumption.
  - subst i. rewrite (removeItem_at_standalone_subtask clock s _ t1 T t2 u1 X u2 n
               Hep Hs Ht1 HT Hx Hu1 eq_refl).
    eexists _, _,
      (concat (map epicIds (epics s)) ++ concat (map taskIds t1)
       ++ id (fields T) :: map (fun u : Subtask => id (fields u)) u1),
      [],
      (map (fun u : Subtask => id (fields u)) u2 ++ concat (map taskIds t2)).
    split; [reflexivity|]. repeat split; auto.
    + unfold allIds. rewrite Hs. flat_ids. rewrite Hx. flat_ids. reflexivity.
    + flat_ids. reflexivity.
    + apply not_elem_of_app. split; [exact Hep|].
      apply not_elem_of_app. split; [exact Ht1|].
      apply not_elem_of_cons. split; [congruence|].
      intros Hin. apply list_elem_of_In, in_map_iff in Hin as (u & Hu & Hin).
      exact (proj1 (List.Forall_forall _ _) Hu1 u Hin Hu).
Qed.

Lemma NoDup_remove_block (pre sub post : list string) (i : string) :
  NoDup (pre ++ i :: sub ++ post) -> NoDup (pre ++ post) /\ (i ∉ pre ++ post).
Proof.
  intros Hn. apply NoDup_app in Hn as (Hpre & Hdis & Hn).
  apply NoDup_cons in Hn as (Hi & Hn). apply NoDup_app in Hn as (_ & _ & Hpost).
  split.
  - apply NoDup_app. repeat split; auto. intros x Hx Hx'. apply (Hdis x Hx). in_list.
  - apply not_elem_of_app. split.
    + intros Hin. apply (Hdis i Hin). in_list.
    + intros Hin. apply Hi. in_list.
Qed.

(** X17: removeItem on an id that an item of the state carries succeeds,
    whether ids are unique or not, and reads the clock at most once; the
    ids of the new state are the ids of the old one without one block
    that begins at the first occurrence of the id (the item and what it
    contains); with unique ids the id is gone and the ids stay unique. *)
Theorem X17_removeItem_present clock s i n :
  i ∈ allIds s ->
  exists s' n' pre sub post,
    removeItem clock s i n = (Success s', n') /\ (n' = n \/ n' = S n) /\
    version s' = version s /\
    allIds s = pre ++ i :: sub ++ post /\ allIds s' = pre ++ post /\ (i ∉ pre) /\
    (uniqueIds s -> uniqueIds s' /\ (i ∉ allIds s')).
Proof.
  intros Hi.
  destruct (removeItem_located clock s i n (allIds_Located s i Hi))
    as (s' & n' & pre & sub & post & Hr & Hn & Hv & Hs & Hs' & Hpre).
  exists s', n', pre, sub, post. repeat split; auto.
  - unfold uniqueIds in *. rewrite Hs'. rewrite Hs in H. now apply NoDup_remove_block in H.
  - unfold uniqueIds in *. rewrite Hs'. rewrite Hs in H. now apply NoDup_remove_block in H.
Qed.

(** The subtask s1 of [stateTwoTasks] is removed. *)
Lemma X17_removeItem_present_witness :
  exists s' n' pre sub post,
    removeItem demoClock stateTwoTasks "s1" 0 = (Success s', n') /\ (n' = 0%nat \/ n' = 1%nat) /\
    version s' = version stateTwoTasks /\
    allIds stateTwoTasks = pre ++ "s1" :: sub ++ post /\ allIds s' = pre ++ post /\
    ("s1" ∉ pre) /\
    (uniqueIds stateTwoTasks -> uniqueIds s' /\ ("s1" ∉ allIds s')).
Proof.
  apply (X17_removeItem_present demoClock stateTwoTasks "s1" 0).
  apply list_elem_of_In. vm_compute. auto.
Defined.

(** X18: removeItem on the id of an epic of a state with unique ids
    removes that epic with all its tasks and subtasks, changes nothing else
    and reads no clock. *)
Theorem X18_removeItem_epic clock s l1 E l2 n :
  uniqueIds s -> epics s = l1 ++ E :: l2 ->
  removeItem clock s (id (fields E)) n =
  (Success (mkState (version s) (l1 ++ l2) (standalone s)), n).
Proof.
  intros Hu He. destruct (unique_epic s l1 E l2 Hu He) as [_ Hl1].
  apply (removeItem_at_epic clock s _ l1 E l2 n He); [|reflexivity].
  apply Hl1, id_in_epicIds.
Qed.

(** The epic e1 of [stateTwoTasks]. *)
Lemma X18_removeItem_epic_witness :
  removeItem demoClock stateTwoTasks "e1" 0
  = (Success (mkState 1 [] (Some [])), 0%nat).
Proof.
  refine (X18_removeItem_epic demoClock stateTwoTasks [] epicTwoTasks [] 0 _ eq_refl).
  unique_ids.
Defined.

(** ** getNext after markComplete *)

Lemma insertSorted_In {A} (compare : A -> A -> Z) (x y : A) (l : list A) :
  In y (insertSorted compare x l) -> y = x \/ In y l.
Proof.
  induction l as [|z l IH]; simpl.
  - intros [<-|[]]. now left.
  - destruct (0 <? compare x z)%Z; simpl.
    + intros [<-|Hy]; [right; now left|]. destruct (IH Hy); auto.
    + intros [<-|Hy]; auto.
Qed.

Lemma sort_In {A} (compare : A -> A -> Z) (y : A) (l : list A) :
  In y (sort compare l) -> In y l.
Proof.
  induction l as [|x l IH]; simpl; [auto|].
  intros Hy. apply insertSorted_In in Hy as [->|Hy]; auto.
Qed.

Lemma head_In {A} (l : list A) (x : A) : head l = Some x -> In x l.
Proof. destruct l; simpl; [discriminate|]. intros [= ->]. now left. Qed.

(** The item that getNext returns is an actionable item of the state. *)
Lemma getNext_item s level it :
  item (getNext s level) = Some it -> In it (flattenState s) /\ isActionable it = true.
Proof.
  unfold getNext. cbn [item]. intros H. apply head_In, sort_In in H.
  apply List.filter_In in H as [H _].
  destruct (bool_decide _); [|apply List.filter_In in H as [H _]];
    now apply List.filter_In in H.
Qed.

(** X19: in a state with unique ids, after markComplete has succeeded on an
    id, getNext does not return the item with that id, whatever the level
    asked for. *)
Theorem X19_completed_not_next clock s i n s' n' level it :
  uniqueIds s -> markComplete clock s i n = (Success s', n') ->
  item (getNext s' level) = Some it -> id (flat it) <> i.
Proof.
  intros Hu Hm Hnext Hid.
  destruct (decide (i ∈ allIds s)) as [Hi|Hi];
    [|rewrite (markComplete_absent clock s i n Hi) in Hm; discriminate].
  destruct (markComplete_present clock s i n Hu Hi)
    as (s2 & n2 & it0 & it' & Hm' & _ & Hfind & Hflat & _ & Hu').
  rewrite Hm in Hm'. injection Hm' as <- <-.
  destruct (getNext_item s' level it Hnext) as [Hin Hact].
  unfold uniqueIds in Hu'. rewrite allIds_flatten in Hu'.
  pose proof (findFlat_unique _ it Hu' Hin) as Hsame. rewrite Hid in Hsame.
  unfold findById in Hfind. rewrite Hfind in Hsame. injection Hsame as ->.
  unfold isActionable in Hact. rewrite Hflat in Hact. simpl in Hact. discriminate.
Qed.

(** After the subtask s1 of [stateTwoTasks] is completed (its task t1
    follows), the next item is the task t2. *)
Lemma X19_completed_not_next_witness :
  exists s' it,
    markComplete demoClock stateTwoTasks "s1" 0 = (Success s', 2%nat) /\
    item (getNext s' None) = Some it /\ id (flat it) <> "s1".
Proof.
  eexists _, _. split; [reflexivity|]. split; [reflexivity|].
  refine (X19_completed_not_next demoClock stateTwoTasks "s1" 0 _ 2%nat None _ _ eq_refl eq_refl).
  unique_ids.
Defined.

(** ** The add operations *)

Lemma findIndex_split {T} `{Entity T} (i : string) (l : list T) (k : nat) :
  findIndex (hasId i) l = Some k ->
  exists l1 x l2, l = l1 ++ x :: l2 /\ k = length l1 /\ absent i l1 /\ id (fields x) = i.
Proof.
  revert k. induction l as [|y l IH]; intros k; simpl; [discriminate|].
  destruct (hasId i y) eqn:E.
  - intros [= <-]. exists [], y, l. repeat split; [constructor | now apply hasId_true].
  - destruct (findIndex (hasId i) l) as [j|]; simpl; [|discriminate]. intros [= <-].
    destruct (IH j eq_refl) as (l1 & x & l2 & -> & -> & Hl1 & Hx).
    exists (y :: l1), x, l2. repeat split; [|exact Hx].
    constructor; [now apply hasId_false | exact Hl1].
Qed.

Lemma findIndex_None {T} `{Entity T} (i : string) (l : list T) :
  findIndex (hasId i) l = None -> absent i l.
Proof.
  induction l as [|y l IH]; simpl; [constructor|].
  destruct (hasId i y) eqn:E; [discriminate|].
  destruct (findIndex (hasId i) l); simpl; [discriminate|]. intros _.
  constructor; [now apply hasId_false | now apply IH].
Qed.

Lemma findEpic_split s i lk :
  findEpic s i = Some lk ->
  exists l1 l2, epics s = l1 ++ el_epic lk :: l2 /\ el_index lk = length l1 /\
                absent i l1 /\ id (fields (el_epic lk)) = i.
Proof.
  intros Hf. apply findEpic_inv in Hf as [Hi Hk].
  destruct (findIndex_split i _ _ Hi) as (l1 & x & l2 & He & Hlen & Hl1 & Hx).
  rewrite He, Hlen, lookup_at in Hk. injection Hk as <-. eauto 6.
Qed.

Lemma findEpic_None s i : findEpic s i = None -> absent i (epics s).
Proof.
  unfold findEpic. intros Hf. destruct (findIndex (hasId i) (epics s)) as [k|] eqn:E.
  - destruct (findIndex_split i _ _ E) as (l1 & x & l2 & He & -> & _).
    rewrite He in Hf. simpl in Hf. rewrite lookup_at in Hf. discriminate.
  - now apply findIndex_None.
Qed.

Lemma findTask_split s i j lk :
  findTask s i j = Some lk ->
  exists l1 l2 t1 t2,
    epics s = l1 ++ tl_epic lk :: l2 /\ tl_epicIndex lk = length l1 /\
    tasks (tl_epic lk) = t1 ++ tl_task lk :: t2 /\ tl_taskIndex lk = length t1.
Proof.
  intros Hf. apply findTask_inv in Hf as (He & Hi & Hm).
  apply findEpic_split in He as (l1 & l2 & He & Hlen & _). simpl in He, Hlen.
  destruct (findIndex_split j _ _ Hi) as (t1 & x & t2 & Ht & Hlen' & _).
  rewrite Ht, Hlen', lookup_at in Hm. injection Hm as <-. eauto 8.
Qed.

Lemma findStandaloneTask_split s j lk :
  findStandaloneTask s j = Some lk ->
  exists t1 t2, default [] (standalone s) = t1 ++ stl_task lk :: t2 /\
                stl_index lk = length t1.
Proof.
  intros Hf. apply findStandaloneTask_inv in Hf as [Hi Hk].
  destruct (findIndex_split j _ _ Hi) as (t1 & x & t2 & Ht & Hlen & _).
  rewrite Ht, Hlen, lookup_at in Hk. injection Hk as <-. eauto.
Qed.

Lemma NoDup_insert_block (pre post : list string) (j : string) :
  NoDup (pre ++ post) -> j ∉ pre ++ post -> NoDup (pre ++ j :: post).
Proof.
  intros Hn Hj. apply NoDup_app in Hn as (Hpre & Hdis & Hpost).
  apply not_elem_of_app in Hj as [Hj1 Hj2].
  apply NoDup_app. repeat split; [exact Hpre | | apply NoDup_cons; auto].
  intros x Hx Hx'. apply elem_of_cons in Hx' as [->|Hx']; [contradiction|].
  exact (Hdis x Hx Hx').
Qed.

Section AddFacts.
Variables clock ids : nat -> string.

Lemma runAdd_ids op s w s' j w' :
  runAdd clock ids op s w = (Success (s', j), w') ->
  j = ids (idReads w) /\ w' = advanced w /\ version s' = version s /\
  exists pre post, allIds s = pre ++ post /\ allIds s' = pre ++ j :: post.
Proof.
  destruct op as [input|input|input|input]; unfold runAdd.
  - unfold addEpic, bindW, timestampW, generateId, retW. cbn.
    intros [= <- <- <-]. repeat split.
    exists (concat (map epicIds (epics s))),
      (concat (map taskIds (default [] (standalone s)))).
    split; [reflexivity|]. flat_ids. reflexivity.
  - unfold addTask, bindW, timestampW, generateId, retW. cbn.
    destruct (falsy (ct_epicId input)).
    + cbn. intros [= <- <- <-]. repeat split.
      exists (allIds s), []. split; [now rewrite app_nil_r|]. flat_ids. reflexivity.
    + destruct (findEpic s _) as [[E k]|] eqn:Hf; cbn; [|discriminate].
      intros [= <- <- <-]. repeat split.
      apply findEpic_split in Hf as (l1 & l2 & He & Hk & _). cbn in He, Hk.
      exists (concat (map epicIds l1) ++ id (fields E) :: concat (map taskIds (tasks E))),
        (concat (map epicIds l2) ++ concat (map taskIds (default [] (standalone s)))).
      split.
      * unfold allIds. rewrite He. flat_ids. reflexivity.
      * unfold updateEpicInState. rewrite He, Hk, insert_at. flat_ids. reflexivity.
  - unfold addSubtask.
    destruct (findTask s _ _) as [[E k T m]|] eqn:Hf; [|discriminate].
    unfold bindW, timestampW, generateId, retW. cbn.
    intros [= <- <- <-]. repeat split.
    apply findTask_split in Hf as (l1 & l2 & t1 & t2 & He & Hk & Ht & Hm).
    cbn in He, Hk, Ht, Hm.
    exists (concat (map epicIds l1) ++ id (fields E) :: concat (map taskIds t1)
            ++ id (fields T) :: map (fun u : Subtask => id (fields u)) (subtasks T)),
      (concat (map taskIds t2) ++ concat (map epicIds l2)
       ++ concat (map taskIds (default [] (standalone s)))).
    split.
    * unfold allIds. rewrite He. flat_ids. rewrite Ht. flat_ids. reflexivity.
    * unfold updateEpicInState, updateTaskInEpic. rewrite He, Hk, Ht, Hm, !insert_at.
      flat_ids. reflexivity.
  - unfold addStandaloneSubtask.
    destruct (findStandaloneTask s _) as [[T k]|] eqn:Hf; [|discriminate].
    unfold bindW, timestampW, generateId, retW. cbn.
    intros [= <- <- <-]. repeat split.
    apply findStandaloneTask_split in Hf as (t1 & t2 & Ht & Hk). cbn in Ht, Hk.
    exists (concat (map epicIds (epics s)) ++ concat (map taskIds t1)
            ++ id (fields T) :: map (fun u : Subtask => id (fields u)) (subtasks T)),
      (concat (map taskIds t2)).
    split.
    * unfold allIds. rewrite Ht. flat_ids. reflexivity.
    * unfold updateStandaloneTaskInState. rewrite Ht, Hk, insert_at. flat_ids. reflexivity.
Qed.

End AddFacts.

(** X20: a successful add operation (addEpic, addTask, addSubtask or
    addStandaloneSubtask) reads the clock once and the id generator once,
    keeps the version, and inserts the generated id at one place among the
    ids of the state, which otherwise stay as they were, in their order; a
    generated id that is new keeps the ids unique. *)
Theorem X20_add_one_id clock ids op s w s' j w' :
  runAdd clock ids op s w = (Success (s', j), w') ->
  j = ids (idReads w) /\ w' = advanced w /\ version s' = version s /\
  (exists pre post, allIds s = pre ++ post /\ allIds s' = pre ++ j :: post) /\
  (uniqueIds s -> j ∉ allIds s -> uniqueIds s').
Proof.
  intros H. destruct (runAdd_ids clock ids op s w s' j w' H)
    as (Hj & Hw & Hv & pre & post & Hs & Hs').
  repeat split; auto; [eauto|].
  unfold uniqueIds. rewrite Hs, Hs'. apply NoDup_insert_block.
Qed.

(** A subtask is added to the task t1 of the epic e1 of [stateTwoTasks]. *)
Lemma X20_add_one_id_witness :
  exists s',
    runAdd demoClock (fun _ => "n1")
      (OpAddSubtask (mkCreateSubtaskInput "A new subtask" 1 "e1" "t1" None None))
      stateTwoTasks (mkWorld 0 0) = (Success (s', "n1"), mkWorld 1 1) /\
    "n1" = "n1" /\ mkWorld 1 1 = advanced (mkWorld 0 0) /\
    version s' = version stateTwoTasks /\
    (exists pre post, allIds stateTwoTasks = pre ++ post /\ allIds s' = pre ++ "n1" :: post) /\
    (uniqueIds stateTwoTasks -> "n1" ∉ allIds stateTwoTasks -> uniqueIds s').
Proof.
  eexists. split; [reflexivity|].
  exact (X20_add_one_id demoClock (fun _ => "n1")
           (OpAddSubtask (mkCreateSubtaskInput "A new subtask" 1 "e1" "t1" None None))
           stateTwoTasks (mkWorld 0 0) _ "n1" (mkWorld 1 1) eq_refl).
Defined.

Lemma findFlat_app i l1 l2 :
  findFlat i (l1 ++ l2) =
  match findFlat i l1 with
  | Some x => Some x
  | None => findFlat i l2
  end.
Proof.
  unfold findFlat. induction l1 as [|x l1 IH]; simpl; [reflexivity|].
  now destruct (id (flat x) =? i)%string.
Qed.

Lemma state_eta s : mkState (version s) (epics s) (standalone s) = s.
Proof. now destruct s. Qed.

(** X21: addEpic always succeeds; when the generated id is new, findById
    finds the new epic (pending, created at the reading of the clock,
    without tasks) under it and finds under every other id what it found
    before, and removeItem on the new id gives back the state as it was
    without reading the clock. *)
Theorem X21_addEpic_then_remove clock ids clock' s input w n :
  ids (idReads w) ∉ allIds s ->
  exists s' e,
    addEpic clock ids s input w = (Success (s', e), advanced w) /\
    fields e = newFields (ids (idReads w)) (ce_content input) (ce_priority input)
                 (clock (clockReads w)) (ce_notes input) (ce_deps input) /\
    tasks e = [] /\
    findById s' (ids (idReads w)) = Some (flattenEpic e) /\
    (forall j, j <> ids (idReads w) -> findById s' j = findById s j) /\
    removeItem clock' s' (ids (idReads w)) n = (Success s, n).
Proof.
  intros Hnew.
  set (e := mkEpic (newFields (ids (idReads w)) (ce_content input) (ce_priority input)
                      (clock (clockReads w)) (ce_notes input) (ce_deps input)) []).
  exists (mkState (version s) (epics s ++ [e]) (standalone s)), e.
  split; [reflexivity|]. split; [reflexivity|]. split; [reflexivity|].
  assert (Hflat : flattenState (mkState (version s) (epics s ++ [e]) (standalone s))
                  = concat (map flattenEpicTree (epics s)) ++ flattenEpic e
                    :: concat (map (flattenTaskTree None) (default [] (standalone s)))).
  { unfold flattenState. cbn [epics standalone]. rewrite map_app, concat_app.
    cbn. now rewrite <- app_assoc. }
  assert (Hep : ids (idReads w) ∉ concat (map epicIds (epics s))).
  { unfold allIds in Hnew. now apply not_elem_of_app in Hnew as [Hnew _]. }
  repeat split.
  - unfold findById. rewrite Hflat, findFlat_app.
    rewrite allIds_flatten in Hnew. unfold flattenState in Hnew. rewrite map_app in Hnew.
    apply not_elem_of_app in Hnew as [Hnew _]. apply findFlat_None in Hnew. rewrite Hnew.
    unfold findFlat. cbn. now rewrite String.eqb_refl.
  - intros j Hj. unfold findById. rewrite Hflat. unfold flattenState.
    rewrite !findFlat_app. destruct (findFlat j (concat _)); [reflexivity|].
    unfold findFlat at 1. cbn [List.find flat flattenEpic fields Epic_entity epic_fields e id newFields].
    now rewrite (proj2 (String.eqb_neq _ _) (not_eq_sym Hj)).
  - rewrite (removeItem_at_epic clock' (mkState (version s) (epics s ++ [e]) (standalone s))
               (ids (idReads w)) (epics s) e [] n eq_refl Hep eq_refl).
    cbn [version standalone]. now rewrite app_nil_r, state_eta.
Qed.

(** An epic is added to [stateTwoTasks] under the new id "n1". *)
Lemma X21_addEpic_then_remove_witness :
  exists s' e,
    addEpic demoClock (fun _ => "n1") stateTwoTasks
      (mkCreateEpicInput "A new epic here" 1 None None) (mkWorld 0 0)
    = (Success (s', e), advanced (mkWorld 0 0)) /\
    fields e = newFields "n1" "A new epic here" 1 (demoClock 0) None None /\
    tasks e = [] /\
    findById s' "n1" = Some (flattenEpic e) /\
    (forall j, j <> "n1" -> findById s' j = findById stateTwoTasks j) /\
    removeItem demoClock s' "n1" 5 = (Success stateTwoTasks, 5%nat).
Proof.
  apply (X21_addEpic_then_remove demoClock (fun _ => "n1") demoClock stateTwoTasks
           (mkCreateEpicInput "A new epic here" 1 None None) (mkWorld 0 0) 5).
  intros H. apply list_elem_of_In in H. vm_compute in H. intuition discriminate.
Defined.

(** X22: addEpic never fails.  addTask fails exactly when an epic id is
    given, not empty, and no epic carries it; it has then read the clock
    and the id generator all the same.  addSubtask and addStandaloneSubtask
    fail exactly when the lookup of the task fails, and have then read
    neither. *)
Theorem X22_add_failures clock ids s w :
  (forall input err w', addEpic clock ids s input w <> (Failure err, w')) /\
  (forall input err w',
     addTask clock ids s input w = (Failure err, w') <->
     w' = advanced w /\
     exists q, ct_epicId input = Some q /\ q <> EmptyString /\ absent q (epics s) /\
               err = ("Epic not found: " ++ q)%string) /\
  (forall input err w',
     addSubtask clock ids s input w = (Failure err, w') <->
     w' = w /\ findTask s (cs_epicId input) (cs_taskId input) = None /\
     err = ("Task not found: " ++ cs_taskId input)%string) /\
  (forall input err w',
     addStandaloneSubtask clock ids s input w = (Failure err, w') <->
     w' = w /\ absent (as_taskId input) (default [] (standalone s)) /\
     err = ("Standalone task not found: " ++ as_taskId input)%string).
Proof.
  split; [|split; [|split]]; intros input err w'.
  - unfold addEpic, bindW, timestampW, generateId, retW. cbn. discriminate.
  - unfold addTask, bindW, timestampW, generateId, retW, advanced. cbn. split.
    + destruct (ct_epicId input) as [q|] eqn:Hq; cbn; [|discriminate].
      destruct (String.eqb_spec q EmptyString) as [E|E]; [discriminate|].
      destruct (findEpic s q) as [lk|] eqn:Hf; cbn; [discriminate|].
      intros [= <- <-]. split; [reflexivity|]. exists q. repeat split; auto.
      now apply findEpic_None.
    + intros (-> & q & Hq & Hne & Habs & ->). rewrite Hq. cbn.
      rewrite (proj2 (String.eqb_neq _ _) Hne).
      unfold findEpic. now rewrite (findIndex_absent q _ Habs).
  - unfold addSubtask. split.
    + destruct (findTask s _ _) eqn:Hf; [discriminate|]. unfold retW.
      intros [= <- <-]. auto.
    + intros (-> & Hf & ->). now rewrite Hf.
  - unfold addStandaloneSubtask. split.
    + destruct (findStandaloneTask s _) eqn:Hf; [discriminate|]. unfold retW.
      intros [= <- <-]. repeat split. unfold findStandaloneTask in Hf.
      destruct (findIndex _ _) as [k|] eqn:Hk; [|now apply findIndex_None].
      destruct (findIndex_split _ _ _ Hk) as (l1 & x & l2 & He & -> & _).
      rewrite He in Hf. simpl in Hf. rewrite lookup_at in Hf. discriminate.
    + intros (-> & Habs & ->). unfold findStandaloneTask.
      now rewrite (findIndex_absent _ _ Habs).
Qed.

(** X23: addTask without an epic id, or with an empty one, appends the new
    task to the standalone tasks and changes nothing else; with the id of
    an epic it appends the new task to the tasks of the first epic that
    carries the id, sets that epic's [updated_at] to the reading of the
    clock and changes nothing else. *)
Theorem X23_addTask_placement clock ids s input w :
  let t := mkTask (newFields (ids (idReads w)) (ct_content input) (ct_priority input)
                     (clock (clockReads w)) (ct_notes input) (ct_deps input)) [] in
  (falsy (ct_epicId input) = true ->
   addTask clock ids s input w =
   (Success (mkState (version s) (epics s) (Some (default [] (standalone s) ++ [t])), t),
    advanced w)) /\
  (forall l1 E l2,
     epics s = l1 ++ E :: l2 -> absent (id (fields E)) l1 ->
     ct_epicId input = Some (id (fields E)) -> id (fields E) <> EmptyString ->
     addTask clock ids s input w =
     (Success (mkState (version s)
        (l1 ++ mkEpic (setUpdatedAt (fields E) (clock (clockReads w))) (tasks E ++ [t]) :: l2)
        (standalone s), t), advanced w)).
Proof.
  intros t. split.
  - intros Hf. unfold addTask, bindW, timestampW, generateId, retW. cbn. now rewrite Hf.
  - intros l1 E l2 He Hl1 Hq Hne.
    assert (Hf : falsy (Some (id (fields E))) = false) by now apply String.eqb_neq.
    unfold addTask, bindW, timestampW, generateId, retW. cbv beta iota zeta.
    rewrite Hq, Hf. cbn [from_option Datatypes.id].
    rewrite (findEpic_at s l1 E l2 _ He Hl1 eq_refl).
    unfold updateEpicInState. cbn. now rewrite He, insert_at.
Qed.

(** A task with an empty epic id goes to the standalone tasks of
    [stateTwoTasks]; a task for the epic e1 goes to that epic. *)
Lemma X23_addTask_placement_witness :
  (exists t, addTask demoClock (fun _ => "n1") stateTwoTasks
       (mkCreateTaskInput "A new task here" 1 (Some EmptyString) None None) (mkWorld 0 0)
     = (Success (mkState 1 [epicTwoTasks] (Some [t]), t), mkWorld 1 1)) /\
  (exists t, addTask demoClock (fun _ => "n1") stateTwoTasks
       (mkCreateTaskInput "A new task here" 1 (Some "e1") None None) (mkWorld 0 0)
     = (Success (mkState 1
          [mkEpic (setUpdatedAt (fields epicTwoTasks) (demoClock 0))
             [taskPending; taskOther; t]] (Some []), t), mkWorld 1 1)).
Proof.
  split; eexists.
  - exact (proj1 (X23_addTask_placement demoClock (fun _ => "n1") stateTwoTasks
             (mkCreateTaskInput "A new task here" 1 (Some EmptyString) None None)
             (mkWorld 0 0)) eq_refl).
  - refine (proj2 (X23_addTask_placement demoClock (fun _ => "n1") stateTwoTasks
             (mkCreateTaskInput "A new task here" 1 (Some "e1") None None)
             (mkWorld 0 0)) [] epicTwoTasks [] eq_refl _ eq_refl _).
    + constructor.
    + discriminate.
Defined.

(** X24: addSubtask appends the new subtask to the subtasks of the task it
    finds and sets [updated_at] of that task and of its epic to the
    reading of the clock; addStandaloneSubtask does the same for a
    standalone task; nothing else changes. *)
Theorem X24_addSubtask_placement clock ids s w :
  (forall input l1 E l2 t1 T t2,
     epics s = l1 ++ E :: l2 -> absent (id (fields E)) l1 ->
     tasks E = t1 ++ T :: t2 -> absent (id (fields T)) t1 ->
     cs_epicId input = id (fields E) -> cs_taskId input = id (fields T) ->
     let now := clock (clockReads w) in
     let u := mkSubtask (newFields (ids (idReads w)) (cs_content input) (cs_priority input)
                           now (cs_notes input) (cs_deps input)) in
     addSubtask clock ids s input w =
     (Success (mkState (version s)
        (l1 ++ mkEpic (setUpdatedAt (fields E) now)
                 (t1 ++ mkTask (setUpdatedAt (fields T) now) (subtasks T ++ [u]) :: t2) :: l2)
        (standalone s), u), advanced w)) /\
  (forall input t1 T t2,
     standalone s = Some (t1 ++ T :: t2) -> absent (id (fields T)) t1 ->
     as_taskId input = id (fields T) ->
     let now := clock (clockReads w) in
     let u := mkSubtask (newFields (ids (idReads w)) (as_content input) (as_priority input)
                           now (as_notes input) (as_deps input)) in
     addStandaloneSubtask clock ids s input w =
     (Success (mkState (version s) (epics s)
        (Some (t1 ++ mkTask (setUpdatedAt (fields T) now) (subtasks T ++ [u]) :: t2)), u),
      advanced w)).
Proof.
  split.
  - intros input l1 E l2 t1 T t2 He Hl1 Ht Ht1 Hq Hq' now u. unfold addSubtask.
    rewrite Hq, Hq', (findTask_at s l1 E l2 t1 T t2 _ _ He Hl1 eq_refl Ht Ht1 eq_refl).
    unfold bindW, timestampW, generateId, retW, updateEpicInState, updateTaskInEpic. cbn.
    now rewrite He, Ht, !insert_at.
  - intros input t1 T t2 Hs Ht1 Hq now u. unfold addStandaloneSubtask.
    rewrite Hq, (findStandaloneTask_at s t1 T t2 _ Hs Ht1 eq_refl).
    unfold bindW, timestampW, generateId, retW, updateStandaloneTaskInState. cbn.
    rewrite Hs. cbn. now rewrite insert_at.
Qed.

(** A subtask for the task t1 of the epic e1 of [stateTwoTasks]. *)
Lemma X24_addSubtask_placement_witness :
  exists u,
    addSubtask demoClock (fun _ => "n1") stateTwoTasks
      (mkCreateSubtaskInput "A new subtask" 1 "e1" "t1" None None) (mkWorld 0 0)
    = (Success (mkState 1
         [mkEpic (setUpdatedAt (fields epicTwoTasks) (demoClock 0))
            [mkTask (setUpdatedAt (fields taskPending) (demoClock 0)) [subPending; u];
             taskOther]] (Some []), u), mkWorld 1 1).
Proof.
  eexists.
  refine (proj1 (X24_addSubtask_placement demoClock (fun _ => "n1") stateTwoTasks (mkWorld 0 0))
            (mkCreateSubtaskInput "A new subtask" 1 "e1" "t1" None None)
            [] epicTwoTasks [] [] taskPending [taskOther] eq_refl _ eq_refl _ eq_refl eq_refl);
    constructor.
Defined.

(** ** Cycles *)

(** X25: checkCycles warns, with the label it is given, of exactly the
    items of the list whose traversal over the map of the deps of the list
    revisits an id of the active stack: every such item is warned and every
    warning is for such an item. *)
Theorem X25_checkCycles_exact {T} `{Entity T} (items : list T) (typeLabel w : string) :
  In w (checkCycles items typeLabel) <->
  exists x ds, In x items /\ deps (fields x) = Some ds /\
               Revisits (buildDepsMap items) ∅ (id (fields x)) ds /\
               w = cycleWarning typeLabel x.
Proof.
  split.
  - unfold checkCycles. intros Hw. apply in_concat in Hw as (l & Hl & Hw).
    apply in_map_iff in Hl as (x & <- & Hx).
    destruct (deps (fields x)) as [ds|] eqn:Hds; [|destruct Hw].
    destruct (length ds =? 0)%nat; [destruct Hw|].
    destruct (detectCycle _ _ _ _ _) as [[b v]|] eqn:Hd; [|destruct Hw].
    destruct b; [|destruct Hw].
    destruct Hw as [<-|[]]. exists x, ds. repeat split; auto.
    exact (detectCycle_sound _ _ _ _ _ _ Hd).
  - intros (x & ds & Hx & Hds & Hrev & ->).
    exact (checkCycles_reports items typeLabel x ds Hx Hds Hrev).
Qed.

(** X26: with fuel above the number of ids of the map that are not on the
    stack, detectCycle returns: true exactly when the traversal revisits an
    id of the stack, and otherwise false with the set of visited ids as it
    was given. *)
Theorem X26_detectCycle_decides depsMap fuel i ds visited :
  i ∈ dom depsMap \/ ds = [] -> (room depsMap visited < fuel)%nat ->
  (Revisits depsMap visited i ds /\
   exists v, detectCycle fuel i ds depsMap visited = Some (true, v)) \/
  (~ Revisits depsMap visited i ds /\
   detectCycle fuel i ds depsMap visited = Some (false, visited)).
Proof.
  intros Hk Hfuel.
  destruct (detectCycle_total depsMap fuel i ds visited Hk Hfuel) as (b & v & Hr & Hrest).
  destruct b.
  - left. split; [exact (detectCycle_sound _ _ _ _ _ _ Hr) | eauto].
  - right. rewrite (Hrest eq_refl) in Hr. split; [|exact Hr]. intros Hrev.
    destruct (detectCycle_revisits depsMap visited i ds Hrev fuel Hk Hfuel) as [v' Hv'].
    rewrite Hr in Hv'. discriminate.
Qed.

(** The traversal from the epic a1 of [stateCycle], whose deps name b1. *)
Lemma X26_detectCycle_decides_witness :
  (Revisits (buildDepsMap (epics stateCycle)) ∅ "a1" ["b1"] /\
   exists v, detectCycle 3 "a1" ["b1"] (buildDepsMap (epics stateCycle)) ∅ = Some (true, v)) \/
  (~ Revisits (buildDepsMap (epics stateCycle)) ∅ "a1" ["b1"] /\
   detectCycle 3 "a1" ["b1"] (buildDepsMap (epics stateCycle)) ∅ = Some (false, ∅)).
Proof.
  apply (X26_detectCycle_decides (buildDepsMap (epics stateCycle)) 3 "a1" ["b1"] ∅).
  - left. unfold buildDepsMap. apply foldl_setDeps_dom. right. simpl. now left.
  - exact (buildDepsMap_room (epics stateCycle)).
Defined.

(** ** Dependency warnings *)

Lemma checkDeps_self f scope self invalid ds :
  deps f = Some ds -> In (id f) ds -> In self (checkDeps f scope self invalid).
Proof.
  intros Hds Hin. unfold checkDeps. rewrite Hds. apply in_concat.
  eexists. split; [apply in_map; exact Hin|]. cbv beta.
  rewrite String.eqb_refl. now left.
Qed.

Lemma checkDeps_invalid f scope self invalid ds d :
  deps f = Some ds -> In d ds -> d <> id f -> d ∉ scope ->
  In (invalid d) (checkDeps f scope self invalid).
Proof.
  intros Hds Hin Hne Hout. unfold checkDeps. rewrite Hds. apply in_concat.
  eexists. split; [apply in_map; exact Hin|]. cbv beta.
  rewrite (proj2 (String.eqb_neq _ _) Hne), bool_decide_eq_true_2 by exact Hout.
  now left.
Qed.

Lemma checkDeps_nil f scope self invalid :
  checkDeps f scope self invalid = [] <->
  forall ds d, deps f = Some ds -> In d ds -> d <> id f /\ d ∈ scope.
Proof.
  unfold checkDeps. destruct (deps f) as [ds|]; [|split; [discriminate|reflexivity]].
  split.
  - intros Hnil ds' d [= <-] Hd.
    induction ds as [|x ds IH]; [destruct Hd|]. simpl in Hnil.
    apply app_eq_nil in Hnil as [Hx Hnil]. destruct Hd as [->|Hd]; [|auto].
    destruct (String.eqb_spec d (id f)) as [E|E]; [discriminate|].
    split; [exact E|]. destruct (decide (d ∈ scope)) as [Hin|Hout]; [exact Hin|].
    rewrite bool_decide_eq_true_2 in Hx by exact Hout. discriminate.
  - intros Hall. apply concat_map_nil_in. intros d Hd.
    destruct (Hall ds d eq_refl Hd) as [Hne Hin].
    rewrite (proj2 (String.eqb_neq _ _) Hne), bool_decide_eq_false_2; [reflexivity|].
    intros Hout. contradiction.
Qed.

Lemma idSet_spec {T} `{Entity T} (items : list T) (d : string) :
  d ∈ idSet items <-> exists x, In x items /\ id (fields x) = d.
Proof.
  unfold idSet. rewrite elem_of_list_to_set, list_elem_of_In, in_map_iff.
  split; intros (x & H1 & H2); exists x; auto.
Qed.

Lemma lintState_epicDeps s e w :
  In e (epics s) -> In w (checkEpicDeps e (idSet (epics s))) -> In w (warnings (lintState s)).
Proof.
  intros He Hw. unfold lintState. simpl. apply in_or_app. left.
  apply in_concat. eexists. split.
  - rewrite map_map. apply in_map. exact He.
  - simpl. apply in_or_app. now left.
Qed.

Lemma lintEpic_taskDeps e t w :
  In t (tasks e) -> In w (checkTaskDeps t (idSet (tasks e)) (content (fields e))) ->
  In w (warnings (lintEpic e)).
Proof.
  intros Ht Hw. unfold lintEpic. simpl. apply in_or_app. right. apply in_or_app. left.
  apply in_concat. eexists. split.
  - rewrite map_map. apply in_map. exact Ht.
  - simpl. apply in_or_app. right. apply in_or_app. now left.
Qed.

Lemma lintEpic_subtaskDeps e t (u : Subtask) w :
  In t (tasks e) -> In u (subtasks t) ->
  In w (checkSubtaskDeps u (idSet (subtasks t)) (content (fields t))) ->
  In w (warnings (lintEpic e)).
Proof.
  intros Ht Hu Hw. unfold lintEpic. simpl. apply in_or_app. right. apply in_or_app. left.
  apply in_concat. eexists. split.
  - rewrite map_map. apply in_map. exact Ht.
  - simpl. apply in_or_app. right. apply in_or_app. right. apply in_or_app. left.
    apply in_concat. eexists. split; [apply in_map; exact Hu | exact Hw].
Qed.

Lemma self_revisits {T} `{Entity T} (items : list T) (x : T) ds :
  In (id (fields x)) ds -> Revisits (buildDepsMap items) ∅ (id (fields x)) ds.
Proof.
  intros Hin. apply (Revisits_below _ _ _ _ (id (fields x)));
    [apply not_elem_of_empty | exact Hin |].
  apply Revisits_here. rewrite elem_of_union, elem_of_singleton. now left.
Qed.

(** X27: an epic, a task of an epic or a subtask of such a task that
    names itself in its deps gets two warnings from lintState: that it
    depends on itself, and that it has a circular dependency. *)
Theorem X27_self_dependency s :
  (forall e ds,
     In e (epics s) -> deps (fields e) = Some ds -> In (id (fields e)) ds ->
     In ("Epic " +:+ dq +:+ slice0 20 (content (fields e)) +:+ "..." +:+ dq
         +:+ " depends on itself") (warnings (lintState s)) /\
     In (cycleWarning "Epic" e) (warnings (lintState s))) /\
  (forall e t ds,
     In e (epics s) -> In t (tasks e) -> deps (fields t) = Some ds ->
     In (id (fields t)) ds ->
     In ("Task " +:+ dq +:+ slice0 20 (content (fields t)) +:+ "..." +:+ dq
         +:+ " depends on itself") (warnings (lintState s)) /\
     In (cycleWarning "Task" t) (warnings (lintState s))) /\
  (forall e t (u : Subtask) ds,
     In e (epics s) -> In t (tasks e) -> In u (subtasks t) ->
     deps (fields u) = Some ds -> In (id (fields u)) ds ->
     In ("Subtask " +:+ dq +:+ slice0 20 (content (fields u)) +:+ "..." +:+ dq
         +:+ " depends on itself") (warnings (lintState s)) /\
     In (cycleWarning "Subtask" u) (warnings (lintState s))).
Proof.
  split; [|split].
  - intros e ds He Hds Hin. split.
    + apply (lintState_epicDeps s e _ He). unfold checkEpicDeps.
      exact (checkDeps_self _ _ _ _ ds Hds Hin).
    + apply lintState_epic_cycles.
      exact (checkCycles_reports (epics s) "Epic" e ds He Hds (self_revisits _ e ds Hin)).
  - intros e t ds He Ht Hds Hin. split; apply (lintState_lintEpic s e _ He).
    + apply (lintEpic_taskDeps e t _ Ht). unfold checkTaskDeps.
      exact (checkDeps_self _ _ _ _ ds Hds Hin).
    + apply lintEpic_task_cycles.
      exact (checkCycles_reports (tasks e) "Task" t ds Ht Hds (self_revisits _ t ds Hin)).
  - intros e t u ds He Ht Hu Hds Hin. split; apply (lintState_lintEpic s e _ He).
    + apply (lintEpic_subtaskDeps e t u _ Ht Hu). unfold checkSubtaskDeps.
      exact (checkDeps_self _ _ _ _ ds Hds Hin).
    + apply (lintEpic_subtask_cycles e t _ Ht).
      exact (checkCycles_reports (subtasks t) "Subtask" u ds Hu Hds (self_revisits _ u ds Hin)).
Qed.

(** X28: the deps of an item are checked against the ids of its siblings
    only (the epics of the state, the tasks of its epic, the subtasks of
    its task): the check of an item gives no warning exactly when each of
    its deps is the id of a sibling and not its own; and lintState warns of
    an invalid dep for each dep of a task that is neither the id of the
    task nor the id of a task of the same epic. *)
Theorem X28_dependency_scope s :
  (forall e, In e (epics s) ->
     (checkEpicDeps e (idSet (epics s)) = [] <->
      forall ds d, deps (fields e) = Some ds -> In d ds ->
        d <> id (fields e) /\ exists e', In e' (epics s) /\ id (fields e') = d)) /\
  (forall e t, In e (epics s) -> In t (tasks e) ->
     (checkTaskDeps t (idSet (tasks e)) (content (fields e)) = [] <->
      forall ds d, deps (fields t) = Some ds -> In d ds ->
        d <> id (fields t) /\ exists t', In t' (tasks e) /\ id (fields t') = d)) /\
  (forall e t ds d, In e (epics s) -> In t (tasks e) ->
     deps (fields t) = Some ds -> In d ds -> d <> id (fields t) ->
     (forall t', In t' (tasks e) -> id (fields t') <> d) ->
     In ("Task " +:+ dq +:+ slice0 20 (content (fields t)) +:+ "..." +:+ dq +:+ " in " +:+ dq
         +:+ slice0 15 (content (fields e)) +:+ "..." +:+ dq +:+ " has invalid dep: " +:+ d)
        (warnings (lintState s))).
Proof.
  split; [|split].
  - intros e _. unfold checkEpicDeps. rewrite checkDeps_nil.
    split; intros Hall ds d Hds Hd; destruct (Hall ds d Hds Hd) as [Hne Hin];
      (split; [exact Hne|]); now apply idSet_spec.
  - intros e t _ _. unfold checkTaskDeps. rewrite checkDeps_nil.
    split; intros Hall ds d Hds Hd; destruct (Hall ds d Hds Hd) as [Hne Hin];
      (split; [exact Hne|]); now apply idSet_spec.
  - intros e t ds d He Ht Hds Hd Hne Hout.
    apply (lintState_lintEpic s e _ He), (lintEpic_taskDeps e t _ Ht).
    unfold checkTaskDeps.
    apply (checkDeps_invalid (fields t) _ _
             (fun depId => "Task " +:+ dq +:+ slice0 20 (content (fields t)) +:+ "..." +:+ dq
                +:+ " in " +:+ dq +:+ slice0 15 (content (fields e)) +:+ "..." +:+ dq
                +:+ " has invalid dep: " +:+ depId) ds d Hds Hd Hne).
    intros Hin. apply idSet_spec in Hin as (t' & Ht' & Hid). exact (Hout t' Ht' Hid).
Qed.

(** The epic of [stateSelf] names itself. *)
Lemma X27_self_dependency_witness :
  In ("Epic " +:+ dq +:+ "Epic naming itself" +:+ "..." +:+ dq +:+ " depends on itself")
     (warnings (lintState stateSelf)) /\
  In (cycleWarning "Epic" epicSelf) (warnings (lintState stateSelf)).
Proof.
  exact (proj1 (X27_self_dependency stateSelf) epicSelf ["a1"]
           (or_introl eq_refl) eq_refl (or_introl eq_refl)).
Defined.

(** The task of [stateSelf] names "zz", which is no task of its epic. *)
Lemma X28_dependency_scope_witness :
  In ("Task " +:+ dq +:+ "Task with a stray de" +:+ "..." +:+ dq +:+ " in " +:+ dq
      +:+ "Epic naming its" +:+ "..." +:+ dq +:+ " has invalid dep: " +:+ "zz")
     (warnings (lintState stateSelf)).
Proof.
  refine (proj2 (proj2 (X28_dependency_scope stateSelf)) epicSelf taskStray ["zz"] "zz"
            (or_introl eq_refl) (or_introl eq_refl) eq_refl (or_introl eq_refl) _ _).
  - discriminate.
  - intros t' [<-|[]]. discriminate.
Defined.

(** ** A state that lint has nothing to say about *)

Lemma checkDeps_quiet f scope self invalid :
  default [] (deps f) = [] -> checkDeps f scope self invalid = [].
Proof.
  intros Hq. apply checkDeps_nil. intros ds d Hds Hd. rewrite Hds in Hq. simpl in Hq.
  subst ds. destruct Hd.
Qed.

Lemma checkCycles_quiet {T} `{Entity T} (items : list T) (typeLabel : string) :
  (forall x, In x items -> default [] (deps (fields x)) = []) ->
  checkCycles items typeLabel = [].
Proof.
  intros Hq. unfold checkCycles. apply concat_map_nil_in. intros x Hx.
  specialize (Hq x Hx). destruct (deps (fields x)) as [ds|]; [|reflexivity].
  simpl in Hq. now subst ds.
Qed.

Lemma forallb_isCompleted_false {T} `{Entity T} (l : list T) :
  l <> [] -> (forall x, In x l -> status (fields x) <> completed) ->
  forallb isCompleted l = false.
Proof.
  destruct l as [|x l]; [congruence|]. intros _ Hn. simpl.
  rewrite (isCompleted_false x (Hn x (or_introl eq_refl))). reflexivity.
Qed.

(** X29: when no item of the state has deps and none is completed,
    lintState gives no warning and no suggestion. *)
Theorem X29_lint_quiet s :
  (forall f, ItemAt s f -> default [] (deps f) = [] /\ status f <> completed) ->
  lintState s = mkLintResult [] [].
Proof.
  intros Hq.
  assert (Hepic : forall e, In e (epics s) ->
            default [] (deps (fields e)) = [] /\ status (fields e) <> completed).
  { intros e He. apply in_split in He as (l1 & l2 & He).
    exact (Hq _ (ItemAt_epic s l1 e l2 He)). }
  assert (Htask : forall e t, In e (epics s) -> In t (tasks e) ->
            default [] (deps (fields t)) = [] /\ status (fields t) <> completed).
  { intros e t He Ht. apply in_split in He as (l1 & l2 & He).
    apply in_split in Ht as (t1 & t2 & Ht).
    exact (Hq _ (ItemAt_task s l1 e l2 t1 t t2 He Ht)). }
  assert (Hsub : forall e t (u : Subtask), In e (epics s) -> In t (tasks e) ->
            In u (subtasks t) ->
            default [] (deps (fields u)) = [] /\ status (fields u) <> completed).
  { intros e t u He Ht Hu. apply in_split in He as (l1 & l2 & He).
    apply in_split in Ht as (t1 & t2 & Ht). apply in_split in Hu as (u1 & u2 & Hu).
    exact (Hq _ (ItemAt_subtask s l1 e l2 t1 t t2 u1 u u2 He Ht Hu)). }
  assert (HlintTask : forall e t, In e (epics s) -> In t (tasks e) ->
            lintTask e (idSet (tasks e)) t = mkLintResult [] []).
  { intros e t He Ht. destruct (Htask e t He Ht) as [Hd Hs].
    unfold lintTask. f_equal.
    - unfold checkTaskCompletion. rewrite (isCompleted_false t Hs). cbn [negb option_list].
      unfold checkTaskDeps. rewrite (checkDeps_quiet _ _ _ _ Hd).
      rewrite concat_map_nil_in.
      + rewrite checkCycles_quiet; [reflexivity|].
        intros u Hu. apply (Hsub e t u He Ht Hu).
      + intros u Hu. unfold checkSubtaskDeps. apply checkDeps_quiet.
        apply (Hsub e t u He Ht Hu).
    - unfold suggestTaskCompletion. rewrite (isCompleted_false t Hs). cbn [orb].
      destruct (subtasks t) as [|u us] eqn:Hu; [reflexivity|]. cbn [length Nat.eqb].
      rewrite forallb_isCompleted_false; [reflexivity|discriminate|].
      intros x Hx. apply (Hsub e t x He Ht). now rewrite Hu. }
  assert (HlintEpic : forall e, In e (epics s) -> lintEpic e = mkLintResult [] []).
  { intros e He. destruct (Hepic e He) as [Hd Hs]. unfold lintEpic.
    assert (Hmap : map (lintTask e (idSet (tasks e))) (tasks e)
                   = map (fun _ => mkLintResult [] []) (tasks e)).
    { apply map_ext_in. intros t Ht. exact (HlintTask e t He Ht). }
    rewrite Hmap, !map_map. cbn [warnings suggestions].
    rewrite !(concat_map_nil (fun _ : Task => @nil string)) by reflexivity.
    f_equal.
    - unfold checkEpicCompletion. rewrite (isCompleted_false e Hs). cbn [negb option_list].
      rewrite checkCycles_quiet; [reflexivity|]. intros t Ht. apply (Htask e t He Ht).
    - unfold suggestEpicCompletion. rewrite (isCompleted_false e Hs). cbn [orb].
      destruct (tasks e) as [|t ts] eqn:Ht; [reflexivity|]. cbn [length Nat.eqb].
      rewrite forallb_isCompleted_false; [reflexivity|discriminate|].
      intros x Hx. apply (Htask e x He). now rewrite Ht. }
  unfold lintState. rewrite !map_map. cbn [warnings suggestions]. f_equal.
  - rewrite concat_map_nil_in.
    + apply checkCycles_quiet. intros e He. apply (Hepic e He).
    + intros e He. rewrite (HlintEpic e He). cbn [warnings].
      unfold checkEpicDeps. rewrite checkDeps_quiet; [reflexivity|]. apply (Hepic e He).
  - apply concat_map_nil_in. intros e He. now rewrite (HlintEpic e He).
Qed.

(** No item of [stateTwoTasks] has deps or is completed. *)
Lemma X29_lint_quiet_witness : lintState stateTwoTasks = mkLintResult [] [].
Proof.
  apply X29_lint_quiet. intros f Hf.
  assert (Hin : In f (map flat (flattenState stateTwoTasks))).
  { destruct (ItemAt_flat _ _ Hf) as (it & Hit & <-). now apply in_map. }
  vm_compute in Hin.
  repeat (destruct Hin as [<-|Hin]; [split; [reflexivity|discriminate]|]). destruct Hin.
Defined.

(** ** lintState after markComplete *)

(** X30: in a state with unique ids, after markComplete on the id of an
    epic of which some task is not completed, lintState warns that the epic
    is completed but has that number of incomplete tasks. *)
Theorem X30_completed_epic_warned clock s l1 E l2 n :
  uniqueIds s -> epics s = l1 ++ E :: l2 ->
  length (List.filter (fun t => negb (isCompleted t)) (tasks E)) <> 0%nat ->
  exists s', markComplete clock s (id (fields E)) n = (Success s', S n) /\
    In ("Epic " +:+ dq +:+ slice0 30 (content (fields E)) +:+ "..." +:+ dq
        +:+ " is completed but has "
        +:+ countString (length (List.filter (fun t => negb (isCompleted t)) (tasks E)))
        +:+ " incomplete task(s)") (warnings (lintState s')).
Proof.
  intros Hu He Hk.
  rewrite (markComplete_epic clock s l1 E l2 n Hu He).
  rewrite (updateEpic_at clock s l1 E l2 _ completedInput n He
             (unique_epic_absent s l1 E l2 Hu He) eq_refl).
  eexists. split; [reflexivity|].
  set (E' := applyUpdate E completedInput (clock n)).
  apply (lintState_lintEpic _ E'); [cbn [epics]; apply in_elt|].
  unfold lintEpic. cbn [warnings]. apply in_or_app. left.
  unfold checkEpicCompletion. change (isCompleted E') with true. cbn [negb].
  change (tasks E') with (tasks E). apply Nat.eqb_neq in Hk. rewrite Hk.
  now left.
Qed.

(** The epic e1 of [stateTwoTasks] has two tasks that are not completed. *)
Lemma X30_completed_epic_warned_witness :
  exists s', markComplete demoClock stateTwoTasks "e1" 0 = (Success s', 1%nat) /\
    In ("Epic " +:+ dq +:+ "Epic content one" +:+ "..." +:+ dq
        +:+ " is completed but has 2 incomplete task(s)") (warnings (lintState s')).
Proof.
  refine (X30_completed_epic_warned demoClock stateTwoTasks [] epicTwoTasks [] 0 _ eq_refl _).
  - unique_ids.
  - discriminate.
Defined.
